(** * A shallow embedding of the CUDA path tracer's core

    Sources: [src/intersections.h] (hash, ray/box, ray/sphere, ray/mesh tests)
    and [src/pathtrace.cu] (seeding, ray generation, nearest-hit search,
    shading, stream compaction, final gather, the per-iteration driver).

    Numbers are modelled as the code has them: [float] is IEEE-754 binary32
    (the executable specification [SpecFloat] at precision 24), [double] is
    binary64, [int] and [unsigned int] are integers with their 32-bit
    wrap-around written out.  Device arrays are lists; a kernel launched over
    [num_paths] threads is a map over the first [num_paths] slots. *)

From Stdlib Require Import ZArith Bool List Lia.
From Stdlib Require Import Floats.SpecFloat.
From stdpp Require Import base list.

Local Open Scope Z_scope.

(* ------------------------------------------------------------------ *)
(** ** Floating point: binary32 and binary64 *)

Module F32.

Definition float := spec_float.

Definition prec : Z := 24.
Definition emax : Z := 128.

Definition add : float -> float -> float := SFadd prec emax.
Definition sub : float -> float -> float := SFsub prec emax.
Definition mul : float -> float -> float := SFmul prec emax.
Definition div : float -> float -> float := SFdiv prec emax.
Definition sqrt : float -> float := SFsqrt prec emax.
Definition neg : float -> float := SFopp.

(** The C comparisons; every one of them is false when an operand is NaN. *)
Definition lt (a b : float) : bool := SFltb a b.
Definition le (a b : float) : bool := SFleb a b.
Definition gt (a b : float) : bool := SFltb b a.
Definition ge (a b : float) : bool := SFleb b a.

Definition is_nan (a : float) : bool :=
  match a with S754_nan => true | _ => false end.

(** [(float) n] for an integer [n]. *)
Definition of_int (n : Z) : float := binary_normalize prec emax n 0 false.

Definition zero : float := S754_zero false.
Definition one : float := of_int 1.
Definition half : float := div one (of_int 2).          (* 0.5f *)
Definition minus_one : float := of_int (-1).
Definition ray_eps : float := div one (of_int 10000).   (* .0001f *)
Definition big : float := of_int (10 ^ 38).             (* 1e38f *)
Definition FLT_MAX : float := SFmax_float prec emax.
Definition infinity : float := S754_infinity false.

#[global] Arguments add : simpl never.
#[global] Arguments sub : simpl never.
#[global] Arguments mul : simpl never.
#[global] Arguments div : simpl never.
#[global] Arguments sqrt : simpl never.
#[global] Arguments lt : simpl never.
#[global] Arguments le : simpl never.
#[global] Arguments gt : simpl never.
#[global] Arguments ge : simpl never.
#[global] Arguments of_int : simpl never.
#[global] Arguments one : simpl never.
#[global] Arguments half : simpl never.
#[global] Arguments minus_one : simpl never.
#[global] Arguments ray_eps : simpl never.
#[global] Arguments big : simpl never.
#[global] Arguments FLT_MAX : simpl never.

End F32.

Module F64.

Definition double := spec_float.

Definition prec : Z := 53.
Definition emax : Z := 1024.

Definition add : double -> double -> double := SFadd prec emax.
Definition mul : double -> double -> double := SFmul prec emax.
Definition div : double -> double -> double := SFdiv prec emax.
Definition of_int (n : Z) : double := binary_normalize prec emax n 0 false.

Definition one : double := of_int 1.
Definition half : double := div one (of_int 2).              (* 0.5 *)
Definition seven_tenths : double := div (of_int 7) (of_int 10). (* 0.7 *)

(** Widening a [float] is exact; narrowing a [double] rounds to nearest
    even. *)
Definition of_float (x : F32.float) : double :=
  match x with
  | S754_finite s m e => binary_round prec emax s m e
  | _ => x
  end.

Definition to_float (x : double) : F32.float :=
  match x with
  | S754_finite s m e => binary_round F32.prec F32.emax s m e
  | _ => x
  end.

End F64.

Import F32.

(* ------------------------------------------------------------------ *)
(** ** 32-bit integers *)

Definition to_uint (z : Z) : Z := z mod 2 ^ 32.

Definition to_int (z : Z) : Z :=
  let u := z mod 2 ^ 32 in if u <? 2 ^ 31 then u else u - 2 ^ 32.

(** [utilhash], on [unsigned int]: every intermediate result wraps. *)
Definition utilhash (a0 : Z) : Z :=
  let a := to_uint a0 in
  let a := to_uint (to_uint (a + 0x7ed55d16) + to_uint (Z.shiftl a 12)) in
  let a := Z.lxor (Z.lxor a 0xc761c23c) (Z.shiftr a 19) in
  let a := to_uint (to_uint (a + 0x165667b1) + to_uint (Z.shiftl a 5)) in
  let a := Z.lxor (to_uint (a + 0xd3a2646c)) (to_uint (Z.shiftl a 9)) in
  let a := to_uint (to_uint (a + 0xfd7046c5) + to_uint (Z.shiftl a 3)) in
  let a := Z.lxor (Z.lxor a 0xb55a4f09) (Z.shiftr a 16) in
  a.

(** [thrust::default_random_engine] is library code; an engine is identified
    by the seed it was constructed from, which fixes its whole stream. *)
Record default_random_engine := mk_engine { engine_seed : Z }.

Definition makeSeededRandomEngine (iter index depth : Z)
  : default_random_engine :=
  let h := to_int (Z.lxor
                     (utilhash (to_int (Z.lor (Z.lor (to_int (Z.shiftl 1 31))
                                                     (to_int (Z.shiftl depth 22)))
                                              iter)))
                     (utilhash index)) in
  mk_engine (to_uint h).


(* ------------------------------------------------------------------ *)
(** ** The GLM vocabulary used by the sources

    GLM is a header library outside [src/]; the few functions the sources
    call are written here as the 0.9 headers define them (the release line
    whose [intersectRayTriangle] writes a [vec3]): [min x y] is
    [x < y ? x : y], [max x y] is [x > y ? x : y],
    [length v = sqrt (dot v v)], [normalize v = v * (1 / sqrt (dot v v))], a
    matrix is four columns, and a default-constructed vector is zero.  Other
    releases differ only in which operand [min] and [max] return when one is
    NaN. *)

Module glm.

Record vec2 := mk2 { x2 : float; y2 : float }.
Record ivec2 := mki2 { ix : Z; iy : Z }.
Record vec3 := mk3 { x : float; y : float; z : float }.
Record vec4 := mk4 { x4 : float; y4 : float; z4 : float; w4 : float }.
Record mat4 := mkmat { col0 : vec4; col1 : vec4; col2 : vec4; col3 : vec4 }.

Definition min (a b : float) : float := if lt a b then a else b.
Definition max (a b : float) : float := if gt a b then a else b.

Definition vec3_0 : vec3 := mk3 zero zero zero.
Definition splat (a : float) : vec3 := mk3 a a a.

(** [v[i]] and [v[i] = a], for [i] in 0..2. *)
Definition get (v : vec3) (i : nat) : float :=
  match i with O => x v | 1%nat => y v | _ => z v end.
Definition set (v : vec3) (i : nat) (a : float) : vec3 :=
  match i with
  | O => mk3 a (y v) (z v)
  | 1%nat => mk3 (x v) a (z v)
  | _ => mk3 (x v) (y v) a
  end.

Definition vadd (a b : vec3) : vec3 :=
  mk3 (add (x a) (x b)) (add (y a) (y b)) (add (z a) (z b)).
Definition vsub (a b : vec3) : vec3 :=
  mk3 (sub (x a) (x b)) (sub (y a) (y b)) (sub (z a) (z b)).
Definition vmul (a b : vec3) : vec3 :=
  mk3 (mul (x a) (x b)) (mul (y a) (y b)) (mul (z a) (z b)).
Definition vneg (a : vec3) : vec3 := mk3 (neg (x a)) (neg (y a)) (neg (z a)).
(** [v * s] and [s * v]. *)
Definition vscale (v : vec3) (s : float) : vec3 :=
  mk3 (mul (x v) s) (mul (y v) s) (mul (z v) s).
Definition scalev (s : float) (v : vec3) : vec3 :=
  mk3 (mul s (x v)) (mul s (y v)) (mul s (z v)).

Definition dot (a b : vec3) : float :=
  add (add (mul (x a) (x b)) (mul (y a) (y b))) (mul (z a) (z b)).
Definition cross (a b : vec3) : vec3 :=
  mk3 (sub (mul (y a) (z b)) (mul (y b) (z a)))
      (sub (mul (z a) (x b)) (mul (z b) (x a)))
      (sub (mul (x a) (y b)) (mul (x b) (y a))).
Definition length (v : vec3) : float := sqrt (dot v v).
Definition inversesqrt (a : float) : float := div one (sqrt a).
Definition normalize (v : vec3) : vec3 := vscale v (inversesqrt (dot v v)).

Definition v4scale (v : vec4) (s : float) : vec4 :=
  mk4 (mul (x4 v) s) (mul (y4 v) s) (mul (z4 v) s) (mul (w4 v) s).
Definition v4add (a b : vec4) : vec4 :=
  mk4 (add (x4 a) (x4 b)) (add (y4 a) (y4 b))
      (add (z4 a) (z4 b)) (add (w4 a) (w4 b)).
(** [m * v]: the columns weighted by the components of [v]. *)
Definition mulMV (m : mat4) (v : vec4) : vec4 :=
  v4add (v4add (v4scale (col0 m) (x4 v)) (v4scale (col1 m) (y4 v)))
        (v4add (v4scale (col2 m) (z4 v)) (v4scale (col3 m) (w4 v))).

Definition to_vec4 (v : vec3) (w : float) : vec4 := mk4 (x v) (y v) (z v) w.
Definition to_vec3 (v : vec4) : vec3 := mk3 (x4 v) (y4 v) (z4 v).

(** [std::numeric_limits<float>::epsilon()], that is [2^-23]. *)
Definition epsilon : float := S754_finite false 8388608 (-46).

(** Modelled from the spec: [glm::intersectRayTriangle] is library code
    outside [src/]; the spec calls it "a standard ray-triangle intersection
    (origin/direction, barycentric coordinates)".  This is the
    Moller-Trumbore test of the GLM release whose output vector the caller
    reads ([x], [y]: the barycentric weights of the second and third
    vertex; [z]: the ray parameter).  The development takes the test as a
    parameter; this instance is only used to run it on concrete input. *)
Definition intersectRayTriangle (orig dir v0 v1 v2 : vec3) : option vec3 :=
  let e1 := vsub v1 v0 in
  let e2 := vsub v2 v0 in
  let p := cross dir e2 in
  let a := dot e1 p in
  if lt a epsilon then None else
  let f := div one a in
  let s := vsub orig v0 in
  let bx := mul f (dot s p) in
  if lt bx zero then None else
  if gt bx one then None else
  let q := cross s e1 in
  let by_ := mul f (dot dir q) in
  if lt by_ zero then None else
  if gt (add by_ bx) one then None else
  let bz := mul f (dot e2 q) in
  if ge bz zero then Some (mk3 bx by_ bz) else None.

End glm.

Import glm.

(** [std::min]/[std::max] on [float] as CUDA provides them ([fminf],
    [fmaxf]): a NaN operand is dropped. *)
Definition fminf (a b : float) : float :=
  if is_nan a then b else if is_nan b then a else if lt b a then b else a.
Definition fmaxf (a b : float) : float :=
  if is_nan a then b else if is_nan b then a else if lt a b then b else a.

(** [powf(x, 2)]. *)
Definition powf_2 (a : float) : float := mul a a.

(** [abs] on a [float] ([fabsf]), and the literal [0.001f]. *)
Definition fabsf (a : float) : float := SFabs a.
Definition milli : float := div one (of_int 1000).

(** [(int) d] for a [double] [d] as the device converts it: rounded toward
    zero, saturated to the range of [int], NaN to 0. *)
Definition double_to_int (d : F64.double) : Z :=
  match d with
  | S754_nan => 0
  | S754_zero _ => 0
  | S754_infinity s => if s then - 2 ^ 31 else 2 ^ 31 - 1
  | S754_finite s m e =>
      let mag := if 0 <=? e then Z.pos m * 2 ^ e
                 else Z.shiftr (Z.pos m) (- e) in
      let v := if s then - mag else mag in
      Z.max (- 2 ^ 31) (Z.min (2 ^ 31 - 1) v)
  end.

(** [glm::clamp] on [int], and the conversion of an [int] to
    [unsigned char]. *)
Definition clamp (a lo hi : Z) : Z := Z.min (Z.max a lo) hi.
Definition to_uchar (a : Z) : Z := a mod 256.

(* ------------------------------------------------------------------ *)
(** ** Scene records ([sceneStructs.h], as the sources use their fields) *)

Inductive GeomType := SPHERE | CUBE | MESH.

Record Ray := mkRay { origin : vec3; direction : vec3; time : float }.

Record Geom := mkGeom {
  type : GeomType;
  materialid : Z;
  translation : vec3;
  transform : mat4;
  inverseTransform : mat4;
  invTranspose : mat4;
  moving : bool;
  target : vec3;
  startIndex : Z;
  endIndex : Z;
  leftBottom : vec3;
  rightTop : vec3
}.

Record Triangle := mkTriangle {
  p1 : vec3; p2 : vec3; p3 : vec3;
  n1 : vec3; n2 : vec3; n3 : vec3
}.

Record Camera := mkCamera {
  resolution : ivec2;
  position : vec3;
  view : vec3;
  up : vec3;
  right : vec3;
  pixelLength : vec2
}.

Record PathSegment := mkPath {
  ray : Ray;
  color : vec3;
  pixelIndex : Z;
  remainingBounces : Z
}.

Record ShadeableIntersection := mkIsect {
  t : float;
  point : vec3;
  surfaceNormal : vec3;
  materialId : Z
}.

(** A texel of the display buffer ([uchar4]). *)
Record uchar4 := mkuchar4 { cx : Z; cy : Z; cz : Z; cw : Z }.

(** The BSDF parameters of a material are opaque to this core. *)
Record Material (BSDF : Type) := mkMaterial {
  mcolor : vec3;          (* [Material::color] *)
  emittance : float;
  bsdf : BSDF
}.
Arguments mkMaterial {BSDF}.
Arguments mcolor {BSDF}.
Arguments emittance {BSDF}.
Arguments bsdf {BSDF}.

(** What [pathtrace] reads from [hst_scene] and the device copies of its
    tables. *)
Record Scene (BSDF : Type) := mkScene {
  camera : Camera;
  traceDepth : Z;
  geoms : list Geom;
  triangles : list Triangle;
  materials : list (Material BSDF)
}.
Arguments mkScene {BSDF}.
Arguments camera {BSDF}.
Arguments traceDepth {BSDF}.
Arguments geoms {BSDF}.
Arguments triangles {BSDF}.
Arguments materials {BSDF}.

(** What [cudaMemset(dev_intersections, 0, ...)] leaves in every slot. *)
Definition zero_intersection : ShadeableIntersection :=
  mkIsect zero vec3_0 vec3_0 0.

(** [a[i]] for a C [int] index. *)
Definition at_index {A : Type} (l : list A) (i : Z) : option A :=
  if i <? 0 then None else l !! Z.to_nat i.

(* ------------------------------------------------------------------ *)
(** ** Concrete scenes on which the statements are run *)

Module Demo.

Definition f (n : Z) : float := of_int n.
Definition v (a b c : Z) : vec3 := mk3 (f a) (f b) (f c).
Definition quarter : float := div one (f 4).

(** A diagonal matrix [diag(a, a, a, 1)]: the uniform scaling by [a]. *)
Definition scaling (a : float) : mat4 :=
  mkmat (mk4 a zero zero zero) (mk4 zero a zero zero)
        (mk4 zero zero a zero) (mk4 zero zero zero one).
Definition identity : mat4 := scaling one.

(** An untransformed, unmoving geometry record of the given type. *)
Definition unit_geom (ty : GeomType) : Geom :=
  mkGeom ty 0 vec3_0 identity identity identity false vec3_0 0 0
         (v (-1) (-1) 0) (v 1 1 0).

(** A sphere scaled by [2^66] about the origin. *)
Definition two_66 : float := S754_finite false 8388608 43.
Definition two_m66 : float := S754_finite false 8388608 (-89).
Definition huge_sphere : Geom :=
  mkGeom SPHERE 0 vec3_0 (scaling two_66) (scaling two_m66) (scaling two_m66)
         false vec3_0 0 0 vec3_0 vec3_0.

(** One triangle in the plane [z = 0] whose vertex normals are the three
    axes, and a ray that comes straight down on it from [z = 5]. *)
Definition triangle : Triangle :=
  mkTriangle (v (-1) (-1) 0) (v 1 (-1) 0) (v 0 1 0)
             (v 1 0 0) (v 0 1 0) (v 0 0 1).
Definition down_ray : Ray := mkRay (v 0 0 5) (v 0 0 (-1)) zero.
Definition up_ray : Ray := mkRay (v 0 0 0) (v 0 0 1) zero.

Definition blank_path : PathSegment := mkPath (mkRay vec3_0 vec3_0 zero) vec3_0 0 0.
Definition dead_path : PathSegment := mkPath down_ray (v 1 2 3) 0 (-1).
Definition live_path : PathSegment := mkPath down_ray (v 1 1 1) 1 2.

(** A 2x2 camera at the origin looking down [-z]. *)
Definition cam : Camera :=
  mkCamera (mki2 2 2) vec3_0 (v 0 0 (-1)) (v 0 1 0) (v 1 0 0)
           (mk2 quarter quarter).

Definition light : Material unit := mkMaterial (v 1 1 1) (f 5) tt.
Definition grey : Material unit := mkMaterial (mk3 half half half) zero tt.

(** The camera inside a white sphere of emittance 5; an empty scene. *)
Definition lamp_scene : Scene unit :=
  mkScene cam 1 [unit_geom SPHERE] [] [light].
Definition empty_scene : Scene unit := mkScene cam 3 [] [] [grey].

(** The camera inside a grey, unlit sphere, for a given trace depth; an
    empty scene whose trace depth is 0. *)
Definition matte_scene (depth : Z) : Scene unit :=
  mkScene cam depth [unit_geom SPHERE] [] [grey].
Definition depthless_scene : Scene unit := mkScene cam 0 [] [] [grey].

(** A stand-in for [scatterRay]: bounce off along the normal, tint by the
    material colour. *)
Definition scatter (seg : PathSegment) (p n : vec3) (m : Material unit)
    (rng : default_random_engine) : PathSegment :=
  mkPath (mkRay p n (time (ray seg))) (vmul (color seg) (mcolor m))
         (pixelIndex seg) (remainingBounces seg).

(** A triangle shrunk to a point, a mesh record whose triangle range is
    empty, and a ray without a direction. *)
Definition point_triangle : Triangle :=
  mkTriangle vec3_0 vec3_0 vec3_0 (v 0 0 1) (v 0 0 1) (v 0 0 1).
Definition empty_mesh : Geom :=
  mkGeom MESH 0 vec3_0 identity identity identity false vec3_0 0 (-1)
         (v (-1) (-1) 0) (v 1 1 0).
Definition still_ray : Ray := mkRay (v 0 0 5) vec3_0 zero.

End Demo.

(* ------------------------------------------------------------------ *)
(** ** The path tracer *)

Section PathTracer.

#[local] Set Default Proof Using "Type".

Context {BSDF : Type}.
#[local] Abbreviation Material := (Material BSDF).
#[local] Abbreviation Scene := (Scene BSDF).

(** [scatterRay] lives in [interactions.h], outside [src/]: it receives the
    path segment by reference together with the hit point, the normal, the
    material and the random engine. *)
Variable scatterRay :
  PathSegment -> vec3 -> vec3 -> Material -> default_random_engine ->
  PathSegment.

(** [glm::intersectRayTriangle]: [Some tvec] when it returns true, [tvec]
    being the vector it wrote. *)
Variable intersectRayTriangle :
  vec3 -> vec3 -> vec3 -> vec3 -> vec3 -> option vec3.

(** The preprocessor switches kept as parameters.  The sources set
    [BOUNDING_BOX_ENABLE 1], [AMBIENT_LIGHT_ENABLE 1], [STREAM_COMPACTION 0];
    [SORT_BY_MATERIAL], [CACHE_ENABLE], [ANTIALIASING],
    [DEPTH_OF_FIELD_ENABLE] and [MOTION_BLUR_ENABLE] are 0 and the code
    they guard is left out. *)
Variables BOUNDING_BOX_ENABLE AMBIENT_LIGHT_ENABLE STREAM_COMPACTION : bool.

(** A read outside an array returns memory the program does not own; the
    value is left unspecified. *)
Variable oob_material : Material.
Variable oob_triangle : Triangle.
Variable oob_geom : Geom.

Definition material_at (materials : list Material) (i : Z) : Material :=
  default oob_material (at_index materials i).
Definition triangle_at (triangles : list Triangle) (i : Z) : Triangle :=
  default oob_triangle (at_index triangles i).
Definition geom_at (geoms : list Geom) (i : Z) : Geom :=
  default oob_geom (at_index geoms i).

(** *** intersections.h *)

Definition getPointOnRay (r : Ray) (t : float) : vec3 :=
  vadd (origin r) (scalev (sub t ray_eps) (normalize (direction r))).

Definition multiplyMV (m : mat4) (v : vec4) : vec3 := to_vec3 (mulMV m v).

(** What an intersection test hands back: its return value and the state
    of its two output references. *)
Record TestResult := mkResult {
  ret : float;
  intersectionPoint : vec3;
  normal : vec3
}.

(** The motion offset [r.time * (g.target - g.translation)]. *)
Definition motion (g : Geom) (r : Ray) : vec3 :=
  scalev (time r) (vsub (target g) (translation g)).

Record Slab := mkSlab {
  tmin : float; tmax : float; tmin_n : vec3; tmax_n : vec3
}.

Definition slab_init : Slab := mkSlab (neg big) big vec3_0 vec3_0.

(** The two slab parameters of one axis. *)
Definition slab_t1 (q : Ray) (xyz : nat) : float :=
  div (sub (neg half) (get (origin q) xyz)) (get (direction q) xyz).
Definition slab_t2 (q : Ray) (xyz : nat) : float :=
  div (sub half (get (origin q) xyz)) (get (direction q) xyz).
Definition slab_ta (q : Ray) (xyz : nat) : float :=
  glm.min (slab_t1 q xyz) (slab_t2 q xyz).
Definition slab_tb (q : Ray) (xyz : nat) : float :=
  glm.max (slab_t1 q xyz) (slab_t2 q xyz).

(** One turn of the [for (xyz ...)] loop of [boxIntersectionTest]. *)
Definition box_axis (q : Ray) (st : Slab) (xyz : nat) : Slab :=
  let t1 := slab_t1 q xyz in
  let t2 := slab_t2 q xyz in
  let ta := slab_ta q xyz in
  let tb := slab_tb q xyz in
  let n := set vec3_0 xyz (if lt t2 t1 then of_int 1 else of_int (-1)) in
  let st1 :=
    if gt ta zero && gt ta (tmin st)
    then mkSlab ta (tmax st) n (tmax_n st)
    else st in
  if lt tb (tmax st1)
  then mkSlab (tmin st1) tb (tmin_n st1) (set n xyz (neg (get n xyz)))
  else st1.

Definition box_slabs (q : Ray) : Slab :=
  fold_left (box_axis q) [0; 1; 2]%nat slab_init.

(** The object-space ray [q] of [boxIntersectionTest]; [q.time] is never
    read. *)
Definition box_ray (box : Geom) (r : Ray) : Ray :=
  let ro := if moving box then vsub (origin r) (motion box r)
            else origin r in
  mkRay (multiplyMV (inverseTransform box) (to_vec4 ro one))
        (normalize (multiplyMV (inverseTransform box)
                               (to_vec4 (direction r) zero)))
        (time r).

Definition boxIntersectionTest (box : Geom) (r : Ray)
    (intersectionPoint0 normal0 : vec3) : TestResult :=
  let q := box_ray box r in
  let st := box_slabs q in
  if ge (tmax st) (tmin st) && gt (tmax st) zero then
    let st := if le (tmin st) zero
              then mkSlab (tmax st) (tmax st) (tmax_n st) (tmax_n st)
              else st in
    let ip := multiplyMV (transform box)
                         (to_vec4 (getPointOnRay q (tmin st)) one) in
    let ip := if moving box then vadd ip (motion box r) else ip in
    let n := normalize (multiplyMV (invTranspose box)
                                   (to_vec4 (tmin_n st) zero)) in
    mkResult (length (vsub (origin r) ip)) ip n
  else mkResult minus_one intersectionPoint0 normal0.

(** The object-space ray [rt] of the sphere and mesh tests. *)
Definition object_ray (g : Geom) (r : Ray) : Ray :=
  let ro := if moving g
            then multiplyMV (inverseTransform g)
                   (to_vec4 (vsub (origin r) (motion g r)) one)
            else multiplyMV (inverseTransform g) (to_vec4 (origin r) one) in
  mkRay ro
        (normalize (multiplyMV (inverseTransform g)
                               (to_vec4 (direction r) zero)))
        (time r).

Definition sphere_radicand (rt : Ray) : float :=
  let vDotDirection := dot (origin rt) (direction rt) in
  sub (mul vDotDirection vDotDirection)
      (sub (dot (origin rt) (origin rt)) (powf_2 half)).

(** The two roots [t1 = firstTerm + squareRoot], [t2 = firstTerm -
    squareRoot]. *)
Definition sphere_t1 (rt : Ray) : float :=
  add (neg (dot (origin rt) (direction rt))) (sqrt (sphere_radicand rt)).
Definition sphere_t2 (rt : Ray) : float :=
  sub (neg (dot (origin rt) (direction rt))) (sqrt (sphere_radicand rt)).

(** The tail of [sphereIntersectionTest] once [t] is chosen. *)
Definition sphere_hit (sphere : Geom) (r rt : Ray) (t : float) : TestResult :=
  let objspaceIntersection := getPointOnRay rt t in
  let ip := multiplyMV (transform sphere)
                       (to_vec4 objspaceIntersection one) in
  let ip := if moving sphere then vadd ip (motion sphere r) else ip in
  let n := normalize (multiplyMV (invTranspose sphere)
                                 (to_vec4 objspaceIntersection zero)) in
  mkResult (length (vsub (origin r) ip)) ip n.

Definition sphereIntersectionTest (sphere : Geom) (r : Ray)
    (intersectionPoint0 normal0 : vec3) : TestResult :=
  let rt := object_ray sphere r in
  if lt (sphere_radicand rt) zero
  then mkResult minus_one intersectionPoint0 normal0
  else
    let t1 := sphere_t1 rt in
    let t2 := sphere_t2 rt in
    if lt t1 zero && lt t2 zero
    then mkResult minus_one intersectionPoint0 normal0
    else if gt t1 zero && gt t2 zero
    then sphere_hit sphere r rt (fminf t1 t2)
    else sphere_hit sphere r rt (fmaxf t1 t2).

Definition bounding_axis (r : Ray) (leftBottom rightTop : vec3)
    (st : float * float) (xyz : nat) : float * float :=
  let qdxyz := get (direction r) xyz in
  let t1 := div (sub (get leftBottom xyz) (get (origin r) xyz)) qdxyz in
  let t2 := div (sub (get rightTop xyz) (get (origin r) xyz)) qdxyz in
  let ta := glm.min t1 t2 in
  let tb := glm.max t1 t2 in
  let tmin1 := if gt ta zero && gt ta (fst st) then ta else fst st in
  let tmax1 := if lt tb (snd st) then tb else snd st in
  (tmin1, tmax1).

Definition boundingIntersectionTest (r : Ray) (leftBottom rightTop : vec3)
  : bool :=
  let st := fold_left (bounding_axis r leftBottom rightTop)
                      [0; 1; 2]%nat (neg big, big) in
  ge (snd st) (fst st) && gt (snd st) zero.

(** The ray-plane parameter [t] of [triangleIntersect], the hit point [P],
    the triangle's area term [S] and the three area ratios. *)
Definition tri_t (r : Ray) (tri : Triangle) : float :=
  div (dot (n1 tri) (vsub (p1 tri) (origin r))) (dot (n1 tri) (direction r)).
Definition tri_P (r : Ray) (tri : Triangle) : vec3 :=
  vadd (origin r) (scalev (tri_t r tri) (direction r)).
Definition tri_S (tri : Triangle) : float :=
  mul half (length (cross (vsub (p1 tri) (p2 tri)) (vsub (p1 tri) (p3 tri)))).
Definition tri_s1 (r : Ray) (tri : Triangle) : float :=
  div (mul half (length (cross (vsub (tri_P r tri) (p2 tri))
                               (vsub (tri_P r tri) (p3 tri)))))
      (tri_S tri).
Definition tri_s2 (r : Ray) (tri : Triangle) : float :=
  div (mul half (length (cross (vsub (tri_P r tri) (p3 tri))
                               (vsub (tri_P r tri) (p1 tri)))))
      (tri_S tri).
Definition tri_s3 (r : Ray) (tri : Triangle) : float :=
  div (mul half (length (cross (vsub (tri_P r tri) (p1 tri))
                               (vsub (tri_P r tri) (p2 tri)))))
      (tri_S tri).

(** [triangleIntersect]: the return value and the state of the [normal]
    reference. *)
Definition triangleIntersect (r : Ray) (tri : Triangle) (normal0 : vec3)
  : float * vec3 :=
  let t := tri_t r tri in
  if lt t zero then (minus_one, normal0)
  else
    let S := tri_S tri in
    let s1 := tri_s1 r tri in
    let s2 := tri_s2 r tri in
    let s3 := tri_s3 r tri in
    let sum := add (add s1 s2) s3 in
    if ge s1 zero && le s1 one && ge s2 zero && le s2 one
       && ge s3 zero && le s3 one && lt (fabsf (sub sum one)) milli
    then (t, vadd (vadd (scalev (div s1 S) (n1 tri))
                        (scalev (div s2 S) (n2 tri)))
                  (scalev (div s3 S) (n3 tri)))
    else (minus_one, normal0).

(** The loop state of [meshIntersectionTest]. *)
Record MeshScan := mkScan { t_min : float; minId : Z; minBary : vec3 }.

Definition mesh_init : MeshScan := mkScan FLT_MAX (-1) vec3_0.

(** The body of [for (i = mesh.startIndex; i <= mesh.endIndex; i++)]. *)
Definition mesh_step (rt : Ray) (triangles : list Triangle)
    (st : MeshScan) (i : Z) : MeshScan :=
  let tri := triangle_at triangles i in
  match intersectRayTriangle (origin rt) (direction rt)
                             (p1 tri) (p2 tri) (p3 tri) with
  | Some tvec =>
      let t := z tvec in
      if gt t zero && gt (t_min st) t then mkScan t i tvec else st
  | None => st
  end.

Fixpoint mesh_scan (rt : Ray) (triangles : list Triangle)
    (n : nat) (i : Z) (st : MeshScan) : MeshScan :=
  match n with
  | O => st
  | S n' => mesh_scan rt triangles n' (i + 1) (mesh_step rt triangles st i)
  end.

(** The number of turns of that loop. *)
Definition mesh_count (mesh : Geom) : nat :=
  Z.to_nat (endIndex mesh - startIndex mesh + 1).

(** Line 259: the vertex normals weighted by the components of
    [minBary]. *)
Definition weighted_normal (tri : Triangle) (bary : vec3) : vec3 :=
  vadd (vadd (vscale (n1 tri) (x bary)) (vscale (n2 tri) (y bary)))
       (vscale (n3 tri) (z bary)).

Definition face_forward (n dir : vec3) : vec3 :=
  if gt (dot n dir) zero then vneg n else n.

Definition meshIntersectionTest (mesh : Geom) (r : Ray)
    (intersectionPoint0 normal0 : vec3) (triangles : list Triangle)
  : TestResult :=
  let rt := object_ray mesh r in
  if BOUNDING_BOX_ENABLE
     && negb (boundingIntersectionTest rt (leftBottom mesh) (rightTop mesh))
  then mkResult minus_one intersectionPoint0 normal0
  else
    let st := mesh_scan rt triangles (mesh_count mesh) (startIndex mesh)
                        mesh_init in
    if minId st <? 0
    then mkResult minus_one intersectionPoint0 normal0
    else
      let n := weighted_normal (triangle_at triangles (minId st))
                               (minBary st) in
      let n := face_forward n (direction rt) in
      let objspaceIntersection := getPointOnRay rt (t_min st) in
      let ip := multiplyMV (transform mesh)
                           (to_vec4 objspaceIntersection one) in
      let ip := if moving mesh then vadd ip (motion mesh r) else ip in
      let n := normalize (multiplyMV (invTranspose mesh) (to_vec4 n zero)) in
      mkResult (length (vsub (origin r) ip)) ip n.

(** *** pathtrace.cu: kernels *)

(** A kernel whose thread [idx] rewrites slot [idx] when
    [idx < num_paths]. *)
Definition kernel {A : Type} (num_paths : Z) (body : nat -> A -> A)
    (slots : list A) : list A :=
  imap (fun idx a => if Z.of_nat idx <? num_paths then body idx a else a)
       slots.

(** The thread of [generateRayFromCamera] at pixel [(x, y)], writing into
    the segment already in its slot; [ray.time] is not assigned. *)
Definition generate_thread (cam : Camera) (traceDepth : Z) (x y : Z)
    (segment : PathSegment) : PathSegment :=
  let rx := ix (resolution cam) in
  let ry := iy (resolution cam) in
  let index := x + y * rx in
  let dir :=
    normalize
      (vsub (vsub (view cam)
                  (vscale (vscale (right cam) (x2 (pixelLength cam)))
                          (sub (of_int x) (mul (of_int rx) half))))
            (vscale (vscale (up cam) (y2 (pixelLength cam)))
                    (sub (of_int y) (mul (of_int ry) half)))) in
  mkPath (mkRay (position cam) dir (time (ray segment)))
         (mk3 one one one) index traceDepth.

Definition pixelcount (cam : Camera) : Z :=
  ix (resolution cam) * iy (resolution cam).

(** The 2D launch: the threads with [x < resolution.x] and
    [y < resolution.y] are in bijection with the slots
    [index = x + y * resolution.x] below [pixelcount]. *)
Definition generateRayFromCamera (cam : Camera) (iter traceDepth : Z)
    (pathSegments : list PathSegment) : list PathSegment :=
  let rx := ix (resolution cam) in
  let ry := iy (resolution cam) in
  if (0 <? rx) && (0 <? ry) then
    kernel (pixelcount cam)
           (fun index => generate_thread cam traceDepth
                           (Z.of_nat index mod rx) (Z.of_nat index / rx))
           pathSegments
  else pathSegments.

(** The locals of a [computeIntersections] thread. *)
Record Nearest := mkNearest {
  near_t_min : float;
  hit_geom_index : Z;
  intersect_point : vec3;
  near_normal : vec3;
  tmp_intersect : vec3;
  tmp_normal : vec3
}.

Definition nearest_init : Nearest :=
  mkNearest FLT_MAX (-1) vec3_0 vec3_0 vec3_0 vec3_0.

(** The dispatch on [geom.type]. *)
Definition geom_test (triangles : list Triangle) (geom : Geom) (r : Ray)
    (tmp_i tmp_n : vec3) : TestResult :=
  match type geom with
  | CUBE => boxIntersectionTest geom r tmp_i tmp_n
  | SPHERE => sphereIntersectionTest geom r tmp_i tmp_n
  | MESH => meshIntersectionTest geom r tmp_i tmp_n triangles
  end.

(** The body of [for (i = 0; i < geoms_size; i++)]. *)
Definition nearest_step (triangles : list Triangle) (r : Ray)
    (st : Nearest) (i : Z) (geom : Geom) : Nearest :=
  let res := geom_test triangles geom r (tmp_intersect st) (tmp_normal st) in
  if gt (ret res) zero && gt (near_t_min st) (ret res)
  then mkNearest (ret res) i (intersectionPoint res) (normal res)
                 (intersectionPoint res) (normal res)
  else mkNearest (near_t_min st) (hit_geom_index st)
                 (intersect_point st) (near_normal st)
                 (intersectionPoint res) (normal res).

Fixpoint nearest_scan (triangles : list Triangle) (r : Ray)
    (i : Z) (geoms : list Geom) (st : Nearest) : Nearest :=
  match geoms with
  | [] => st
  | geom :: rest =>
      nearest_scan triangles r (i + 1) rest
                   (nearest_step triangles r st i geom)
  end.

Definition intersect_thread (geoms : list Geom) (triangles : list Triangle)
    (pathSegment : PathSegment) (slot : ShadeableIntersection)
  : ShadeableIntersection :=
  let st := nearest_scan triangles (ray pathSegment) 0 geoms nearest_init in
  if hit_geom_index st =? -1
  then mkIsect minus_one (point slot) (surfaceNormal slot) (materialId slot)
  else mkIsect (near_t_min st) (intersect_point st) (near_normal st)
               (materialid (geom_at geoms (hit_geom_index st))).

Definition computeIntersections (depth num_paths : Z)
    (pathSegments : list PathSegment) (geoms : list Geom)
    (intersections : list ShadeableIntersection)
    (triangles : list Triangle) : list ShadeableIntersection :=
  kernel num_paths
         (fun path_index slot =>
            match pathSegments !! path_index with
            | Some pathSegment =>
                intersect_thread geoms triangles pathSegment slot
            | None => slot
            end)
         intersections.

(** [(1.0f - t) * vec3(1.0, 1.0, 1.0) + t * vec3(0.5, 0.7, 1.0)] with
    [t = 0.5 * (normalize(direction).y + 1.0)] computed in [double]. *)
Definition sky (dir : vec3) : vec3 :=
  let t := F64.to_float
             (F64.mul F64.half
                (F64.add (F64.of_float (y (normalize dir))) F64.one)) in
  vadd (scalev (sub one t) (mk3 one one one))
       (scalev t (mk3 half (F64.to_float F64.seven_tenths) one)).

(** The [#if AMBIENT_LIGHT_ENABLE ... #else ... #endif] block. *)
Definition ambient (seg : PathSegment) : vec3 :=
  if AMBIENT_LIGHT_ENABLE
  then vmul (color seg) (sky (direction (ray seg)))
  else splat zero.

Definition set_color (seg : PathSegment) (c : vec3) : PathSegment :=
  mkPath (ray seg) c (pixelIndex seg) (remainingBounces seg).
Definition set_remainingBounces (seg : PathSegment) (n : Z) : PathSegment :=
  mkPath (ray seg) (color seg) (pixelIndex seg) n.

(** The seed a [shadeBSDFMaterial] thread draws its engine from. *)
Definition shade_rng (iter : Z) (idx : nat) (seg : PathSegment)
  : default_random_engine :=
  makeSeededRandomEngine iter (Z.of_nat idx) (remainingBounces seg).

Definition shade_thread (iter : Z) (materials : list Material) (idx : nat)
    (intersection : ShadeableIntersection) (seg : PathSegment)
  : PathSegment :=
  if remainingBounces seg <=? 0 then seg
  else if gt (t intersection) zero then
    let rng := shade_rng iter idx seg in
    let material := material_at materials (materialId intersection) in
    let materialColor := mcolor material in
    if gt (emittance material) zero then
      if remainingBounces seg >=? 0
      then set_remainingBounces
             (set_color seg (vmul (color seg)
                                  (vscale materialColor (emittance material))))
             (-1)
      else seg
    else
      let seg := scatterRay seg (point intersection)
                            (surfaceNormal intersection) material rng in
      let seg := set_remainingBounces seg
                                      (to_int (remainingBounces seg - 1)) in
      if remainingBounces seg <=? 0
      then set_color seg (ambient seg)
      else seg
  else set_remainingBounces (set_color seg (ambient seg)) 0.

Definition shadeBSDFMaterial (iter num_paths : Z)
    (shadeableIntersections : list ShadeableIntersection)
    (pathSegments : list PathSegment) (materials : list Material)
  : list PathSegment :=
  kernel num_paths
         (fun idx seg =>
            match shadeableIntersections !! idx with
            | Some intersection =>
                shade_thread iter materials idx intersection seg
            | None => seg
            end)
         pathSegments.

(** [image[iterationPath.pixelIndex] += iterationPath.color]; a pixel index
    outside the image names no pixel.  The threads of [finalGather] are
    taken in index order. *)
Definition gather_thread (image : list vec3) (iterationPath : PathSegment)
  : list vec3 :=
  match at_index image (pixelIndex iterationPath) with
  | Some pix =>
      <[Z.to_nat (pixelIndex iterationPath) :=
          vadd pix (color iterationPath)]> image
  | None => image
  end.

Definition finalGather (nPaths : Z) (image : list vec3)
    (iterationPaths : list PathSegment) : list vec3 :=
  fold_left gather_thread (take (Z.to_nat nPaths) iterationPaths) image.

(** One channel of [sendImageToPBO]:
    [glm::clamp((int)(pix.x / iter * 255.0), 0, 255)]. *)
Definition pbo_channel (iter : Z) (c : float) : Z :=
  clamp (double_to_int
           (F64.mul (F64.of_float (div c (of_int iter))) (F64.of_int 255)))
        0 255.

Definition pbo_thread (iter : Z) (pix : vec3) (slot : uchar4) : uchar4 :=
  mkuchar4 (to_uchar (pbo_channel iter (x pix)))
           (to_uchar (pbo_channel iter (y pix)))
           (to_uchar (pbo_channel iter (z pix)))
           0.

(** [sendImageToPBO], launched like [generateRayFromCamera]. *)
Definition sendImageToPBO (pbo : list uchar4) (resolution : ivec2) (iter : Z)
    (image : list vec3) : list uchar4 :=
  if (0 <? ix resolution) && (0 <? iy resolution) then
    kernel (ix resolution * iy resolution)
           (fun index slot =>
              match image !! index with
              | Some pix => pbo_thread iter pix slot
              | None => slot
              end)
           pbo
  else pbo.

Definition fake_thread (iter : Z) (materials : list Material) (idx : nat)
    (intersection : ShadeableIntersection) (seg : PathSegment)
  : PathSegment :=
  if gt (t intersection) zero then
    let rng := makeSeededRandomEngine iter (Z.of_nat idx) 0 in
    let material := material_at materials (materialId intersection) in
    let materialColor := mcolor material in
    if gt (emittance material) zero
    then set_color seg (vmul (color seg)
                             (vscale materialColor (emittance material)))
    else scatterRay seg (point intersection) (surfaceNormal intersection)
                    material rng
  else set_color seg (splat zero).

Definition shadeFakeMaterial (iter num_paths : Z)
    (shadeableIntersections : list ShadeableIntersection)
    (pathSegments : list PathSegment) (materials : list Material)
  : list PathSegment :=
  kernel num_paths
         (fun idx seg =>
            match shadeableIntersections !! idx with
            | Some intersection =>
                fake_thread iter materials idx intersection seg
            | None => seg
            end)
         pathSegments.

(** [material_cmp], the order [thrust::sort_by_key] would be given. *)
Definition material_cmp (s1 s2 : ShadeableIntersection) : bool :=
  materialId s1 <? materialId s2.

(** The predicate handed to the partition. *)
Definition is_zero (p : PathSegment) : bool := 0 <? remainingBounces p.

(** Modelled from the spec: [thrust::stable_partition] is library code
    outside [src/].  It reorders the range so that the elements satisfying
    the predicate precede the others, keeps the relative order inside both
    groups, and returns the end of the first group. *)
Definition stable_partition {A : Type} (pred : A -> bool) (range : list A)
  : list A * Z :=
  (List.filter pred range ++ List.filter (fun a => negb (pred a)) range,
   Z.of_nat (List.length (List.filter pred range))).

(** Lines 580-581: the partition of the first [remaining_paths] slots of
    [dev_paths]; the slots behind them stay. *)
Definition compact (remaining_paths : Z) (paths : list PathSegment)
  : list PathSegment * Z :=
  let n := Z.to_nat remaining_paths in
  let '(front, new_end) := stable_partition is_zero (take n paths) in
  (front ++ drop n paths, new_end).

(** *** pathtrace.cu: the host side *)

(** The device buffers that outlive a call. *)
Record Session := mkSession {
  dev_image : list vec3;
  dev_paths : list PathSegment;
  dev_intersections : list ShadeableIntersection
}.

(** What [cudaMalloc] hands out for [dev_paths] is not initialised. *)
Variable uninit_path : PathSegment.

Definition pathtraceInit (scene : Scene) : Session :=
  let n := Z.to_nat (pixelcount (camera scene)) in
  mkSession (replicate n vec3_0) (replicate n uninit_path)
            (replicate n zero_intersection).

(** One turn of [while (!iterationComplete)]: the new path array, the
    intersections it was shaded with, [remaining_paths] and
    [iterationComplete]. *)
Definition trace_round (scene : Scene) (iter depth remaining_paths : Z)
    (paths : list PathSegment)
  : list PathSegment * list ShadeableIntersection * Z * bool :=
  let cleared := replicate (Z.to_nat (pixelcount (camera scene)))
                           zero_intersection in
  let isects := computeIntersections depth remaining_paths paths
                  (geoms scene) cleared (triangles scene) in
  let depth := depth + 1 in
  let paths := shadeBSDFMaterial iter remaining_paths isects paths
                                 (materials scene) in
  let iterationComplete := depth >=? traceDepth scene in
  if STREAM_COMPACTION then
    let '(paths, remaining_paths) := compact remaining_paths paths in
    (paths, isects, remaining_paths,
     iterationComplete || (remaining_paths <=? 0))
  else (paths, isects, remaining_paths, iterationComplete).

(** The loop itself; [None] when [fuel] turns do not finish it. *)
Fixpoint trace_loop (fuel : nat) (scene : Scene)
    (iter depth remaining_paths : Z) (paths : list PathSegment)
  : option (list PathSegment * list ShadeableIntersection) :=
  match fuel with
  | O => None
  | S fuel' =>
      let '(paths, isects, remaining_paths, iterationComplete) :=
        trace_round scene iter depth remaining_paths paths in
      if iterationComplete then Some (paths, isects)
      else trace_loop fuel' scene iter (depth + 1) remaining_paths paths
  end.

(** [depth] reaches [traceDepth] after at most this many turns. *)
Definition trace_fuel (scene : Scene) : nat :=
  S (Z.to_nat (traceDepth scene)).

(** [pathtrace(pbo, frame, iter)], up to the copy to the display buffer. *)
Definition pathtrace (scene : Scene) (iter : Z) (s : Session)
  : option Session :=
  let cam := camera scene in
  let paths := generateRayFromCamera cam iter (traceDepth scene)
                                     (dev_paths s) in
  let num_paths := pixelcount cam in
  match trace_loop (trace_fuel scene) scene iter 0 num_paths paths with
  | Some (paths, isects) =>
      Some (mkSession (finalGather num_paths (dev_image s) paths)
                      paths isects)
  | None => None
  end.

(** Modelled from the spec: the caller of [pathtrace] is outside [src/];
    "iterations are strictly sequential" and are numbered 1..N. *)
Fixpoint render (n : nat) (scene : Scene) (s : Session) : option Session :=
  match n with
  | O => Some s
  | S n' =>
      match render n' scene s with
      | Some s' => pathtrace scene (Z.of_nat n) s'
      | None => None
      end
  end.

(** The camera has a positive resolution and the image and path buffers
    have one slot per pixel, as [pathtraceInit] allocates them. *)
Definition session_ok (scene : Scene) (s : Session) : Prop :=
  0 < ix (resolution (camera scene)) /\
  0 < iy (resolution (camera scene)) /\
  List.length (dev_image s) = Z.to_nat (pixelcount (camera scene)) /\
  List.length (dev_paths s) = Z.to_nat (pixelcount (camera scene)).

(* ------------------------------------------------------------------ *)
(** ** Vocabulary of the statements *)

(** A key on which the comparison of two numbers is lexicographic. *)
Definition rank (a : float) : Z * Z * Z :=
  match a with
  | S754_nan => (0, 0, 0)
  | S754_zero _ => (0, 0, 0)
  | S754_infinity true => (-2, 0, 0)
  | S754_infinity false => (2, 0, 0)
  | S754_finite false m e => (1, e, Z.pos m)
  | S754_finite true m e => (-1, - e, Z.neg m)
  end.

Definition lexlt (p q : Z * Z * Z) : Prop :=
  let '(a, b, c) := p in
  let '(a', b', c') := q in
  a < a' \/ (a = a' /\ (b < b' \/ (b = b' /\ c < c'))).

(** What the non-emissive branch does with the segment [scatterRay]
    returned. *)
Definition after_scatter (seg : PathSegment) : PathSegment :=
  let seg := set_remainingBounces seg (to_int (remainingBounces seg - 1)) in
  if remainingBounces seg <=? 0 then set_color seg (ambient seg) else seg.

(** The result of testing one geometry record against a ray, with the
    output references starting from zero vectors, and its return value. *)
Definition geom_hit (triangles : list Triangle) (r : Ray) (geom : Geom)
  : TestResult :=
  geom_test triangles geom r vec3_0 vec3_0.
Definition geom_t (triangles : list Triangle) (r : Ray) (geom : Geom) : float :=
  ret (geom_hit triangles r geom).

(** A return value that can replace the initial [t_min = FLT_MAX]:
    [t > 0.0f && FLT_MAX > t]. *)
Definition candidate (a : float) : bool := gt a zero && gt FLT_MAX a.

(** What [glm::intersectRayTriangle] reports for triangle [i]. *)
Definition tri_hit (rt : Ray) (triangles : list Triangle) (i : Z)
  : option vec3 :=
  let tri := triangle_at triangles i in
  intersectRayTriangle (origin rt) (direction rt) (p1 tri) (p2 tri) (p3 tri).

(** The acceptance test of [boxIntersectionTest]:
    [tmax >= tmin && tmax > 0]. *)
Definition box_accepts (st : Slab) : bool :=
  ge (tmax st) (tmin st) && gt (tmax st) zero.

(** The world-space point of the box at object-space parameter [a], and the
    world-space normal for the object-space axis normal [n]. *)
Definition box_hit_point (box : Geom) (r : Ray) (a : float) : vec3 :=
  let ip := multiplyMV (transform box)
                       (to_vec4 (getPointOnRay (box_ray box r) a) one) in
  if moving box then vadd ip (motion box r) else ip.
Definition box_hit_normal (box : Geom) (n : vec3) : vec3 :=
  normalize (multiplyMV (invTranspose box) (to_vec4 n zero)).

(** The world-space point of the sphere at object-space parameter [a]. *)
Definition sphere_hit_point (sphere : Geom) (r : Ray) (a : float) : vec3 :=
  let ip := multiplyMV (transform sphere)
              (to_vec4 (getPointOnRay (object_ray sphere r) a) one) in
  if moving sphere then vadd ip (motion sphere r) else ip.

(** The four components of what [trace_round] returns. *)
Definition round_paths
    (rd : list PathSegment * list ShadeableIntersection * Z * bool)
  : list PathSegment := fst (fst (fst rd)).
Definition round_isects
    (rd : list PathSegment * list ShadeableIntersection * Z * bool)
  : list ShadeableIntersection := snd (fst (fst rd)).
Definition round_remaining
    (rd : list PathSegment * list ShadeableIntersection * Z * bool) : Z :=
  snd (fst rd).
Definition round_complete
    (rd : list PathSegment * list ShadeableIntersection * Z * bool) : bool :=
  snd rd.

(** The primary segment [generateRayFromCamera] writes into slot [i]. *)
Definition primary (cam : Camera) (traceDepth : Z) (i : nat)
    (segment : PathSegment) : PathSegment :=
  generate_thread cam traceDepth
                  (Z.of_nat i mod ix (resolution cam))
                  (Z.of_nat i / ix (resolution cam)) segment.

(** The path of an array that owns pixel [p]: the first one whose
    [pixelIndex] is [p]. *)
Definition owner (paths : list PathSegment) (p : Z) : option PathSegment :=
  List.find (fun seg => pixelIndex seg =? p) paths.

(** The pixel indices of an image of [n] pixels. *)
Definition pixels (n : nat) : list Z := map Z.of_nat (seq 0 n).

(** The final colour of the path owning pixel [p] in call [k] of a run
    that starts from session [s0], and these colours for calls 1..N. *)
Definition owner_color (paths : list PathSegment) (p : Z) : vec3 :=
  match owner paths p with Some seg => color seg | None => vec3_0 end.

Definition iteration_color (scene : Scene) (s0 : Session) (k : nat) (p : Z)
  : vec3 :=
  match render k scene s0 with
  | Some s => owner_color (dev_paths s) p
  | None => vec3_0
  end.

Definition iteration_colors (scene : Scene) (s0 : Session) (N : nat) (p : Z)
  : list vec3 :=
  map (fun k => iteration_color scene s0 k p) (seq 1 N).

(** The direction of the primary ray through pixel slot [i]; it depends on
    the camera only. *)
Definition primary_direction (cam : Camera) (i : nat) : vec3 :=
  direction (ray (primary cam 0 i (mkPath (mkRay vec3_0 vec3_0 zero)
                                          vec3_0 0 0))).

(** A test either reports [-1] and leaves its output references alone, or
    writes a result that does not depend on what they held. *)
Definition test_shape (f : vec3 -> vec3 -> TestResult) : Prop :=
  (forall a b, f a b = mkResult minus_one a b) \/
  (forall a b, f a b = f vec3_0 vec3_0).

(** The four locals of a [computeIntersections] thread that survive its
    loop are the same in two states. *)
Definition kept (st st' : Nearest) : Prop :=
  near_t_min st' = near_t_min st /\
  hit_geom_index st' = hit_geom_index st /\
  intersect_point st' = intersect_point st /\
  near_normal st' = near_normal st.

(** The word [makeSeededRandomEngine] hashes for an iteration and a depth:
    [(1 << 31) | (depth << 22) | iter], as an [unsigned int]. *)
Definition seed_word (iter depth : Z) : Z :=
  to_uint (Z.lor (Z.lor (to_int (Z.shiftl 1 31)) (to_int (Z.shiftl depth 22)))
                 iter).

(** The path array and [remaining_paths] at the start of turn [d] of the
    depth loop: [d] turns applied to what the loop starts from. *)
Fixpoint turn_state (scene : Scene) (iter : Z) (d : nat)
    (paths : list PathSegment) (remaining_paths : Z)
  : list PathSegment * Z :=
  match d with
  | O => (paths, remaining_paths)
  | S d' =>
      let st := turn_state scene iter d' paths remaining_paths in
      let rd := trace_round scene iter (Z.of_nat d') (snd st) (fst st) in
      (round_paths rd, round_remaining rd)
  end.

(** The path array [shadeBSDFMaterial] is given in turn [d] of a call of
    [pathtrace] on session [s]. *)
Definition turn_paths (scene : Scene) (iter : Z) (s : Session) (d : nat)
  : list PathSegment :=
  fst (turn_state scene iter d
         (generateRayFromCamera (camera scene) iter (traceDepth scene)
                                (dev_paths s))
         (pixelcount (camera scene))).

(* ------------------------------------------------------------------ *)
(** ** Properties *)

(** *** The order of [float] *)

Lemma lt_rank (a b : float) :
  lt a b = true <->
  is_nan a = false /\ is_nan b = false /\ lexlt (rank a) (rank b).
Proof.
  unfold lt, SFltb, SFcompare.
  destruct a as [sa|sa| |sa ma ea], b as [sb|sb| |sb mb eb]; simpl;
    try destruct sa; try destruct sb; simpl;
    try (split; [discriminate | intros (? & ? & ?); (discriminate || lia)]);
    try (split; [intros _; repeat split; lia | reflexivity]).
  - destruct (Z.compare_spec ea eb) as [He|He|He];
      [ change (Pos.compare_cont Eq ma mb) with (Pos.compare ma mb);
        destruct (Pos.compare_spec ma mb) as [Hm|Hm|Hm] | | ]; simpl;
      (split; [ (discriminate || (intros _; repeat split; lia))
              | (intros (_ & _ & H); (reflexivity || lia)) ]).
  - destruct (Z.compare_spec ea eb) as [He|He|He];
      [ change (Pos.compare_cont Eq ma mb) with (Pos.compare ma mb);
        destruct (Pos.compare_spec ma mb) as [Hm|Hm|Hm] | | ]; simpl;
      (split; [ (discriminate || (intros _; repeat split; lia))
              | (intros (_ & _ & H); (reflexivity || lia)) ]).
Qed.

Lemma lt_trans (a b c : float) :
  lt a b = true -> lt b c = true -> lt a c = true.
Proof.
  rewrite !lt_rank. intros (Ha & _ & Hab) (_ & Hc & Hbc).
  repeat split; try assumption.
  unfold lexlt in *.
  destruct (rank a) as [[a1 a2] a3], (rank b) as [[b1 b2] b3],
           (rank c) as [[c1 c2] c3]. lia.
Qed.

Lemma lt_irrefl (a : float) : lt a a = false.
Proof.
  destruct (lt a a) eqn:E; [|reflexivity].
  apply lt_rank in E. destruct E as (_ & _ & E).
  unfold lexlt in E. destruct (rank a) as [[a1 a2] a3]. lia.
Qed.

Lemma lt_nan_l (b : float) : lt S754_nan b = false.
Proof. reflexivity. Qed.

Lemma lt_nan_r (a : float) : lt a S754_nan = false.
Proof. destruct a as [[]|[]| |[] ? ?]; reflexivity. Qed.

Lemma is_nan_true (a : float) : is_nan a = true -> a = S754_nan.
Proof. destruct a; simpl; congruence. Qed.

Lemma lt_not_nan (a b : float) :
  lt a b = true -> is_nan a = false /\ is_nan b = false.
Proof. rewrite lt_rank. intros (Ha & Hb & _). split; assumption. Qed.

Lemma compare_antisym (a b : float) :
  SFcompare b a = option_map CompOpp (SFcompare a b).
Proof.
  unfold SFcompare.
  destruct a as [sa|sa| |sa ma ea], b as [sb|sb| |sb mb eb]; simpl;
    try destruct sa; try destruct sb; simpl; try reflexivity;
    rewrite (Z.compare_antisym ea eb);
    change (Pos.compare_cont Eq mb ma) with (Pos.compare mb ma);
    change (Pos.compare_cont Eq ma mb) with (Pos.compare ma mb);
    rewrite (Pos.compare_antisym ma mb);
    destruct (ea ?= eb), (Pos.compare ma mb); reflexivity.
Qed.

Lemma compare_not_nan (a b : float) :
  is_nan a = false -> is_nan b = false -> exists c, SFcompare a b = Some c.
Proof.
  unfold SFcompare.
  destruct a as [sa|sa| |sa ma ea], b as [sb|sb| |sb mb eb]; simpl;
    intros; try discriminate; eauto.
Qed.

(** On numbers, [a <= b] is the negation of [b < a]. *)
Lemma le_not_gt (a b : float) :
  is_nan a = false -> is_nan b = false -> le a b = negb (lt b a).
Proof.
  intros Ha Hb. unfold le, lt, SFleb, SFltb.
  rewrite (compare_antisym a b).
  destruct (compare_not_nan a b Ha Hb) as [c ->]. destruct c; reflexivity.
Qed.

Lemma lt_le (a b : float) : lt a b = true -> le a b = true.
Proof.
  unfold lt, le, SFltb, SFleb. destruct (SFcompare a b) as [[]|]; congruence.
Qed.

Lemma le_refl (a : float) : is_nan a = false -> le a a = true.
Proof.
  intros Ha. rewrite le_not_gt by assumption. now rewrite lt_irrefl.
Qed.

(** *** Kernels *)

Lemma kernel_length {A : Type} (n : Z) (body : nat -> A -> A) (l : list A) :
  List.length (kernel n body l) = List.length l.
Proof. unfold kernel. apply length_imap. Qed.

Lemma kernel_lookup {A : Type} (n : Z) (body : nat -> A -> A) (l : list A)
    (i : nat) :
  kernel n body l !! i =
  (fun a => if Z.of_nat i <? n then body i a else a) <$> (l !! i).
Proof. unfold kernel. apply list_lookup_imap. Qed.

Lemma kernel_lookup_Some {A : Type} (n : Z) (body : nat -> A -> A)
    (l : list A) (i : nat) (a : A) :
  l !! i = Some a ->
  kernel n body l !! i = Some (if Z.of_nat i <? n then body i a else a).
Proof. intros H. now rewrite kernel_lookup, H. Qed.

(** *** Shading, one thread *)

Lemma shade_thread_terminated iter materials idx isect seg :
  remainingBounces seg <= 0 ->
  shade_thread iter materials idx isect seg = seg.
Proof.
  intros H. unfold shade_thread.
  destruct (Z.leb_spec (remainingBounces seg) 0); [reflexivity | lia].
Qed.

Lemma shade_thread_emissive iter materials idx isect seg :
  0 < remainingBounces seg ->
  gt (t isect) zero = true ->
  gt (emittance (material_at materials (materialId isect))) zero = true ->
  shade_thread iter materials idx isect seg =
  mkPath (ray seg)
         (vmul (color seg)
               (vscale (mcolor (material_at materials (materialId isect)))
                       (emittance (material_at materials (materialId isect)))))
         (pixelIndex seg) (-1).
Proof.
  intros Hrb Ht He. unfold shade_thread.
  destruct (Z.leb_spec (remainingBounces seg) 0); [lia|].
  rewrite Ht, He.
  destruct (Z.geb_spec (remainingBounces seg) 0); [reflexivity | lia].
Qed.

Lemma shade_thread_miss iter materials idx isect seg :
  0 < remainingBounces seg ->
  gt (t isect) zero = false ->
  shade_thread iter materials idx isect seg =
  mkPath (ray seg) (ambient seg) (pixelIndex seg) 0.
Proof.
  intros Hrb Ht. unfold shade_thread.
  destruct (Z.leb_spec (remainingBounces seg) 0); [lia|].
  now rewrite Ht.
Qed.

Lemma shade_thread_scatter iter materials idx isect seg :
  0 < remainingBounces seg ->
  gt (t isect) zero = true ->
  gt (emittance (material_at materials (materialId isect))) zero = false ->
  shade_thread iter materials idx isect seg =
  after_scatter
    (scatterRay seg (point isect) (surfaceNormal isect)
                (material_at materials (materialId isect))
                (makeSeededRandomEngine iter (Z.of_nat idx)
                                        (remainingBounces seg))).
Proof.
  intros Hrb Ht He. unfold shade_thread, after_scatter, shade_rng.
  destruct (Z.leb_spec (remainingBounces seg) 0); [lia|].
  now rewrite Ht, He.
Qed.

(** *** The nearest hit over the geometry list *)

Lemma gt_minus_one_zero : gt minus_one zero = false.
Proof. reflexivity. Qed.

Lemma boxIntersectionTest_shape box r :
  test_shape (boxIntersectionTest box r).
Proof.
  unfold test_shape, boxIntersectionTest.
  destruct (ge _ _ && gt _ _); [right | left]; reflexivity.
Qed.

Lemma sphereIntersectionTest_shape sphere r :
  test_shape (sphereIntersectionTest sphere r).
Proof.
  unfold test_shape, sphereIntersectionTest.
  destruct (lt (sphere_radicand _) zero); [left; reflexivity|].
  destruct (lt _ zero && lt _ zero); [left; reflexivity|].
  right; reflexivity.
Qed.

Lemma meshIntersectionTest_shape mesh r triangles :
  test_shape (fun a b => meshIntersectionTest mesh r a b triangles).
Proof.
  unfold test_shape, meshIntersectionTest.
  destruct (BOUNDING_BOX_ENABLE && negb _); [left; reflexivity|].
  destruct (minId _ <? 0); [left | right]; reflexivity.
Qed.

Lemma geom_test_shape triangles geom r :
  test_shape (geom_test triangles geom r).
Proof.
  unfold geom_test. destruct (type geom).
  - apply sphereIntersectionTest_shape.
  - apply boxIntersectionTest_shape.
  - apply meshIntersectionTest_shape.
Qed.

Lemma geom_test_ret triangles geom r a b :
  ret (geom_test triangles geom r a b) = geom_t triangles r geom.
Proof.
  unfold geom_t, geom_hit.
  destruct (geom_test_shape triangles geom r) as [H|H].
  - now rewrite (H a b), (H vec3_0 vec3_0).
  - now rewrite (H a b).
Qed.

Lemma geom_test_positive triangles geom r a b :
  gt (geom_t triangles r geom) zero = true ->
  geom_test triangles geom r a b = geom_hit triangles r geom.
Proof.
  unfold geom_t, geom_hit. intros Hpos.
  destruct (geom_test_shape triangles geom r) as [H|H].
  - rewrite (H vec3_0 vec3_0) in Hpos. simpl in Hpos.
    rewrite gt_minus_one_zero in Hpos. discriminate.
  - apply H.
Qed.

(** [a < m] and not [b < m], for a number [b], give [a < b]. *)
Lemma lt_below (a b m : float) :
  lt a m = true -> lt b m = false -> is_nan b = false -> lt a b = true.
Proof.
  intros Ham Hbm Hb.
  assert (Hm : is_nan m = false) by (apply lt_not_nan in Ham; apply Ham).
  apply lt_rank in Ham. destruct Ham as (Ha & _ & Ham).
  apply lt_rank. repeat split; try assumption.
  assert (Hn : ~ lexlt (rank b) (rank m)).
  { intros Hl.
    assert (lt b m = true) by (apply lt_rank; repeat split; assumption).
    congruence. }
  unfold lexlt in *.
  destruct (rank a) as [[a1 a2] a3], (rank b) as [[b1 b2] b3],
           (rank m) as [[m1 m2] m3]. lia.
Qed.

Lemma gt_zero_not_nan (a : float) : gt a zero = true -> is_nan a = false.
Proof. unfold gt. intros H. apply lt_not_nan in H. apply H. Qed.

Section Nearest.

Variable triangles : list Triangle.
Variable r : Ray.

#[local] Abbreviation T := (geom_t triangles r).
#[local] Abbreviation R := (geom_hit triangles r).

Lemma nearest_step_skip st i geom :
  gt (T geom) zero && gt (near_t_min st) (T geom) = false ->
  kept st (nearest_step triangles r st i geom).
Proof.
  intros H. unfold nearest_step. rewrite geom_test_ret, H.
  repeat split.
Qed.

Lemma nearest_step_take st i geom :
  gt (T geom) zero && gt (near_t_min st) (T geom) = true ->
  nearest_step triangles r st i geom =
  mkNearest (T geom) i (intersectionPoint (R geom)) (normal (R geom))
            (intersectionPoint (R geom)) (normal (R geom)).
Proof.
  intros H. unfold nearest_step. rewrite geom_test_ret, H.
  apply andb_prop in H. destruct H as [Hpos _].
  now rewrite (geom_test_positive _ _ _ _ _ Hpos).
Qed.

(** The loop from index [i] over [gs]: either no record replaces the
    current minimum, or the locals describe the record at some position
    [k], whose [t] is positive, below the starting minimum, not above any
    positive [t] of [gs], and strictly below those before it. *)
Lemma nearest_scan_spec gs : forall i st,
  let st' := nearest_scan triangles r i gs st in
  ((forall geom, geom ∈ gs ->
      gt (T geom) zero && gt (near_t_min st) (T geom) = false) /\
   kept st st')
  \/
  (exists (k : nat) geom,
      gs !! k = Some geom /\
      hit_geom_index st' = i + Z.of_nat k /\
      near_t_min st' = T geom /\
      intersect_point st' = intersectionPoint (R geom) /\
      near_normal st' = normal (R geom) /\
      gt (T geom) zero = true /\
      gt (near_t_min st) (T geom) = true /\
      (forall geom', geom' ∈ gs -> gt (T geom') zero = true ->
         lt (T geom') (T geom) = false) /\
      (forall (j : nat) geom', (j < k)%nat -> gs !! j = Some geom' ->
         gt (T geom') zero = true -> lt (T geom) (T geom') = true)).
Proof.
  induction gs as [|g gs IH]; intros i st; simpl.
  - left. split; [intros geom H; inversion H | repeat split].
  - destruct (gt (T g) zero && gt (near_t_min st) (T g)) eqn:Hc.
    + (* [g] replaces the minimum *)
      rewrite (nearest_step_take _ _ _ Hc).
      apply andb_prop in Hc. destruct Hc as [Hpos Hlt].
      match goal with |- context [nearest_scan _ _ _ gs ?s] =>
        destruct (IH (i + 1) s) as [[Hall Hk] | (k & g' & Hk)]; clear IH
      end; simpl in *.
      * right. exists 0%nat, g. destruct Hk as (-> & -> & -> & ->).
        repeat split; try assumption; try (simpl; lia).
        intros geom' Hin Hpos'. apply elem_of_cons in Hin.
        destruct Hin as [-> | Hin]; [apply lt_irrefl|].
        specialize (Hall _ Hin). rewrite Hpos' in Hall. exact Hall.
      * right. destruct Hk as (Hg' & Hi & Ht & Hp & Hn & Hpos' & Hlt' & Hmin & Hfirst).
        exists (S k), g'. repeat split; try assumption.
        -- rewrite Hi. lia.
        -- unfold gt in *. eapply lt_trans; eassumption.
        -- intros geom' Hin Hposg. apply elem_of_cons in Hin.
           destruct Hin as [-> | Hin]; [|now apply Hmin].
           destruct (lt (T g) (T g')) eqn:E; [|reflexivity].
           unfold gt in Hlt'.
           pose proof (lt_trans _ _ _ E Hlt') as Hc.
           rewrite lt_irrefl in Hc. discriminate.
        -- intros [|j] geom' Hj Hl Hposg; simpl in Hl.
           ++ injection Hl as <-. exact Hlt'.
           ++ apply (Hfirst j); [lia | assumption | assumption].
    + (* [g] is skipped *)
      pose proof (nearest_step_skip st i g Hc) as (Ht0 & Hi0 & Hp0 & Hn0).
      destruct (IH (i + 1) (nearest_step triangles r st i g))
        as [[Hall Hk] | (k & g' & Hk)]; clear IH.
      * left. split.
        -- intros geom Hin. apply elem_of_cons in Hin.
           destruct Hin as [-> | Hin]; [exact Hc|].
           rewrite <- Ht0. now apply Hall.
        -- destruct Hk as (? & ? & ? & ?).
           repeat split; (etransitivity; [eassumption | assumption]).
      * right. destruct Hk as (Hg' & Hi & Ht & Hp & Hn & Hpos' & Hlt' & Hmin & Hfirst).
        rewrite Ht0 in Hlt'.
        exists (S k), g'. repeat split; try assumption.
        -- rewrite Hi. lia.
        -- intros geom' Hin Hposg. apply elem_of_cons in Hin.
           destruct Hin as [-> | Hin]; [|now apply Hmin].
           rewrite Hposg in Hc. simpl in Hc.
           destruct (lt (T g) (T g')) eqn:E; [|reflexivity].
           unfold gt in *.
           pose proof (lt_trans _ _ _ E Hlt') as Hc'.
           unfold lt in *. congruence.
        -- intros [|j] geom' Hj Hl Hposg; simpl in Hl.
           ++ injection Hl as <-. rewrite Hposg in Hc. simpl in Hc.
              unfold gt in *. eapply lt_below; try eassumption.
              now apply gt_zero_not_nan.
           ++ apply (Hfirst j); [lia | assumption | assumption].
Qed.

End Nearest.

Lemma at_index_of_nat {A : Type} (l : list A) (k : nat) :
  at_index l (Z.of_nat k) = l !! k.
Proof.
  unfold at_index. destruct (Z.ltb_spec (Z.of_nat k) 0); [lia|].
  now rewrite Nat2Z.id.
Qed.

(** C6, as amended: a [computeIntersections] thread records the geometry
    record whose returned [t] is the least among the records returning
    [0 < t < FLT_MAX] (the earliest such record when several return that
    [t]), with that record's hit point, normal and material id; its [t] is
    not above any positive [t] of the list.  When no record returns a [t]
    with [0 < t < FLT_MAX], the slot receives [t = -1] and keeps its other
    fields. *)
Theorem nearest_hit_over_geoms (geoms : list Geom) (triangles : list Triangle)
    (pathSegment : PathSegment) (slot : ShadeableIntersection) :
  let r := ray pathSegment in
  let res := intersect_thread geoms triangles pathSegment slot in
  ((forall geom, geom ∈ geoms -> candidate (geom_t triangles r geom) = false) /\
   res = mkIsect minus_one (point slot) (surfaceNormal slot) (materialId slot))
  \/
  (exists (k : nat) geom,
      geoms !! k = Some geom /\
      candidate (geom_t triangles r geom) = true /\
      res = mkIsect (geom_t triangles r geom)
                    (intersectionPoint (geom_hit triangles r geom))
                    (normal (geom_hit triangles r geom))
                    (materialid geom) /\
      (forall geom', geom' ∈ geoms ->
         gt (geom_t triangles r geom') zero = true ->
         lt (geom_t triangles r geom') (geom_t triangles r geom) = false) /\
      (forall (j : nat) geom', (j < k)%nat -> geoms !! j = Some geom' ->
         gt (geom_t triangles r geom') zero = true ->
         lt (geom_t triangles r geom) (geom_t triangles r geom') = true)).
Proof.
  intros r res. subst res. unfold intersect_thread. fold r.
  destruct (nearest_scan_spec triangles r geoms 0 nearest_init)
    as [[Hall (_ & Hi & _ & _)] | (k & g & Hg & Hi & Ht & Hp & Hn & Hpos & Hlt & Hmin & Hfirst)].
  - left. split; [exact Hall|].
    rewrite Hi. reflexivity.
  - right. exists k, g. rewrite Hi, Ht, Hp, Hn.
    destruct (Z.eqb_spec (0 + Z.of_nat k) (-1)) as [E|_]; [lia|].
    unfold geom_at. replace (0 + Z.of_nat k) with (Z.of_nat k) by lia.
    rewrite at_index_of_nat, Hg. simpl.
    repeat split; try assumption.
    unfold candidate. rewrite Hpos. exact Hlt.
Qed.

(** *** The triangle loop of the mesh test *)

Section MeshScan.

Variable rt : Ray.
Variable triangles : list Triangle.

Lemma mesh_step_skip st i :
  (forall tvec, tri_hit rt triangles i = Some tvec ->
     gt (z tvec) zero && gt (t_min st) (z tvec) = false) ->
  mesh_step rt triangles st i = st.
Proof.
  unfold mesh_step, tri_hit. intros H.
  destruct (intersectRayTriangle _ _ _ _ _) as [tvec|]; [|reflexivity].
  now rewrite (H tvec eq_refl).
Qed.

Lemma mesh_step_take st i tvec :
  tri_hit rt triangles i = Some tvec ->
  gt (z tvec) zero && gt (t_min st) (z tvec) = true ->
  mesh_step rt triangles st i = mkScan (z tvec) i tvec.
Proof.
  unfold mesh_step, tri_hit. intros -> H. now rewrite H.
Qed.

(** The loop over [n] triangles from index [i]: either the state is
    untouched, or it holds the index and the output vector [tvec] of one
    triangle of the range, [t_min] is that vector's third component, and no
    positive third component in the range is below it. *)
Lemma mesh_scan_spec n : forall i st,
  let st' := mesh_scan rt triangles n i st in
  (st' = st /\
   forall (k : nat) tvec, (k < n)%nat ->
     tri_hit rt triangles (i + Z.of_nat k) = Some tvec ->
     gt (z tvec) zero && gt (t_min st) (z tvec) = false)
  \/
  (exists (k : nat) tvec,
      (k < n)%nat /\
      tri_hit rt triangles (i + Z.of_nat k) = Some tvec /\
      st' = mkScan (z tvec) (i + Z.of_nat k) tvec /\
      gt (z tvec) zero = true /\
      gt (t_min st) (z tvec) = true /\
      forall (j : nat) tvec', (j < n)%nat ->
        tri_hit rt triangles (i + Z.of_nat j) = Some tvec' ->
        gt (z tvec') zero = true -> lt (z tvec') (z tvec) = false).
Proof.
  induction n as [|n IH]; intros i st; simpl.
  - left. split; [reflexivity | intros; lia].
  - destruct (tri_hit rt triangles i) as [tv|] eqn:Hi.
    2:{ rewrite mesh_step_skip by (intros ? ?; congruence).
        destruct (IH (i + 1) st) as [[-> Hall] | (k & tvec & Hk & Hh & -> & Hpos & Hlt & Hmin)].
        - left. split; [reflexivity|].
          intros [|k] tvec Hk Hh.
          + replace (i + Z.of_nat 0) with i in Hh by lia. congruence.
          + apply (Hall k); [lia|].
            now replace (i + 1 + Z.of_nat k) with (i + Z.of_nat (S k)) by lia.
        - right. exists (S k), tvec.
          replace (i + Z.of_nat (S k)) with (i + 1 + Z.of_nat k) by lia.
          repeat split; try assumption; try lia.
          intros [|j] tvec' Hj Hh'.
          + replace (i + Z.of_nat 0) with i in Hh' by lia. congruence.
          + apply (Hmin j); [lia|].
            now replace (i + 1 + Z.of_nat j) with (i + Z.of_nat (S j)) by lia. }
    destruct (gt (z tv) zero && gt (t_min st) (z tv)) eqn:Hc.
    + rewrite (mesh_step_take st i tv Hi Hc).
      apply andb_prop in Hc. destruct Hc as [Hpos Hlt].
      destruct (IH (i + 1) (mkScan (z tv) i tv))
        as [[-> Hall] | (k & tvec & Hk & Hh & -> & Hpos' & Hlt' & Hmin)];
        simpl in *.
      * right. exists 0%nat, tv.
        replace (i + Z.of_nat 0) with i by lia.
        repeat split; try assumption; try lia.
        intros [|j] tvec' Hj Hh' Hp'.
        -- replace (i + Z.of_nat 0) with i in Hh' by lia.
           assert (tvec' = tv) as -> by congruence. apply lt_irrefl.
        -- replace (i + Z.of_nat (S j)) with (i + 1 + Z.of_nat j) in Hh' by lia.
           specialize (Hall j tvec' ltac:(lia) Hh').
           rewrite Hp' in Hall. exact Hall.
      * right. exists (S k), tvec.
        replace (i + Z.of_nat (S k)) with (i + 1 + Z.of_nat k) by lia.
        repeat split; try assumption; try lia.
        -- unfold gt in *. eapply lt_trans; eassumption.
        -- intros [|j] tvec' Hj Hh' Hp'.
           ++ replace (i + Z.of_nat 0) with i in Hh' by lia.
              assert (tvec' = tv) as -> by congruence.
              destruct (lt (z tv) (z tvec)) eqn:E; [|reflexivity].
              unfold gt in Hlt'.
              pose proof (lt_trans _ _ _ E Hlt') as Hc.
              rewrite lt_irrefl in Hc. discriminate.
           ++ apply (Hmin j); [lia| |assumption].
              now replace (i + 1 + Z.of_nat j) with (i + Z.of_nat (S j)) by lia.
    + rewrite mesh_step_skip
        by (intros tv' Htv'; assert (tv' = tv) as -> by congruence; exact Hc).
      destruct (IH (i + 1) st)
        as [[-> Hall] | (k & tvec & Hk & Hh & -> & Hpos & Hlt & Hmin)].
      * left. split; [reflexivity|].
        intros [|k] tvec Hk Hh.
        -- replace (i + Z.of_nat 0) with i in Hh by lia.
           assert (tvec = tv) as -> by congruence. exact Hc.
        -- apply (Hall k); [lia|].
           now replace (i + 1 + Z.of_nat k) with (i + Z.of_nat (S k)) by lia.
      * right. exists (S k), tvec.
        replace (i + Z.of_nat (S k)) with (i + 1 + Z.of_nat k) by lia.
        repeat split; try assumption; try lia.
        intros [|j] tvec' Hj Hh' Hp'.
        -- replace (i + Z.of_nat 0) with i in Hh' by lia.
           assert (tvec' = tv) as -> by congruence.
           rewrite Hp' in Hc. simpl in Hc.
           destruct (lt (z tv) (z tvec)) eqn:E; [|reflexivity].
           unfold gt in *.
           pose proof (lt_trans _ _ _ E Hlt) as Hc'.
           unfold lt in *. congruence.
        -- apply (Hmin j); [lia| |assumption].
           now replace (i + 1 + Z.of_nat j) with (i + Z.of_nat (S j)) by lia.
Qed.

End MeshScan.

(** *** The box test *)

Lemma binary_round_aux_sign (m e : Z) (l : location) (m' : positive) (e' : Z) :
  binary_round_aux prec emax false m e l <> S754_finite true m' e'.
Proof.
  unfold binary_round_aux.
  destruct (shr_fexp _ _ _ _ _) as [mrs1 e1].
  destruct (shr_fexp _ _ _ _ _) as [mrs2 e2].
  destruct (shr_m mrs2); try destruct (Z.leb _ _); discriminate.
Qed.

(** A square root is never [-1]. *)
Lemma sqrt_not_minus_one (a : float) : sqrt a <> minus_one.
Proof.
  unfold sqrt, SFsqrt.
  destruct a as [[]|[]| |[] m e]; try discriminate.
  destruct (SFsqrt_core_binary _ _ _ _) as [[mz ez] lz].
  apply binary_round_aux_sign.
Qed.

Lemma box_axis_nan_ta q st xyz :
  is_nan (slab_ta q xyz) = true ->
  tmin (box_axis q st xyz) = tmin st /\ tmin_n (box_axis q st xyz) = tmin_n st.
Proof.
  intros H. apply is_nan_true in H. unfold box_axis. rewrite H.
  unfold gt at 1. rewrite lt_nan_r. simpl.
  destruct (lt _ _); split; reflexivity.
Qed.

Lemma box_axis_nan_tb q st xyz :
  is_nan (slab_tb q xyz) = true ->
  tmax (box_axis q st xyz) = tmax st /\ tmax_n (box_axis q st xyz) = tmax_n st.
Proof.
  intros H. apply is_nan_true in H. unfold box_axis. rewrite H.
  rewrite lt_nan_l.
  destruct (gt _ _ && gt _ _); split; reflexivity.
Qed.

Lemma box_axis_not_nan q st xyz :
  is_nan (tmin st) = false -> is_nan (tmax st) = false ->
  is_nan (tmin (box_axis q st xyz)) = false /\
  is_nan (tmax (box_axis q st xyz)) = false.
Proof.
  intros Hmin Hmax. unfold box_axis.
  destruct (gt (slab_ta q xyz) zero && gt (slab_ta q xyz) (tmin st)) eqn:Ha;
    destruct (lt (slab_tb q xyz) _) eqn:Hb; simpl in *;
    try apply andb_prop in Ha;
    repeat match goal with
           | H : _ /\ _ |- _ => destruct H
           | H : gt _ _ = true |- _ => apply lt_not_nan in H
           | H : lt _ _ = true |- _ => apply lt_not_nan in H
           end; split; assumption.
Qed.

Lemma box_slabs_not_nan q :
  is_nan (tmin (box_slabs q)) = false /\ is_nan (tmax (box_slabs q)) = false.
Proof.
  unfold box_slabs.
  assert (H : forall l st,
             is_nan (tmin st) = false /\ is_nan (tmax st) = false ->
             is_nan (tmin (fold_left (box_axis q) l st)) = false /\
             is_nan (tmax (fold_left (box_axis q) l st)) = false).
  { induction l as [|xyz l IH]; intros st [Hmin Hmax]; cbn [fold_left].
    - split; assumption.
    - apply IH. now apply box_axis_not_nan. }
  apply H. split; reflexivity.
Qed.

(** C4: [boxIntersectionTest] accepts exactly when the slab exit [tmax] is
    [>=] the entry [tmin] and [> 0]; an entry [<= 0] is replaced by the exit
    and its normal; on acceptance it returns the distance from the ray
    origin to the world-space hit point, otherwise [-1] (and only then); a
    NaN [ta] or [tb] fails its comparison and leaves [tmin] or [tmax] and
    the normals as they were, so neither is ever NaN. *)
Theorem box_accept_rule (box : Geom) (r : Ray) (ip0 n0 : vec3) :
  let st := box_slabs (box_ray box r) in
  let res := boxIntersectionTest box r ip0 n0 in
  let a := if le (tmin st) zero then tmax st else tmin st in
  let n := if le (tmin st) zero then tmax_n st else tmin_n st in
  res = (if box_accepts st
         then mkResult (length (vsub (origin r) (box_hit_point box r a)))
                       (box_hit_point box r a) (box_hit_normal box n)
         else mkResult minus_one ip0 n0) /\
  (ret res = minus_one <-> box_accepts st = false) /\
  (forall q st0 xyz,
      (is_nan (slab_ta q xyz) = true ->
       tmin (box_axis q st0 xyz) = tmin st0 /\
       tmin_n (box_axis q st0 xyz) = tmin_n st0) /\
      (is_nan (slab_tb q xyz) = true ->
       tmax (box_axis q st0 xyz) = tmax st0 /\
       tmax_n (box_axis q st0 xyz) = tmax_n st0)) /\
  is_nan (tmin st) = false /\ is_nan (tmax st) = false.
Proof.
  intros st res a n.
  assert (Hres : res = (if box_accepts st
         then mkResult (length (vsub (origin r) (box_hit_point box r a)))
                       (box_hit_point box r a) (box_hit_normal box n)
         else mkResult minus_one ip0 n0)).
  { subst res a n. unfold boxIntersectionTest, box_accepts,
      box_hit_point, box_hit_normal. fold st.
    destruct (ge (tmax st) (tmin st) && gt (tmax st) zero); [|reflexivity].
    destruct (le (tmin st) zero); reflexivity. }
  split; [exact Hres|]. split.
  - rewrite Hres. destruct (box_accepts st); simpl.
    + split; [|discriminate]. intros H. now apply sqrt_not_minus_one in H.
    + split; reflexivity.
  - split.
    + intros q st0 xyz. split; [apply box_axis_nan_ta | apply box_axis_nan_tb].
    + apply box_slabs_not_nan.
Qed.

(** *** The sphere test *)

Lemma fminf_smaller (a b : float) :
  is_nan a = false -> is_nan b = false ->
  le (fminf a b) a = true /\ le (fminf a b) b = true /\
  (fminf a b = a \/ fminf a b = b).
Proof.
  intros Ha Hb. unfold fminf. rewrite Ha, Hb.
  destruct (lt b a) eqn:E.
  - repeat split; [now apply lt_le | now apply le_refl | now right].
  - repeat split; [now apply le_refl | | now left].
    rewrite le_not_gt by assumption. now rewrite E.
Qed.

Lemma fmaxf_larger (a b : float) :
  is_nan a = false -> is_nan b = false ->
  le a (fmaxf a b) = true /\ le b (fmaxf a b) = true /\
  (fmaxf a b = a \/ fmaxf a b = b).
Proof.
  intros Ha Hb. unfold fmaxf. rewrite Ha, Hb.
  destruct (lt a b) eqn:E.
  - repeat split; [now apply lt_le | now apply le_refl | now right].
  - repeat split; [now apply le_refl | | now left].
    rewrite le_not_gt by assumption. now rewrite E.
Qed.

Lemma sphere_hit_ret sphere r a :
  sphere_hit sphere r (object_ray sphere r) a =
  mkResult (length (vsub (origin r) (sphere_hit_point sphere r a)))
           (sphere_hit_point sphere r a)
           (normalize (multiplyMV (invTranspose sphere)
                        (to_vec4 (getPointOnRay (object_ray sphere r) a) zero))).
Proof. unfold sphere_hit, sphere_hit_point. reflexivity. Qed.

(** C5: [sphereIntersectionTest] returns [-1] when the radicand is negative
    or both roots are negative; with both roots positive it takes the
    smaller one, otherwise the larger one; on a hit it returns the distance
    from the ray origin to the world-space hit point. *)
Theorem sphere_root_rule (sphere : Geom) (r : Ray) (ip0 n0 : vec3) :
  let rt := object_ray sphere r in
  let t1 := sphere_t1 rt in
  let t2 := sphere_t2 rt in
  let res := sphereIntersectionTest sphere r ip0 n0 in
  let hit a := mkResult (length (vsub (origin r) (sphere_hit_point sphere r a)))
                 (sphere_hit_point sphere r a)
                 (normalize (multiplyMV (invTranspose sphere)
                               (to_vec4 (getPointOnRay rt a) zero))) in
  (lt (sphere_radicand rt) zero = true -> res = mkResult minus_one ip0 n0) /\
  (lt (sphere_radicand rt) zero = false ->
   lt t1 zero && lt t2 zero = true -> res = mkResult minus_one ip0 n0) /\
  (lt (sphere_radicand rt) zero = false ->
   gt t1 zero && gt t2 zero = true ->
   res = hit (fminf t1 t2) /\
   le (fminf t1 t2) t1 = true /\ le (fminf t1 t2) t2 = true /\
   (fminf t1 t2 = t1 \/ fminf t1 t2 = t2)) /\
  (lt (sphere_radicand rt) zero = false ->
   lt t1 zero && lt t2 zero = false ->
   gt t1 zero && gt t2 zero = false ->
   res = hit (fmaxf t1 t2) /\
   (is_nan t1 = false -> is_nan t2 = false ->
    le t1 (fmaxf t1 t2) = true /\ le t2 (fmaxf t1 t2) = true /\
    (fmaxf t1 t2 = t1 \/ fmaxf t1 t2 = t2))).
Proof.
  intros rt t1 t2 res hit. subst res.
  unfold sphereIntersectionTest. fold rt. fold t1. fold t2.
  split; [|split; [|split]].
  - intros ->. reflexivity.
  - intros -> ->. reflexivity.
  - intros -> H.
    assert (Hn : lt t1 zero && lt t2 zero = false).
    { destruct (lt t1 zero && lt t2 zero) eqn:Hn; [|reflexivity].
      apply andb_prop in Hn, H. destruct Hn as [Hn _], H as [H _].
      unfold gt in H. pose proof (lt_trans _ _ _ Hn H) as Hc.
      rewrite lt_irrefl in Hc. discriminate. }
    rewrite Hn, H. split; [subst hit rt; apply sphere_hit_ret|].
    apply andb_prop in H. destruct H as [Ha Hb].
    apply fminf_smaller; now apply gt_zero_not_nan.
  - intros -> -> ->. split; [subst hit rt; apply sphere_hit_ret|].
    intros Ha Hb. now apply fmaxf_larger.
Qed.

(** *** Stream compaction *)

Lemma filter_all {A : Type} (f : A -> bool) (l : list A) :
  Forall (fun a => f a = true) l -> List.filter f l = l.
Proof.
  induction 1 as [|a l Ha _ IH]; simpl; [reflexivity|].
  now rewrite Ha, IH.
Qed.

Lemma filter_none {A : Type} (f : A -> bool) (l : list A) :
  Forall (fun a => f a = false) l -> List.filter f l = [].
Proof.
  induction 1 as [|a l Ha _ IH]; simpl; [reflexivity|].
  now rewrite Ha, IH.
Qed.

Lemma filter_split_perm {A : Type} (f : A -> bool) (l : list A) :
  List.filter f l ++ List.filter (fun a => negb (f a)) l ≡ₚ l.
Proof.
  induction l as [|a l IH]; simpl; [reflexivity|].
  destruct (f a); simpl.
  - now rewrite IH.
  - rewrite <- Permutation_middle. now rewrite IH.
Qed.

Lemma filter_split_length {A : Type} (f : A -> bool) (l : list A) :
  List.length (List.filter f l ++ List.filter (fun a => negb (f a)) l)
  = List.length l.
Proof. now rewrite (filter_split_perm f l). Qed.

Lemma filter_true {A : Type} (f : A -> bool) (l : list A) :
  Forall (fun a => f a = true) (List.filter f l).
Proof.
  apply Forall_forall. intros a Ha. apply list_elem_of_In in Ha.
  apply filter_In in Ha. apply Ha.
Qed.

Lemma is_zero_true (p : PathSegment) :
  is_zero p = true <-> 0 < remainingBounces p.
Proof. unfold is_zero. apply Z.ltb_lt. Qed.

Lemma is_zero_false (p : PathSegment) :
  is_zero p = false <-> remainingBounces p <= 0.
Proof. unfold is_zero. rewrite Z.ltb_ge. reflexivity. Qed.

(** A front of the right length put back before the untouched tail. *)
Lemma front_tail {A : Type} (front l : list A) (n : nat) :
  List.length front = List.length (take n l) ->
  take n (front ++ drop n l) = front /\ drop n (front ++ drop n l) = drop n l.
Proof.
  intros Hlen. rewrite length_take in Hlen.
  destruct (Nat.le_gt_cases n (List.length l)) as [Hn|Hn].
  - rewrite Nat.min_l in Hlen by assumption.
    split; [now apply take_app_length' | now apply drop_app_length'].
  - rewrite Nat.min_r in Hlen by lia.
    rewrite (drop_ge l n) by lia. rewrite app_nil_r.
    split; [apply take_ge; lia | apply drop_ge; lia].
Qed.

(** C8: compaction rewrites the first [remaining_paths] slots so that the
    active paths come first, in their original order, followed by the
    terminated ones, in their original order; the slots behind stay; the
    array is a permutation of what it was, so every path is still there
    exactly once and the number of active paths is the same; the returned
    count is the number of active paths of the range.  A range that is all
    active or all terminated is left as it is. *)
Theorem compaction_partitions (remaining_paths : Z) (paths : list PathSegment) :
  let n := Z.to_nat remaining_paths in
  let paths' := fst (compact remaining_paths paths) in
  let kept_count := Z.to_nat (snd (compact remaining_paths paths)) in
  take kept_count paths' = List.filter is_zero (take n paths) /\
  drop kept_count (take n paths')
    = List.filter (fun p => negb (is_zero p)) (take n paths) /\
  drop n paths' = drop n paths /\
  Forall (fun p => 0 < remainingBounces p) (take kept_count paths') /\
  Forall (fun p => remainingBounces p <= 0) (drop kept_count (take n paths')) /\
  paths' ≡ₚ paths /\
  List.length (List.filter is_zero paths')
    = List.length (List.filter is_zero paths) /\
  snd (compact remaining_paths paths)
    = Z.of_nat (List.length (List.filter is_zero (take n paths))) /\
  (Forall (fun p => 0 < remainingBounces p) (take n paths) ->
   paths' = paths /\ kept_count = List.length (take n paths)) /\
  (Forall (fun p => remainingBounces p <= 0) (take n paths) ->
   paths' = paths /\ kept_count = 0%nat).
Proof.
  intros n paths' kept_count. subst paths' kept_count.
  unfold compact, stable_partition. fold n. cbn [fst snd].
  rewrite Nat2Z.id.
  set (act := List.filter is_zero (take n paths)).
  set (ter := List.filter (fun p => negb (is_zero p)) (take n paths)).
  assert (Hlen : List.length (act ++ ter) = List.length (take n paths))
    by apply filter_split_length.
  destruct (front_tail (act ++ ter) paths n Hlen) as [Htake Hdrop].
  assert (Hperm : (act ++ ter) ++ drop n paths ≡ₚ paths).
  { subst act ter. rewrite (filter_split_perm is_zero (take n paths)).
    now rewrite take_drop. }
  rewrite Htake.
  split; [rewrite <- app_assoc; apply take_app_length|].
  split; [apply drop_app_length|].
  split; [exact Hdrop|].
  split.
  { rewrite <- app_assoc, take_app_length. subst act.
    eapply Forall_impl; [apply filter_true|].
    intros p Hp. now apply is_zero_true. }
  split.
  { rewrite drop_app_length. subst ter.
    eapply Forall_impl; [apply (filter_true (fun p => negb (is_zero p)))|].
    intros p Hp. cbn beta in Hp. apply negb_true_iff in Hp.
    now apply is_zero_false. }
  split; [exact Hperm|].
  split.
  { apply Permutation_length.
    clear -Hperm. revert Hperm.
    generalize ((act ++ ter) ++ drop n paths). intros l Hl.
    induction Hl as [|a l l' _ IH|a b l|l l' l'' _ IH1 _ IH2]; simpl.
    - reflexivity.
    - destruct (is_zero a); [now apply perm_skip | assumption].
    - destruct (is_zero a), (is_zero b);
        (apply perm_swap || reflexivity).
    - etransitivity; eassumption. }
  split; [reflexivity|].
  split.
  - intros Hall.
    assert (Ha : act = take n paths).
    { subst act. apply filter_all. eapply Forall_impl; [exact Hall|].
      intros p Hp. now apply is_zero_true. }
    assert (Ht : ter = []).
    { subst ter. apply filter_none. eapply Forall_impl; [exact Hall|].
      intros p Hp. cbn beta. apply negb_false_iff. now apply is_zero_true. }
    rewrite Ha, Ht, app_nil_r, take_drop. split; reflexivity.
  - intros Hall.
    assert (Ha : act = []).
    { subst act. apply filter_none. eapply Forall_impl; [exact Hall|].
      intros p Hp. now apply is_zero_false. }
    assert (Ht : ter = take n paths).
    { subst ter. apply filter_all. eapply Forall_impl; [exact Hall|].
      intros p Hp. cbn beta. apply negb_true_iff. now apply is_zero_false. }
    rewrite Ha, Ht. cbn [app]. rewrite take_drop. split; reflexivity.
Qed.

(** *** The depth loop *)

Lemma shade_lookup iter n isects paths materials (i : nat) seg :
  paths !! i = Some seg ->
  shadeBSDFMaterial iter n isects paths materials !! i =
  Some (if Z.of_nat i <? n
        then match isects !! i with
             | Some isect => shade_thread iter materials i isect seg
             | None => seg
             end
        else seg).
Proof.
  intros H. unfold shadeBSDFMaterial.
  exact (kernel_lookup_Some _ _ _ _ _ H).
Qed.

Lemma shade_length iter n isects paths materials :
  List.length (shadeBSDFMaterial iter n isects paths materials)
  = List.length paths.
Proof. apply kernel_length. Qed.

Lemma shade_lookup_terminated iter n isects paths materials (i : nat) seg :
  paths !! i = Some seg -> remainingBounces seg <= 0 ->
  shadeBSDFMaterial iter n isects paths materials !! i = Some seg.
Proof.
  intros H Hrb. rewrite (shade_lookup _ _ _ _ _ _ _ H).
  destruct (Z.of_nat i <? n); [|reflexivity].
  destruct (isects !! i); [|reflexivity].
  now rewrite shade_thread_terminated.
Qed.

Lemma shade_all_terminated iter n isects paths materials :
  Forall (fun p => remainingBounces p <= 0) paths ->
  shadeBSDFMaterial iter n isects paths materials = paths.
Proof.
  intros Hall. apply list_eq. intros i.
  destruct (paths !! i) as [seg|] eqn:E.
  - apply shade_lookup_terminated; [assumption|].
    eapply Forall_lookup_1 in Hall; [|exact E]. exact Hall.
  - apply lookup_ge_None. rewrite shade_length. now apply lookup_ge_None.
Qed.

Lemma compact_perm n paths : fst (compact n paths) ≡ₚ paths.
Proof.
  unfold compact, stable_partition. cbn [fst].
  rewrite (filter_split_perm is_zero (take (Z.to_nat n) paths)).
  now rewrite take_drop.
Qed.

Lemma compact_all_terminated n paths :
  Forall (fun p => remainingBounces p <= 0) (take (Z.to_nat n) paths) ->
  compact n paths = (paths, 0).
Proof.
  intros Hall. unfold compact, stable_partition.
  rewrite (filter_none is_zero (take (Z.to_nat n) paths)).
  2:{ eapply Forall_impl; [exact Hall|]. intros p Hp.
      now apply is_zero_false. }
  rewrite (filter_all (fun p => negb (is_zero p))).
  2:{ eapply Forall_impl; [exact Hall|]. intros p Hp. cbn beta.
      apply negb_true_iff. now apply is_zero_false. }
  cbn [app List.length]. now rewrite take_drop.
Qed.

(** The path array one turn of the loop leaves. *)
Lemma trace_round_paths scene iter depth remaining paths :
  let shaded :=
    shadeBSDFMaterial iter remaining
      (computeIntersections depth remaining paths (geoms scene)
         (replicate (Z.to_nat (pixelcount (camera scene))) zero_intersection)
         (triangles scene))
      paths (materials scene) in
  round_paths (trace_round scene iter depth remaining paths) =
  if STREAM_COMPACTION then fst (compact remaining shaded) else shaded.
Proof.
  unfold trace_round, round_paths. cbn zeta.
  destruct STREAM_COMPACTION; [|reflexivity].
  now destruct (compact _ _).
Qed.

Lemma trace_round_complete scene iter depth remaining paths :
  traceDepth scene <= depth + 1 ->
  round_complete (trace_round scene iter depth remaining paths) = true.
Proof.
  intros H. unfold trace_round, round_complete. cbn zeta.
  assert (E : (depth + 1 >=? traceDepth scene) = true)
    by (apply Z.geb_le; lia).
  rewrite E.
  destruct STREAM_COMPACTION; [|reflexivity].
  now destruct (compact _ _).
Qed.

Lemma trace_loop_step fuel scene iter depth remaining paths :
  trace_loop (S fuel) scene iter depth remaining paths =
  let rd := trace_round scene iter depth remaining paths in
  if round_complete rd then Some (round_paths rd, round_isects rd)
  else trace_loop fuel scene iter (depth + 1) (round_remaining rd)
                  (round_paths rd).
Proof.
  cbn [trace_loop]. unfold round_complete, round_paths, round_isects,
    round_remaining.
  destruct (trace_round scene iter depth remaining paths)
    as [[[ps isx] rem] c]. reflexivity.
Qed.

(** The loop ends within its fuel, and what every turn preserves holds of
    the array it returns. *)
Lemma trace_loop_invariant (Inv : list PathSegment -> Prop) scene iter :
  (forall depth remaining paths,
      Inv paths ->
      Inv (round_paths (trace_round scene iter depth remaining paths))) ->
  forall fuel depth remaining paths,
    (0 < fuel)%nat -> traceDepth scene - depth <= Z.of_nat fuel ->
    Inv paths ->
    exists paths' isects,
      trace_loop fuel scene iter depth remaining paths = Some (paths', isects)
      /\ Inv paths'.
Proof.
  intros Hpres. induction fuel as [|fuel IH]; intros depth remaining paths
    Hfuel Hdepth Hinv; [lia|].
  rewrite trace_loop_step. cbn zeta.
  specialize (Hpres depth remaining paths Hinv).
  destruct (round_complete _) eqn:Hc.
  - eauto.
  - assert (Hlt : depth + 1 < traceDepth scene).
    { destruct (Z.lt_ge_cases (depth + 1) (traceDepth scene)) as [?|Hge];
        [assumption|].
      rewrite trace_round_complete in Hc by lia. discriminate. }
    apply IH; [lia | lia | assumption].
Qed.

(** [pathtrace] always returns: the loop ends within [trace_fuel].  (A
    failed kernel launch, which ends the process, is outside the model.) *)
Lemma pathtrace_returns (scene : Scene) (iter : Z) (s : Session) :
  exists s', pathtrace scene iter s = Some s'.
Proof.
  unfold pathtrace.
  destruct (trace_loop_invariant (fun _ => True) scene iter)
    with (fuel := trace_fuel scene) (depth := 0)
         (remaining := pixelcount (camera scene))
         (paths := generateRayFromCamera (camera scene) iter
                     (traceDepth scene) (dev_paths s))
    as (paths' & isects & -> & _); unfold trace_fuel; try lia; eauto.
Qed.

(** [pathtraceInit] sets up a well-formed session. *)
Lemma pathtraceInit_ok (scene : Scene) :
  0 < ix (resolution (camera scene)) ->
  0 < iy (resolution (camera scene)) ->
  session_ok scene (pathtraceInit scene).
Proof.
  intros Hx Hy. unfold session_ok, pathtraceInit. cbn [dev_image dev_paths].
  rewrite !length_replicate. repeat split; assumption.
Qed.

(** C10: a segment whose [remainingBounces] is [<= 0] is returned unchanged
    by the shading thread, whatever the intersection, the materials and the
    iteration are; through the rest of the depth loop it therefore stays in
    the path array as it is, and with compaction disabled it stays in its
    slot. *)
Theorem terminated_segment_is_frozen (scene : Scene) (iter depth remaining : Z)
    (fuel : nat) (paths : list PathSegment) (i : nat) (s : PathSegment) :
  paths !! i = Some s ->
  remainingBounces s <= 0 ->
  (0 < fuel)%nat ->
  traceDepth scene - depth <= Z.of_nat fuel ->
  (forall iter' materials idx isect,
      shade_thread iter' materials idx isect s = s) /\
  exists paths' isects,
    trace_loop fuel scene iter depth remaining paths = Some (paths', isects) /\
    s ∈ paths' /\
    (STREAM_COMPACTION = false -> paths' !! i = Some s).
Proof.
  intros Hi Hrb Hfuel Hdepth. split.
  - intros. now apply shade_thread_terminated.
  - apply (trace_loop_invariant
             (fun ps => s ∈ ps /\
                        (STREAM_COMPACTION = false -> ps !! i = Some s)));
      try assumption.
    + intros d rem ps [Hin Hpos]. rewrite trace_round_paths. cbn zeta.
      destruct STREAM_COMPACTION.
      * split; [|discriminate].
        rewrite compact_perm.
        apply list_elem_of_lookup in Hin. destruct Hin as [j Hj].
        apply list_elem_of_lookup. exists j.
        now apply shade_lookup_terminated.
      * specialize (Hpos eq_refl).
        assert (Hs : forall isx,
                   shadeBSDFMaterial iter rem isx ps (materials scene) !! i
                   = Some s)
          by (intros; now apply shade_lookup_terminated).
        split; [|intros _; apply Hs].
        apply list_elem_of_lookup. exists i. apply Hs.
    + split; [|intros _; exact Hi].
      apply list_elem_of_lookup. now exists i.
Qed.

(** *** One call of [pathtrace] *)

Lemma generate_length cam iter td paths :
  List.length (generateRayFromCamera cam iter td paths) = List.length paths.
Proof.
  unfold generateRayFromCamera.
  destruct ((0 <? _) && (0 <? _)); [apply kernel_length | reflexivity].
Qed.

Lemma generate_lookup cam iter td paths (i : nat) seg :
  0 < ix (resolution cam) -> 0 < iy (resolution cam) ->
  Z.of_nat i < pixelcount cam ->
  paths !! i = Some seg ->
  generateRayFromCamera cam iter td paths !! i = Some (primary cam td i seg).
Proof.
  intros Hx Hy Hi Hs. unfold generateRayFromCamera.
  apply Z.ltb_lt in Hx, Hy, Hi. rewrite Hx, Hy. cbn [andb].
  rewrite (kernel_lookup_Some _ _ _ _ _ Hs). now rewrite Hi.
Qed.

Lemma primary_pixelIndex cam td (i : nat) seg :
  0 < ix (resolution cam) ->
  pixelIndex (primary cam td i seg) = Z.of_nat i.
Proof.
  intros Hx. unfold primary, generate_thread. cbn [pixelIndex].
  rewrite (Z.div_mod (Z.of_nat i) (ix (resolution cam))) at 3 by lia. lia.
Qed.

Lemma compute_lookup depth rem paths gs tris (npix i : nat) seg :
  Z.of_nat i < rem -> (i < npix)%nat ->
  paths !! i = Some seg ->
  computeIntersections depth rem paths gs
    (replicate npix zero_intersection) tris !! i =
  Some (intersect_thread gs tris seg zero_intersection).
Proof.
  intros Hi Hn Hs. unfold computeIntersections.
  rewrite (kernel_lookup_Some _ _ _ _ zero_intersection)
    by now apply lookup_replicate_2.
  apply Z.ltb_lt in Hi. now rewrite Hi, Hs.
Qed.

(** When the first turn of the loop terminates every path, [pathtrace]
    gathers exactly the array that turn produced. *)
Lemma pathtrace_first_round (scene : Scene) (iter : Z) (s : Session) :
  let n := pixelcount (camera scene) in
  let paths0 := generateRayFromCamera (camera scene) iter (traceDepth scene)
                                      (dev_paths s) in
  let paths1 :=
    shadeBSDFMaterial iter n
      (computeIntersections 0 n paths0 (geoms scene)
         (replicate (Z.to_nat n) zero_intersection) (triangles scene))
      paths0 (materials scene) in
  Forall (fun p => remainingBounces p <= 0) paths1 ->
  exists isects,
    pathtrace scene iter s =
    Some (mkSession (finalGather n (dev_image s) paths1) paths1 isects).
Proof.
  intros n paths0 paths1 Hall.
  assert (Hfrozen : forall d rem,
             round_paths (trace_round scene iter d rem paths1) = paths1).
  { intros d rem. rewrite trace_round_paths. cbn zeta.
    rewrite (shade_all_terminated _ _ _ _ _ Hall).
    destruct STREAM_COMPACTION; [|reflexivity].
    rewrite compact_all_terminated; [reflexivity|].
    now apply Forall_take. }
  assert (Hfirst : round_paths (trace_round scene iter 0 n paths0) = paths1).
  { rewrite trace_round_paths. cbn zeta. fold n. fold paths1.
    destruct STREAM_COMPACTION; [|reflexivity].
    rewrite compact_all_terminated; [reflexivity|].
    now apply Forall_take. }
  unfold pathtrace. fold n. fold paths0. unfold trace_fuel.
  rewrite trace_loop_step. cbn zeta. rewrite Hfirst.
  destruct (round_complete _) eqn:Hc.
  - eauto.
  - assert (Hlt : 1 < traceDepth scene).
    { destruct (Z.lt_ge_cases 1 (traceDepth scene)) as [?|Hge]; [assumption|].
      rewrite trace_round_complete in Hc by lia. discriminate. }
    destruct (trace_loop_invariant (fun ps => ps = paths1) scene iter)
      with (fuel := Z.to_nat (traceDepth scene)) (depth := 0 + 1)
           (remaining := round_remaining (trace_round scene iter 0 n paths0))
           (paths := paths1)
      as (paths' & isects & -> & ->); try lia; eauto.
    intros d rem ps ->. apply Hfrozen.
Qed.

(** *** The final gather *)

Lemma owner_None paths (p : Z) :
  p ∉ map pixelIndex paths -> owner paths p = None.
Proof.
  unfold owner. induction paths as [|s paths IH]; intros Hp; simpl;
    [reflexivity|].
  simpl in Hp. apply not_elem_of_cons in Hp. destruct Hp as [Hne Hp].
  destruct (Z.eqb_spec (pixelIndex s) p); [congruence | now apply IH].
Qed.

Lemma owner_Some paths (p : Z) :
  p ∈ map pixelIndex paths ->
  exists seg, owner paths p = Some seg /\ seg ∈ paths /\ pixelIndex seg = p.
Proof.
  unfold owner. induction paths as [|s paths IH]; intros Hp; simpl in *.
  - inversion Hp.
  - destruct (Z.eqb_spec (pixelIndex s) p) as [E|E].
    + exists s. repeat split; [apply list_elem_of_here | assumption].
    + apply elem_of_cons in Hp. destruct Hp as [Hp|Hp]; [congruence|].
      destruct (IH Hp) as (seg & Hf & Hin & Hpx).
      exists seg. repeat split; try assumption.
      now apply list_elem_of_further.
Qed.

Lemma gather_thread_lookup image seg (p : nat) :
  gather_thread image seg !! p =
  if pixelIndex seg =? Z.of_nat p
  then (fun pix => vadd pix (color seg)) <$> image !! p
  else image !! p.
Proof.
  unfold gather_thread, at_index.
  destruct (Z.eqb_spec (pixelIndex seg) (Z.of_nat p)) as [E|E].
  - rewrite E. destruct (Z.ltb_spec (Z.of_nat p) 0); [lia|].
    rewrite Nat2Z.id.
    destruct (image !! p) as [pix|] eqn:Hp; [|now rewrite Hp].
    cbn [fmap option_fmap option_map].
    apply list_lookup_insert_eq. now apply lookup_lt_Some in Hp.
  - destruct (Z.ltb_spec (pixelIndex seg) 0); [reflexivity|].
    destruct (image !! Z.to_nat (pixelIndex seg)); [|reflexivity].
    apply list_lookup_insert_ne. lia.
Qed.

(** With pairwise distinct pixel indices, the gather adds to pixel [p] the
    colour of the one path that owns it. *)
Lemma gather_fold paths : forall image (p : nat),
  NoDup (map pixelIndex paths) ->
  fold_left gather_thread paths image !! p =
  (fun pix => match owner paths (Z.of_nat p) with
              | Some seg => vadd pix (color seg)
              | None => pix
              end) <$> image !! p.
Proof.
  induction paths as [|s paths IH]; intros image p Hnd; cbn [fold_left].
  - cbn. now destruct (image !! p).
  - cbn [map] in Hnd. apply NoDup_cons in Hnd. destruct Hnd as [Hs Hnd].
    rewrite (IH _ _ Hnd), gather_thread_lookup.
    unfold owner at 2. cbn [List.find]. fold (owner paths (Z.of_nat p)).
    destruct (Z.eqb_spec (pixelIndex s) (Z.of_nat p)) as [E|E].
    + rewrite (owner_None paths (Z.of_nat p)) by now rewrite <- E.
      now destruct (image !! p).
    + reflexivity.
Qed.

Lemma gather_thread_length image seg :
  List.length (gather_thread image seg) = List.length image.
Proof.
  unfold gather_thread. destruct (at_index _ _); [|reflexivity].
  apply length_insert.
Qed.

Lemma finalGather_length n image paths :
  List.length (finalGather n image paths) = List.length image.
Proof.
  unfold finalGather. generalize (take (Z.to_nat n) paths). intros l.
  revert image. induction l as [|seg l IH]; intros image; cbn [fold_left];
    [reflexivity|].
  now rewrite IH, gather_thread_length.
Qed.

Lemma pixels_NoDup (n : nat) : NoDup (pixels n).
Proof.
  unfold pixels. apply NoDup_fmap_2; [|apply NoDup_seq].
  intros a b. apply Nat2Z.inj.
Qed.

Lemma pixels_elem (n p : nat) : (p < n)%nat -> Z.of_nat p ∈ pixels n.
Proof.
  intros Hp. unfold pixels. apply list_elem_of_fmap. exists p.
  split; [reflexivity|]. apply elem_of_seq. lia.
Qed.

Lemma NoDup_map_unique {A B : Type} (f : A -> B) (l : list A) (a b : A) :
  NoDup (map f l) -> a ∈ l -> b ∈ l -> f a = f b -> a = b.
Proof.
  induction l as [|c l IH]; intros Hnd Ha Hb Hf; [inversion Ha|].
  cbn [map] in Hnd. apply NoDup_cons in Hnd. destruct Hnd as [Hc Hnd].
  apply elem_of_cons in Ha, Hb.
  destruct Ha as [-> | Ha], Hb as [-> | Hb]; try reflexivity.
  - exfalso. apply Hc. rewrite Hf. apply list_elem_of_fmap. now exists b.
  - exfalso. apply Hc. rewrite <- Hf. apply list_elem_of_fmap. now exists a.
  - now apply IH.
Qed.

Lemma generate_pixels (scene : Scene) iter (s : Session) :
  session_ok scene s ->
  map pixelIndex
      (generateRayFromCamera (camera scene) iter (traceDepth scene)
                             (dev_paths s))
  = pixels (Z.to_nat (pixelcount (camera scene))).
Proof.
  intros (Hx & Hy & _ & Hlen). apply list_eq. intros i.
  unfold pixels. rewrite !list_lookup_fmap.
  destruct (dev_paths s !! i) as [seg|] eqn:E.
  - assert (Hi : (i < Z.to_nat (pixelcount (camera scene)))%nat)
      by (rewrite <- Hlen; now apply lookup_lt_Some in E).
    rewrite (generate_lookup _ _ _ _ _ seg) by (assumption || lia).
    rewrite lookup_seq_lt by assumption.
    unfold fmap, option_fmap, option_map.
    now rewrite primary_pixelIndex.
  - assert (Hi : (Z.to_nat (pixelcount (camera scene)) <= i)%nat)
      by (rewrite <- Hlen; now apply lookup_ge_None).
    rewrite lookup_seq_ge by assumption.
    rewrite (proj2 (lookup_ge_None _ i)); [reflexivity|].
    rewrite generate_length. lia.
Qed.

(** The image after one call does not enter the paths it traces. *)
Lemma pathtrace_image_free (scene : Scene) iter (s s' : Session) image isx :
  pathtrace scene iter s = Some s' ->
  pathtrace scene iter (mkSession image (dev_paths s) isx) =
  Some (mkSession (finalGather (pixelcount (camera scene)) image
                               (dev_paths s'))
                  (dev_paths s') (dev_intersections s')).
Proof.
  unfold pathtrace. cbn [dev_paths dev_image].
  destruct (trace_loop _ _ _ _ _ _) as [[ps isects]|]; [|discriminate].
  intros [= <-]. reflexivity.
Qed.

(** Adding to a cleared pixel first changes nothing afterwards. *)
Lemma add_zero_absorb (a b : float) :
  add (add zero a) b = add (add zero a) (add zero b).
Proof.
  unfold add, zero.
  destruct a as [[]|[]| |sa ma ea], b as [[]|[]| |sb mb eb]; reflexivity.
Qed.

Lemma vadd_zero_absorb (a b : vec3) :
  vadd (vadd vec3_0 a) b = vadd (vadd vec3_0 a) (vadd vec3_0 b).
Proof.
  unfold vadd, vec3_0. cbn [x y z].
  f_equal; apply add_zero_absorb.
Qed.

Section Accumulation.

(** [scatterRay] samples a new ray and weights the colour; the pixel a path
    belongs to is not its business. *)
Hypothesis scatterRay_pixelIndex : forall seg p n m rng,
  pixelIndex (scatterRay seg p n m rng) = pixelIndex seg.

#[local] Set Default Proof Using "Type scatterRay_pixelIndex".

Lemma shade_thread_pixelIndex iter materials idx isect seg :
  pixelIndex (shade_thread iter materials idx isect seg) = pixelIndex seg.
Proof.
  unfold shade_thread.
  destruct (remainingBounces seg <=? 0); [reflexivity|].
  destruct (gt (t isect) zero); [|reflexivity].
  destruct (gt (emittance _) zero).
  - destruct (remainingBounces seg >=? 0); reflexivity.
  - match goal with |- context [if ?c then _ else _] => destruct c end;
      cbn [pixelIndex set_color set_remainingBounces];
      apply scatterRay_pixelIndex.
Qed.

Lemma shade_pixels iter n isects paths materials :
  map pixelIndex (shadeBSDFMaterial iter n isects paths materials)
  = map pixelIndex paths.
Proof.
  apply list_eq. intros i. rewrite !list_lookup_fmap.
  destruct (paths !! i) as [seg|] eqn:E.
  - rewrite (shade_lookup _ _ _ _ _ _ _ E). cbn.
    destruct (Z.of_nat i <? n); [|reflexivity].
    destruct (isects !! i); [|reflexivity].
    now rewrite shade_thread_pixelIndex.
  - rewrite (proj2 (lookup_ge_None _ i)); [reflexivity|].
    rewrite shade_length. now apply lookup_ge_None.
Qed.

Lemma trace_round_pixels scene iter depth remaining paths :
  map pixelIndex (round_paths (trace_round scene iter depth remaining paths))
  ≡ₚ map pixelIndex paths.
Proof.
  rewrite trace_round_paths. cbn zeta.
  destruct STREAM_COMPACTION.
  - rewrite compact_perm. now rewrite shade_pixels.
  - now rewrite shade_pixels.
Qed.

(** One call of [pathtrace]: it returns, every pixel has exactly one owning
    path in the final array, and the image gains that path's colour at that
    pixel and nothing else. *)
Lemma pathtrace_accumulates (scene : Scene) (iter : Z) (s : Session) :
  session_ok scene s ->
  exists s',
    pathtrace scene iter s = Some s' /\
    session_ok scene s' /\
    forall p : nat, (p < Z.to_nat (pixelcount (camera scene)))%nat ->
      exists seg pix,
        owner (dev_paths s') (Z.of_nat p) = Some seg /\
        seg ∈ dev_paths s' /\
        pixelIndex seg = Z.of_nat p /\
        (forall seg', seg' ∈ dev_paths s' ->
                      pixelIndex seg' = Z.of_nat p -> seg' = seg) /\
        dev_image s !! p = Some pix /\
        dev_image s' !! p = Some (vadd pix (color seg)).
Proof.
  intros Hok. pose proof Hok as (Hx & Hy & Himg & Hlen).
  set (n := Z.to_nat (pixelcount (camera scene))) in *.
  destruct (trace_loop_invariant
              (fun ps => map pixelIndex ps ≡ₚ pixels n /\ List.length ps = n)
              scene iter)
    with (fuel := trace_fuel scene) (depth := 0)
         (remaining := pixelcount (camera scene))
         (paths := generateRayFromCamera (camera scene) iter
                     (traceDepth scene) (dev_paths s))
    as (paths' & isects & Hloop & Hperm & Hlen').
  { intros d rem ps [Hp Hl]. split.
    - now rewrite trace_round_pixels.
    - rewrite trace_round_paths. cbn zeta.
      destruct STREAM_COMPACTION;
        [rewrite (Permutation_length (compact_perm _ _))|];
        now rewrite shade_length. }
  { unfold trace_fuel. lia. }
  { unfold trace_fuel. lia. }
  { split; [now rewrite (generate_pixels scene iter s Hok)|].
    now rewrite generate_length. }
  unfold pathtrace. rewrite Hloop.
  eexists. split; [reflexivity|]. split.
  { split; [exact Hx|]. split; [exact Hy|].
    split; cbn [dev_image dev_paths];
      [rewrite finalGather_length; exact Himg | exact Hlen']. }
  intros p Hp. cbn [dev_image dev_paths].
  assert (Hnd : NoDup (map pixelIndex paths'))
    by (rewrite Hperm; apply pixels_NoDup).
  destruct (owner_Some paths' (Z.of_nat p)) as (seg & Hown & Hin & Hpx).
  { change (Z.of_nat p ∈ pixelIndex <$> paths'). rewrite Hperm.
    now apply pixels_elem. }
  destruct (lookup_lt_is_Some_2 (dev_image s) p) as [pix Hpix];
    [rewrite Himg; exact Hp|].
  exists seg, pix. repeat split; try assumption.
  - intros seg' Hin' Hpx'.
    apply (NoDup_map_unique pixelIndex paths'); congruence.
  - unfold finalGather. rewrite take_ge by (fold n; lia).
    rewrite (gather_fold _ _ _ Hnd), Hpix, Hown. reflexivity.
Qed.

Lemma render_accumulates (scene : Scene) (s0 : Session) :
  session_ok scene s0 ->
  forall N : nat,
  exists sN,
    render N scene s0 = Some sN /\
    session_ok scene sN /\
    forall p : nat, (p < Z.to_nat (pixelcount (camera scene)))%nat ->
      exists pix0,
        dev_image s0 !! p = Some pix0 /\
        dev_image sN !! p =
        Some (fold_left vadd (iteration_colors scene s0 N (Z.of_nat p)) pix0).
Proof.
  intros Hok. induction N as [|N (sN & Hr & HokN & Himg)].
  - exists s0. repeat split; try apply Hok.
    intros p Hp. destruct Hok as (_ & _ & Hlen & _).
    destruct (lookup_lt_is_Some_2 (dev_image s0) p) as [pix Hpix];
      [rewrite Hlen; exact Hp|].
    exists pix. split; [assumption | rewrite Hpix; reflexivity].
  - destruct (pathtrace_accumulates scene (Z.of_nat (S N)) sN HokN)
      as (s' & Hp' & Hok' & Hacc).
    exists s'. split; [cbn [render]; now rewrite Hr|].
    split; [assumption|].
    intros p Hp.
    destruct (Himg p Hp) as (pix0 & H0 & HN).
    destruct (Hacc p Hp) as (seg & pix & Hown & _ & _ & _ & Hpix & Hpix').
    exists pix0. split; [assumption|].
    unfold iteration_colors. rewrite seq_S, map_app, fold_left_app.
    cbn [map fold_left]. fold (iteration_colors scene s0 N (Z.of_nat p)).
    assert (Hc : iteration_color scene s0 (1 + N) (Z.of_nat p) = color seg).
    { unfold iteration_color. cbn [Nat.add render]. rewrite Hr, Hp'.
      unfold owner_color. now rewrite Hown. }
    rewrite Hc, Hpix'. congruence.
Qed.


End Accumulation.

(** *** Scenes whose paths all end in the first turn *)

Lemma primary_fields cam td (i : nat) seg :
  direction (ray (primary cam td i seg)) = primary_direction cam i /\
  color (primary cam td i seg) = mk3 one one one /\
  remainingBounces (primary cam td i seg) = td.
Proof. repeat split. Qed.

(** When every path the first turn produces is terminated and sits in the
    slot of its pixel, the call returns that array and adds each slot's
    colour to its pixel. *)
Lemma pathtrace_one_round (scene : Scene) (iter : Z) (s : Session) :
  let n := pixelcount (camera scene) in
  let paths0 := generateRayFromCamera (camera scene) iter (traceDepth scene)
                                      (dev_paths s) in
  let paths1 :=
    shadeBSDFMaterial iter n
      (computeIntersections 0 n paths0 (geoms scene)
         (replicate (Z.to_nat n) zero_intersection) (triangles scene))
      paths0 (materials scene) in
  session_ok scene s ->
  (forall (i : nat) seg, paths1 !! i = Some seg ->
      remainingBounces seg <= 0 /\ pixelIndex seg = Z.of_nat i) ->
  exists s',
    pathtrace scene iter s = Some s' /\
    dev_paths s' = paths1 /\
    forall (p : nat) seg pix,
      paths1 !! p = Some seg -> dev_image s !! p = Some pix ->
      dev_image s' !! p = Some (vadd pix (color seg)).
Proof.
  intros n paths0 paths1 (Hx & Hy & Himg & Hlen) Hslots.
  assert (Hall : Forall (fun p => remainingBounces p <= 0) paths1).
  { apply Forall_lookup_2. intros i seg Hi. now apply Hslots in Hi. }
  destruct (pathtrace_first_round scene iter s Hall) as [isects Hp].
  eexists. split; [exact Hp|]. split; [reflexivity|].
  intros p seg pix Hseg Hpix. cbn [dev_image].
  assert (Hlen1 : List.length paths1 = Z.to_nat n).
  { subst paths1 paths0. now rewrite shade_length, generate_length. }
  assert (Hpx : map pixelIndex paths1 = pixels (Z.to_nat n)).
  { apply list_eq. intros i. unfold pixels. rewrite !list_lookup_fmap.
    destruct (paths1 !! i) as [si|] eqn:E.
    - rewrite lookup_seq_lt
        by (rewrite <- Hlen1; now apply lookup_lt_Some in E).
      apply Hslots in E. destruct E as [_ E].
      unfold fmap, option_fmap, option_map. now rewrite E.
    - rewrite lookup_seq_ge
        by (rewrite <- Hlen1; now apply lookup_ge_None).
      reflexivity. }
  assert (Hnd : NoDup (map pixelIndex paths1))
    by (rewrite Hpx; apply pixels_NoDup).
  unfold finalGather. subst paths1 paths0 n.
  rewrite take_ge by lia.
  rewrite (gather_fold _ _ _ Hnd), Hpix.
  match type of Hnd with NoDup (map _ ?ps) =>
    destruct (owner_Some ps (Z.of_nat p)) as (seg' & Hown & Hin & Hpx')
  end.
  { apply list_elem_of_fmap. exists seg. split.
    - symmetry. now apply Hslots in Hseg.
    - apply list_elem_of_lookup. now exists p. }
  rewrite Hown.
  assert (seg' = seg) as ->; [|reflexivity].
  eapply (NoDup_map_unique pixelIndex); try eassumption.
  - apply list_elem_of_lookup. now exists p.
  - apply Hslots in Hseg. destruct Hseg as [_ ->]. assumption.
Qed.

(** The first turn, slot by slot. *)
Lemma first_round_lookup (scene : Scene) (iter : Z) (s : Session)
    (i : nat) seg1 :
  let n := pixelcount (camera scene) in
  let paths0 := generateRayFromCamera (camera scene) iter (traceDepth scene)
                                      (dev_paths s) in
  let paths1 :=
    shadeBSDFMaterial iter n
      (computeIntersections 0 n paths0 (geoms scene)
         (replicate (Z.to_nat n) zero_intersection) (triangles scene))
      paths0 (materials scene) in
  session_ok scene s ->
  paths1 !! i = Some seg1 ->
  exists seg,
    dev_paths s !! i = Some seg /\
    (i < Z.to_nat n)%nat /\
    seg1 = shade_thread iter (materials scene) i
             (intersect_thread (geoms scene) (triangles scene)
                (primary (camera scene) (traceDepth scene) i seg)
                zero_intersection)
             (primary (camera scene) (traceDepth scene) i seg).
Proof.
  intros n paths0 paths1 (Hx & Hy & Himg & Hlen) H1.
  assert (Hi : (i < Z.to_nat n)%nat).
  { apply lookup_lt_Some in H1. subst paths1 paths0.
    rewrite shade_length, generate_length in H1. lia. }
  destruct (lookup_lt_is_Some_2 (dev_paths s) i) as [seg Hseg]; [lia|].
  exists seg. split; [assumption|]. split; [assumption|].
  assert (H0 : paths0 !! i = Some (primary (camera scene) (traceDepth scene)
                                           i seg))
    by (apply generate_lookup; (assumption || lia)).
  assert (Hi' : Z.of_nat i < n) by lia.
  subst paths1. rewrite (shade_lookup _ _ _ _ _ _ _ H0) in H1.
  rewrite (compute_lookup _ _ _ _ _ _ _ _ Hi' Hi H0) in H1.
  apply Z.ltb_lt in Hi'. rewrite Hi' in H1. congruence.
Qed.

(** C3: on an active path that hits a material with [emittance > 0],
    shading multiplies the colour by [materialColor * emittance] and sets
    [remainingBounces] to [-1]; [scatterRay] has no part in it.  With one
    white sphere of emittance 5 as the only geometry, hit by every primary
    ray, and a trace depth of at least 1 (so 1 in particular), every call
    leaves every path with the colour (5, 5, 5), whatever the pixel, the
    iteration and the ambient switch, and a cleared image becomes
    (5, 5, 5) everywhere. *)
Theorem emissive_hit_ends_path (scene : Scene) (sphere : Geom) (s : Session) :
  session_ok scene s ->
  geoms scene = [sphere] ->
  type sphere = SPHERE ->
  mcolor (material_at (materials scene) (materialid sphere))
    = mk3 one one one ->
  emittance (material_at (materials scene) (materialid sphere)) = of_int 5 ->
  0 < traceDepth scene ->
  (forall (i : nat) seg, dev_paths s !! i = Some seg ->
      candidate
        (ret (sphereIntersectionTest sphere
                (ray (primary (camera scene) (traceDepth scene) i seg))
                vec3_0 vec3_0)) = true) ->
  (forall iter materials idx isect seg,
      0 < remainingBounces seg ->
      gt (t isect) zero = true ->
      gt (emittance (material_at materials (materialId isect))) zero = true ->
      shade_thread iter materials idx isect seg =
      mkPath (ray seg)
             (vmul (color seg)
                (vscale (mcolor (material_at materials (materialId isect)))
                   (emittance (material_at materials (materialId isect)))))
             (pixelIndex seg) (-1)) /\
  (forall iter : Z,
      exists s',
        pathtrace scene iter s = Some s' /\
        forall p : nat, (p < Z.to_nat (pixelcount (camera scene)))%nat ->
          exists seg,
            dev_paths s' !! p = Some seg /\
            color seg = splat (of_int 5) /\
            pixelIndex seg = Z.of_nat p /\
            remainingBounces seg = -1 /\
            (dev_image s !! p = Some vec3_0 ->
             dev_image s' !! p = Some (splat (of_int 5)))).
Proof.
  intros Hok Hgeoms Htype Hcol Hemit Hdepth Hfill.
  split; [intros; now apply shade_thread_emissive|].
  intros iter.
  assert (Hslot : forall (i : nat) seg1,
    shadeBSDFMaterial iter (pixelcount (camera scene))
      (computeIntersections 0 (pixelcount (camera scene))
         (generateRayFromCamera (camera scene) iter (traceDepth scene)
                                (dev_paths s))
         (geoms scene)
         (replicate (Z.to_nat (pixelcount (camera scene))) zero_intersection)
         (triangles scene))
      (generateRayFromCamera (camera scene) iter (traceDepth scene)
                             (dev_paths s))
      (materials scene) !! i = Some seg1 ->
    exists seg, dev_paths s !! i = Some seg /\
      seg1 = mkPath (ray (primary (camera scene) (traceDepth scene) i seg))
                    (splat (of_int 5)) (Z.of_nat i) (-1)).
  { intros i seg1 H1.
    destruct (first_round_lookup scene iter s i seg1 Hok H1)
      as (seg & Hseg & Hi & ->).
    exists seg. split; [assumption|].
    set (g := primary (camera scene) (traceDepth scene) i seg).
    specialize (Hfill i seg Hseg). fold g in Hfill.
    assert (HT : geom_t (triangles scene) (ray g) sphere
                 = ret (sphereIntersectionTest sphere (ray g) vec3_0 vec3_0))
      by (unfold geom_t, geom_hit, geom_test; now rewrite Htype).
    assert (Hisect :
      intersect_thread (geoms scene) (triangles scene) g zero_intersection
      = mkIsect (geom_t (triangles scene) (ray g) sphere)
          (intersectionPoint (geom_hit (triangles scene) (ray g) sphere))
          (normal (geom_hit (triangles scene) (ray g) sphere))
          (materialid sphere)).
    { unfold intersect_thread. rewrite Hgeoms. cbn [nearest_scan].
      rewrite nearest_step_take
        by (rewrite HT; exact Hfill).
      reflexivity. }
    rewrite Hisect.
    apply andb_prop in Hfill. destruct Hfill as [Hpos _].
    rewrite shade_thread_emissive; cbn [t materialId].
    - rewrite Hcol, Hemit.
      destruct (primary_fields (camera scene) (traceDepth scene) i seg)
        as (_ & Hc & _). fold g in Hc. rewrite Hc.
      subst g. rewrite primary_pixelIndex by apply Hok.
      reflexivity.
    - destruct (primary_fields (camera scene) (traceDepth scene) i seg)
        as (_ & _ & Hr). fold g in Hr. now rewrite Hr.
    - now rewrite HT.
    - rewrite Hemit. reflexivity. }
  destruct (pathtrace_one_round scene iter s Hok) as (s' & Hp & Hpaths & Himg).
  { intros i seg1 H1. destruct (Hslot i seg1 H1) as (seg & _ & ->).
    cbn [remainingBounces pixelIndex]. split; [lia | reflexivity]. }
  exists s'. split; [assumption|].
  intros p Hp'.
  destruct (lookup_lt_is_Some_2 (dev_paths s') p) as [seg1 Hseg1].
  { rewrite Hpaths, shade_length, generate_length.
    destruct Hok as (_ & _ & _ & ->). exact Hp'. }
  pose proof Hseg1 as Hseg1'. rewrite Hpaths in Hseg1'.
  destruct (Hslot p seg1 Hseg1') as (seg & _ & Heq).
  exists seg1. split; [assumption|]. subst seg1.
  cbn [color pixelIndex remainingBounces].
  repeat split.
  intros Hz. rewrite (Himg p _ vec3_0 Hseg1' Hz). reflexivity.
Qed.

(** C7, as amended: an active path shaded on a miss has its colour
    multiplied by the sky gradient of its ray direction when ambient
    lighting is enabled and set to zero otherwise, and its
    [remainingBounces] set to 0; a non-emissive hit whose decrement brings
    [remainingBounces] to 0 or below gets the same treatment on the
    scattered segment.  The gradient is
    [(1 - t) * (1, 1, 1) + t * (0.5, 0.7, 1.0)] with
    [t = 0.5 * (normalize(direction).y + 1.0)]: it depends on the elevation
    only, is white straight down and (0.5, 0.7, 1.0) straight up.  In a
    scene without geometry and with a trace depth of at least 1, every call
    returns, and leaves in slot [p] the colour white times the gradient of
    the primary direction of [p] (zero without ambient lighting), which
    depends on neither the iteration nor the session, and adds it to the
    image.  With a trace depth of 0 or less no path is ever shaded: whatever
    the scene, every path keeps white and every pixel gains white. *)
Theorem miss_takes_sky :
  (forall iter materials idx isect seg,
      0 < remainingBounces seg ->
      gt (t isect) zero = false ->
      shade_thread iter materials idx isect seg =
      mkPath (ray seg)
             (if AMBIENT_LIGHT_ENABLE
              then vmul (color seg) (sky (direction (ray seg)))
              else splat zero)
             (pixelIndex seg) 0) /\
  (forall iter materials idx isect seg,
      0 < remainingBounces seg ->
      gt (t isect) zero = true ->
      gt (emittance (material_at materials (materialId isect))) zero = false ->
      let seg1 := scatterRay seg (point isect) (surfaceNormal isect)
                    (material_at materials (materialId isect))
                    (makeSeededRandomEngine iter (Z.of_nat idx)
                                            (remainingBounces seg)) in
      to_int (remainingBounces seg1 - 1) <= 0 ->
      shade_thread iter materials idx isect seg =
      mkPath (ray seg1)
             (if AMBIENT_LIGHT_ENABLE
              then vmul (color seg1) (sky (direction (ray seg1)))
              else splat zero)
             (pixelIndex seg1) (to_int (remainingBounces seg1 - 1))) /\
  (forall (scene : Scene) (s : Session),
      session_ok scene s ->
      geoms scene = [] ->
      0 < traceDepth scene ->
      forall iter : Z,
      exists s',
        pathtrace scene iter s = Some s' /\
        forall p : nat, (p < Z.to_nat (pixelcount (camera scene)))%nat ->
          exists seg pix,
            dev_paths s' !! p = Some seg /\
            color seg =
              (if AMBIENT_LIGHT_ENABLE
               then vmul (mk3 one one one)
                         (sky (primary_direction (camera scene) p))
               else splat zero) /\
            remainingBounces seg = 0 /\
            dev_image s !! p = Some pix /\
            dev_image s' !! p = Some (vadd pix (color seg))) /\
  (forall dir : vec3,
      let t := F64.to_float
                 (F64.mul F64.half
                    (F64.add (F64.of_float (y (normalize dir))) F64.one)) in
      sky dir =
      mk3 (add (mul (sub one t) one) (mul t half))
          (add (mul (sub one t) one)
               (mul t (F64.to_float F64.seven_tenths)))
          (add (mul (sub one t) one) (mul t one))) /\
  (forall dir dir' : vec3,
      y (normalize dir) = y (normalize dir') -> sky dir = sky dir') /\
  sky (mk3 zero minus_one zero) = mk3 one one one /\
  sky (mk3 zero one zero) = mk3 half (F64.to_float F64.seven_tenths) one /\
  sky (mk3 one zero zero) <> sky (mk3 zero one zero) /\
  (forall (scene : Scene) (s : Session),
      session_ok scene s ->
      traceDepth scene <= 0 ->
      forall iter : Z,
      exists s',
        pathtrace scene iter s = Some s' /\
        forall p : nat, (p < Z.to_nat (pixelcount (camera scene)))%nat ->
          exists seg pix,
            dev_paths s' !! p = Some seg /\
            color seg = mk3 one one one /\
            remainingBounces seg = traceDepth scene /\
            dev_image s !! p = Some pix /\
            dev_image s' !! p = Some (vadd pix (mk3 one one one))).
Proof.
  split; [|split; [|split; [|split; [|split; [|split; [|split; [|split]]]]]]].
  - intros. now apply shade_thread_miss.
  - intros iter materials idx isect seg Hrb Ht He seg1 Hdec.
    rewrite shade_thread_scatter by assumption. fold seg1.
    unfold after_scatter. cbn [set_remainingBounces remainingBounces].
    apply Z.leb_le in Hdec. rewrite Hdec. reflexivity.
  - intros scene s Hok Hgeoms Hdepth iter.
    assert (Hslot : forall (i : nat) seg1,
      shadeBSDFMaterial iter (pixelcount (camera scene))
        (computeIntersections 0 (pixelcount (camera scene))
           (generateRayFromCamera (camera scene) iter (traceDepth scene)
                                  (dev_paths s))
           (geoms scene)
           (replicate (Z.to_nat (pixelcount (camera scene)))
                      zero_intersection)
           (triangles scene))
        (generateRayFromCamera (camera scene) iter (traceDepth scene)
                               (dev_paths s))
        (materials scene) !! i = Some seg1 ->
      exists seg, dev_paths s !! i = Some seg /\
        seg1 = mkPath (ray (primary (camera scene) (traceDepth scene) i seg))
                 (if AMBIENT_LIGHT_ENABLE
                  then vmul (mk3 one one one)
                            (sky (primary_direction (camera scene) i))
                  else splat zero)
                 (Z.of_nat i) 0).
    { intros i seg1 H1.
      destruct (first_round_lookup scene iter s i seg1 Hok H1)
        as (seg & Hseg & Hi & ->).
      exists seg. split; [assumption|].
      rewrite Hgeoms. unfold intersect_thread. cbn [nearest_scan].
      cbn [nearest_init hit_geom_index Z.eqb Pos.eqb].
      rewrite shade_thread_miss.
      - unfold ambient.
        destruct (primary_fields (camera scene) (traceDepth scene) i seg)
          as (-> & -> & _).
        rewrite primary_pixelIndex by apply Hok. reflexivity.
      - destruct (primary_fields (camera scene) (traceDepth scene) i seg)
          as (_ & _ & ->). assumption.
      - reflexivity. }
    destruct (pathtrace_one_round scene iter s Hok)
      as (s' & Hp & Hpaths & Himg).
    { intros i seg1 H1. destruct (Hslot i seg1 H1) as (seg & _ & ->).
      cbn [remainingBounces pixelIndex]. split; [lia | reflexivity]. }
    exists s'. split; [assumption|].
    intros p Hp'.
    destruct (lookup_lt_is_Some_2 (dev_paths s') p) as [seg1 Hseg1].
    { rewrite Hpaths, shade_length, generate_length.
      destruct Hok as (_ & _ & _ & ->). exact Hp'. }
    destruct (lookup_lt_is_Some_2 (dev_image s) p) as [pix Hpix].
    { destruct Hok as (_ & _ & -> & _). exact Hp'. }
    pose proof Hseg1 as Hseg1'. rewrite Hpaths in Hseg1'.
    destruct (Hslot p seg1 Hseg1') as (seg & _ & Heq).
    exists seg1, pix. split; [assumption|].
    rewrite (Himg p _ pix Hseg1' Hpix). subst seg1.
    cbn [color pixelIndex remainingBounces]. repeat split. assumption.
  - intros dir. reflexivity.
  - intros dir dir' E. unfold sky. now rewrite E.
  - vm_compute. reflexivity.
  - vm_compute. reflexivity.
  - vm_compute. discriminate.
  - intros scene s Hok Hdepth iter.
    assert (Hslot : forall (i : nat) seg1,
      shadeBSDFMaterial iter (pixelcount (camera scene))
        (computeIntersections 0 (pixelcount (camera scene))
           (generateRayFromCamera (camera scene) iter (traceDepth scene)
                                  (dev_paths s))
           (geoms scene)
           (replicate (Z.to_nat (pixelcount (camera scene)))
                      zero_intersection)
           (triangles scene))
        (generateRayFromCamera (camera scene) iter (traceDepth scene)
                               (dev_paths s))
        (materials scene) !! i = Some seg1 ->
      exists seg, dev_paths s !! i = Some seg /\
        seg1 = primary (camera scene) (traceDepth scene) i seg).
    { intros i seg1 H1.
      destruct (first_round_lookup scene iter s i seg1 Hok H1)
        as (seg & Hseg & Hi & ->).
      exists seg. split; [assumption|].
      apply shade_thread_terminated.
      destruct (primary_fields (camera scene) (traceDepth scene) i seg)
        as (_ & _ & ->). assumption. }
    destruct (pathtrace_one_round scene iter s Hok)
      as (s' & Hp & Hpaths & Himg).
    { intros i seg1 H1. destruct (Hslot i seg1 H1) as (seg & _ & ->).
      destruct (primary_fields (camera scene) (traceDepth scene) i seg)
        as (_ & _ & ->).
      split; [assumption|]. apply primary_pixelIndex. apply Hok. }
    exists s'. split; [assumption|].
    intros p Hp'.
    destruct (lookup_lt_is_Some_2 (dev_paths s') p) as [seg1 Hseg1].
    { rewrite Hpaths, shade_length, generate_length.
      destruct Hok as (_ & _ & _ & ->). exact Hp'. }
    destruct (lookup_lt_is_Some_2 (dev_image s) p) as [pix Hpix].
    { destruct Hok as (_ & _ & -> & _). exact Hp'. }
    pose proof Hseg1 as Hseg1'. rewrite Hpaths in Hseg1'.
    destruct (Hslot p seg1 Hseg1') as (seg & _ & Heq).
    exists seg1, pix. split; [assumption|].
    rewrite (Himg p _ pix Hseg1' Hpix). subst seg1.
    destruct (primary_fields (camera scene) (traceDepth scene) p seg)
      as (_ & -> & ->).
    repeat split. assumption.
Qed.


(** *** The mesh test *)

(** What [meshIntersectionTest] does on a hit: the triangle it keeps has the
    least third output component among those with a positive one below
    [FLT_MAX]; the three components of that output vector weight the three
    vertex normals, so the third weight is the ray parameter itself. *)
Lemma meshIntersectionTest_normal (mesh : Geom) (r : Ray) (ip0 n0 : vec3)
    (triangles : list Triangle) :
  let rt := object_ray mesh r in
  let res := meshIntersectionTest mesh r ip0 n0 triangles in
  res = mkResult minus_one ip0 n0 \/
  exists (k : nat) tvec,
    (k < mesh_count mesh)%nat /\
    tri_hit rt triangles (startIndex mesh + Z.of_nat k) = Some tvec /\
    gt (z tvec) zero = true /\
    gt FLT_MAX (z tvec) = true /\
    (forall (j : nat) tvec', (j < mesh_count mesh)%nat ->
       tri_hit rt triangles (startIndex mesh + Z.of_nat j) = Some tvec' ->
       gt (z tvec') zero = true -> lt (z tvec') (z tvec) = false) /\
    let tri := triangle_at triangles (startIndex mesh + Z.of_nat k) in
    normal res =
    normalize
      (multiplyMV (invTranspose mesh)
         (to_vec4
            (face_forward
               (vadd (vadd (vscale (n1 tri) (x tvec))
                           (vscale (n2 tri) (y tvec)))
                     (vscale (n3 tri) (z tvec)))
               (direction rt))
            zero)).
Proof.
  intros rt res. subst res. unfold meshIntersectionTest. fold rt.
  destruct (BOUNDING_BOX_ENABLE && negb _); [now left|].
  destruct (mesh_scan_spec rt triangles (mesh_count mesh) (startIndex mesh)
                           mesh_init)
    as [[-> _] | (k & tvec & Hk & Hh & -> & Hpos & Hlt & Hmin)].
  - left. reflexivity.
  - cbn [minId t_min minBary].
    destruct (startIndex mesh + Z.of_nat k <? 0); [now left|].
    right. exists k, tvec. repeat split; assumption.
Qed.

(** *** The seed *)

(** A 32-bit word: its bits from 32 up are clear. *)
Lemma word_bits (a : Z) :
  0 <= a < 2 ^ 32 <-> (0 <= a /\ forall n, 32 <= n -> Z.testbit a n = false).
Proof.
  split.
  - intros H. split; [lia|]. intros n Hn.
    rewrite <- (Z.mod_small a (2 ^ 32)) by lia.
    apply Z.mod_pow2_bits_high. lia.
  - intros [H0 Hb].
    assert (E : a mod 2 ^ 32 = a).
    { apply Z.bits_inj'. intros n Hn.
      destruct (Z.lt_ge_cases n 32).
      - apply Z.mod_pow2_bits_low. lia.
      - rewrite Z.mod_pow2_bits_high by lia. symmetry. now apply Hb. }
    rewrite <- E. apply Z.mod_pos_bound. lia.
Qed.

Lemma to_uint_word (a : Z) : 0 <= to_uint a < 2 ^ 32.
Proof. unfold to_uint. apply Z.mod_pos_bound. lia. Qed.

Lemma lxor_word (a b : Z) :
  0 <= a < 2 ^ 32 -> 0 <= b < 2 ^ 32 -> 0 <= Z.lxor a b < 2 ^ 32.
Proof.
  intros Ha Hb. apply word_bits. apply word_bits in Ha, Hb.
  destruct Ha as [Ha0 Ha], Hb as [Hb0 Hb]. split.
  - now apply Z.lxor_nonneg.
  - intros n Hn. now rewrite Z.lxor_spec, Ha, Hb.
Qed.

Lemma shiftr_word (a n : Z) :
  0 <= n -> 0 <= a < 2 ^ 32 -> 0 <= Z.shiftr a n < 2 ^ 32.
Proof.
  intros Hn Ha. split; [apply Z.shiftr_nonneg; lia|].
  rewrite Z.shiftr_div_pow2 by lia.
  apply Z.le_lt_trans with a; [|lia].
  apply Z.div_le_upper_bound; [lia|]. 
  assert (1 <= 2 ^ n) by (apply Z.pow_le_mono_r with (b := 0) (c := n) (a := 2) in Hn; lia).
  nia.
Qed.

Lemma to_uint_to_int (a : Z) : to_uint (to_int a) = to_uint a.
Proof.
  unfold to_uint, to_int. destruct (a mod 2 ^ 32 <? 2 ^ 31).
  - apply Z.mod_mod. lia.
  - replace (a mod 2 ^ 32 - 2 ^ 32) with (a mod 2 ^ 32 + (-1) * 2 ^ 32) by lia.
    rewrite Z.mod_add by lia. apply Z.mod_mod. lia.
Qed.

Lemma to_uint_add_word (a : Z) : to_uint (a + 2 ^ 32) = to_uint a.
Proof.
  unfold to_uint. replace (a + 2 ^ 32) with (a + 1 * 2 ^ 32) by lia.
  apply Z.mod_add. lia.
Qed.

Lemma utilhash_to_uint (a : Z) : utilhash (to_uint a) = utilhash a.
Proof.
  unfold utilhash. replace (to_uint (to_uint a)) with (to_uint a); [reflexivity|].
  unfold to_uint. symmetry. apply Z.mod_mod. lia.
Qed.

(** X1: [utilhash] returns a 32-bit word and reads only the low 32 bits of
    its argument (so an [int] and the [unsigned int] it converts to hash
    alike); the seed of an engine is a 32-bit word. *)
Theorem utilhash_is_word (a : Z) :
  0 <= utilhash a < 2 ^ 32 /\
  utilhash (a + 2 ^ 32) = utilhash a /\
  utilhash (to_int a) = utilhash a /\
  forall iter index depth,
    0 <= engine_seed (makeSeededRandomEngine iter index depth) < 2 ^ 32.
Proof.
  split; [|split; [|split]].
  - unfold utilhash.
    repeat first [ apply lxor_word | apply to_uint_word
                 | apply shiftr_word; [lia|] | lia ].
  - rewrite <- (utilhash_to_uint (a + 2 ^ 32)), to_uint_add_word.
    apply utilhash_to_uint.
  - rewrite <- (utilhash_to_uint (to_int a)), to_uint_to_int.
    apply utilhash_to_uint.
  - intros. cbn [makeSeededRandomEngine engine_seed]. apply to_uint_word.
Qed.

(** Two integers that agree modulo [2^k] have the same low [k] bits. *)
Lemma low_bits_of_mod (a b k n : Z) :
  a mod 2 ^ k = b mod 2 ^ k -> n < k -> Z.testbit a n = Z.testbit b n.
Proof.
  intros E Hn.
  rewrite <- (Z.mod_pow2_bits_low a k n), <- (Z.mod_pow2_bits_low b k n) by lia.
  now rewrite E.
Qed.

Lemma to_int_mod (a : Z) : to_int a mod 2 ^ 32 = a mod 2 ^ 32.
Proof. apply to_uint_to_int. Qed.

Lemma int_min_bits (n : Z) :
  0 <= n -> Z.testbit (to_int (Z.shiftl 1 31)) n = (31 <=? n).
Proof.
  intros Hn. change (to_int (Z.shiftl 1 31)) with (- 2 ^ 31).
  rewrite Z.bits_opp by lia. rewrite <- Z.ones_equiv.
  destruct (Z.leb_spec 31 n).
  - rewrite Z.ones_spec_high by lia. reflexivity.
  - rewrite Z.ones_spec_low by lia. reflexivity.
Qed.

Lemma mod_mod_pow2 (a : Z) : (a mod 2 ^ 32) mod 2 ^ 31 = a mod 2 ^ 31.
Proof.
  change (2 ^ 32) with (2 ^ 31 * 2).
  rewrite Z.rem_mul_r by lia.
  set (q := (a / 2 ^ 31) mod 2).
  rewrite (Z.mul_comm (2 ^ 31) q), Z.mod_add by lia. apply Z.mod_mod. lia.
Qed.

Lemma to_int_mod31 (a : Z) : to_int a mod 2 ^ 31 = a mod 2 ^ 31.
Proof. rewrite <- (mod_mod_pow2 (to_int a)), to_int_mod. apply mod_mod_pow2. Qed.

(** X2: bit 31 of the hashed word is always set, so bit 9 of the depth is
    lost: two depths 512 apart seed the same engine. *)
Theorem seed_repeats_every_512_depths (iter index depth : Z) :
  makeSeededRandomEngine iter index (depth + 512)
  = makeSeededRandomEngine iter index depth.
Proof.
  unfold makeSeededRandomEngine. do 5 f_equal.
  assert (E : Z.lor (to_int (Z.shiftl 1 31)) (to_int (Z.shiftl (depth + 512) 22))
            = Z.lor (to_int (Z.shiftl 1 31)) (to_int (Z.shiftl depth 22))).
  { apply Z.bits_inj'. intros n Hn.
    rewrite !Z.lor_spec, int_min_bits by lia.
    destruct (Z.leb_spec 31 n); [reflexivity|]. cbn [orb].
    apply low_bits_of_mod with (k := 31); [|lia].
    rewrite !to_int_mod31, !Z.shiftl_mul_pow2 by lia.
    replace ((depth + 512) * 2 ^ 22) with (depth * 2 ^ 22 + 1 * 2 ^ 31) by lia.
    apply Z.mod_add. lia. }
  now rewrite E.
Qed.

Lemma small_bits (a k n : Z) :
  0 <= a < 2 ^ k -> 0 <= k <= n -> Z.testbit a n = false.
Proof.
  intros Ha Hn. rewrite <- (Z.mod_small a (2 ^ k)) by lia.
  apply Z.mod_pow2_bits_high. lia.
Qed.

Lemma lor_disjoint (a b : Z) : Z.land a b = 0 -> Z.lor a b = a + b.
Proof.
  intros H. rewrite Z.add_nocarry_lxor by assumption.
  symmetry. now apply Z.lxor_lor.
Qed.

Lemma shifted_bits (depth n : Z) :
  0 <= depth < 2 ^ 9 -> 0 <= n ->
  Z.testbit (depth * 2 ^ 22) n = true -> 22 <= n < 31.
Proof.
  intros Hd Hn H. rewrite <- Z.shiftl_mul_pow2, Z.shiftl_spec in H by lia.
  destruct (Z.lt_ge_cases n 22).
  - rewrite Z.testbit_neg_r in H by lia. discriminate.
  - destruct (Z.lt_ge_cases n 31); [lia|].
    rewrite (small_bits depth 9) in H by lia. discriminate.
Qed.

Lemma seed_word_value (iter depth : Z) :
  0 <= iter < 2 ^ 22 -> 0 <= depth < 2 ^ 9 ->
  seed_word iter depth = 2 ^ 31 + depth * 2 ^ 22 + iter.
Proof.
  intros Hi Hd.
  assert (HAB : Z.land (2 ^ 31) (depth * 2 ^ 22) = 0).
  { apply Z.bits_inj'. intros n Hn. rewrite Z.land_spec, Z.bits_0.
    destruct (Z.testbit (depth * 2 ^ 22) n) eqn:E; [|apply andb_false_r].
    apply shifted_bits in E; try lia.
    rewrite Z.pow2_bits_eqb by lia.
    destruct (Z.eqb_spec 31 n); [lia | reflexivity]. }
  assert (HABC : Z.land (Z.lor (2 ^ 31) (depth * 2 ^ 22)) iter = 0).
  { apply Z.bits_inj'. intros n Hn.
    rewrite Z.land_spec, Z.lor_spec, Z.bits_0.
    destruct (Z.lt_ge_cases n 22).
    - rewrite Z.pow2_bits_eqb by lia.
      destruct (Z.eqb_spec 31 n); [lia|].
      destruct (Z.testbit (depth * 2 ^ 22) n) eqn:E; [|reflexivity].
      apply shifted_bits in E; lia.
    - rewrite (small_bits iter 22) by lia. apply andb_false_r. }
  assert (HW : Z.lor (Z.lor (2 ^ 31) (depth * 2 ^ 22)) iter
               = 2 ^ 31 + depth * 2 ^ 22 + iter).
  { rewrite (lor_disjoint _ iter) by assumption.
    now rewrite (lor_disjoint _ _ HAB). }
  unfold seed_word, to_uint. rewrite <- HW.
  rewrite <- (Z.mod_small (Z.lor (Z.lor (2 ^ 31) (depth * 2 ^ 22)) iter)
                          (2 ^ 32)) by (rewrite HW; lia).
  apply Z.bits_inj'. intros n Hn.
  destruct (Z.lt_ge_cases n 32).
  - rewrite !Z.mod_pow2_bits_low, !Z.lor_spec by lia.
    f_equal. f_equal.
    + rewrite int_min_bits, Z.pow2_bits_eqb by lia.
      destruct (Z.leb_spec 31 n), (Z.eqb_spec 31 n); (reflexivity || lia).
    + apply low_bits_of_mod with (k := 32); [|lia].
      rewrite to_int_mod, Z.shiftl_mul_pow2 by lia. reflexivity.
  - rewrite !Z.mod_pow2_bits_high by lia. reflexivity.
Qed.

Lemma makeSeededRandomEngine_word (iter index depth : Z) :
  makeSeededRandomEngine iter index depth =
  mk_engine
    (to_uint (Z.lxor (utilhash (seed_word iter depth)) (utilhash index))).
Proof.
  unfold makeSeededRandomEngine, seed_word.
  rewrite to_uint_to_int.
  match goal with |- context [utilhash (to_int ?L)] =>
    assert (E : utilhash (to_int L) = utilhash (to_uint L))
      by (rewrite <- (utilhash_to_uint (to_int L)), to_uint_to_int;
          reflexivity)
  end.
  now rewrite E.
Qed.

(** X3: for an iteration below [2^22] and a depth below 512 the three
    fields of the hashed word do not overlap: the word is
    [2^31 + depth * 2^22 + iter], and no two such pairs share it. *)
Theorem seed_word_is_injective (iter iter' depth depth' index : Z) :
  0 <= iter < 2 ^ 22 -> 0 <= iter' < 2 ^ 22 ->
  0 <= depth < 512 -> 0 <= depth' < 512 ->
  makeSeededRandomEngine iter index depth =
  mk_engine
    (to_uint (Z.lxor (utilhash (2 ^ 31 + depth * 2 ^ 22 + iter))
                     (utilhash index))) /\
  (seed_word iter depth = seed_word iter' depth' ->
   iter = iter' /\ depth = depth').
Proof.
  intros Hi Hi' Hd Hd'. split.
  - rewrite makeSeededRandomEngine_word, seed_word_value by lia. reflexivity.
  - rewrite !seed_word_value by lia. intros E. lia.
Qed.

(** *** The stand-alone triangle test *)

Lemma add_nan_r (a : float) : add a S754_nan = S754_nan.
Proof. destruct a as [[]|[]| |[] ? ?]; reflexivity. Qed.

Lemma mul_nan_l (a : float) : mul S754_nan a = S754_nan.
Proof. destruct a as [[]|[]| |[] ? ?]; reflexivity. Qed.

Lemma mul_nan_r (a : float) : mul a S754_nan = S754_nan.
Proof. destruct a as [[]|[]| |[] ? ?]; reflexivity. Qed.

Lemma sub_nan_l (a : float) : sub S754_nan a = S754_nan.
Proof. destruct a as [[]|[]| |[] ? ?]; reflexivity. Qed.

Lemma div_nan_l (a : float) : div S754_nan a = S754_nan.
Proof. destruct a as [[]|[]| |[] ? ?]; reflexivity. Qed.

(** A point on a ray at a NaN parameter has an area ratio that is NaN. *)
Lemma nan_ratio (o d a b : vec3) (S : float) :
  let P := vadd o (scalev S754_nan d) in
  div (mul half (length (cross (vsub P a) (vsub P b)))) S = S754_nan.
Proof.
  intros P. subst P.
  unfold vadd, scalev, vsub, cross, length, dot. cbn [x y z].
  repeat first [rewrite mul_nan_l | rewrite add_nan_r | rewrite sub_nan_l].
  change (sqrt S754_nan) with S754_nan.
  rewrite mul_nan_r. apply div_nan_l.
Qed.

(** A quotient by zero is NaN or infinite: it is not in [[0, 1]]. *)
Lemma div_zero_outside (a : float) (s : bool) :
  ge (div a (S754_zero s)) zero && le (div a (S754_zero s)) one = false.
Proof.
  destruct a as [[]|[]| |[] ? ?], s; vm_compute; reflexivity.
Qed.

(** X4: [triangleIntersect] returns [-1] and leaves the normal alone, or it
    returns the ray-plane parameter, which then is a number [>= 0] (never
    NaN), the three area ratios being within [0, 1]. *)
Theorem triangleIntersect_result (r : Ray) (tri : Triangle) (normal0 : vec3) :
  let res := triangleIntersect r tri normal0 in
  res = (minus_one, normal0) \/
  (fst res = tri_t r tri /\
   is_nan (fst res) = false /\
   le zero (fst res) = true /\
   ge (tri_s1 r tri) zero && le (tri_s1 r tri) one = true /\
   ge (tri_s2 r tri) zero && le (tri_s2 r tri) one = true /\
   ge (tri_s3 r tri) zero && le (tri_s3 r tri) one = true).
Proof.
  intros res. subst res. unfold triangleIntersect.
  destruct (lt (tri_t r tri) zero) eqn:Hneg; [now left|].
  match goal with |- context [if ?c then _ else _] => destruct c eqn:Hc end;
    [|now left].
  right. cbn [fst].
  repeat (apply andb_prop in Hc; destruct Hc as [Hc ?]).
  assert (Hnan : is_nan (tri_t r tri) = false).
  { destruct (is_nan (tri_t r tri)) eqn:E; [|reflexivity].
    apply is_nan_true in E.
    assert (Hs : tri_s1 r tri = S754_nan)
      by (unfold tri_s1, tri_P; rewrite E; apply nan_ratio).
    rewrite Hs in Hc. discriminate Hc. }
  split; [reflexivity|]. split; [assumption|]. split.
  - rewrite le_not_gt by (assumption || reflexivity). now rewrite Hneg.
  - repeat split; apply andb_true_intro; split; assumption.
Qed.

(** X5: a triangle of zero area is never hit. *)
Theorem triangleIntersect_degenerate (r : Ray) (tri : Triangle)
    (normal0 : vec3) (s : bool) :
  tri_S tri = S754_zero s ->
  triangleIntersect r tri normal0 = (minus_one, normal0).
Proof.
  intros HS. unfold triangleIntersect.
  destruct (lt (tri_t r tri) zero); [reflexivity|].
  assert (H1 : ge (tri_s1 r tri) zero && le (tri_s1 r tri) one = false)
    by (unfold tri_s1; rewrite HS; apply div_zero_outside).
  rewrite H1. reflexivity.
Qed.


(** *** The bounding-box test *)

Lemma get_splat (a : float) (xyz : nat) : get (splat a) xyz = a.
Proof. destruct xyz as [|[|?]]; reflexivity. Qed.

(** On the corners of the unit cube one turn of the bounding loop computes
    the [tmin] and [tmax] of one turn of the box loop. *)
Lemma bounding_axis_slab (q : Ray) (st : Slab) (xyz : nat) :
  bounding_axis q (splat (neg half)) (splat half) (tmin st, tmax st) xyz =
  (tmin (box_axis q st xyz), tmax (box_axis q st xyz)).
Proof.
  unfold bounding_axis, box_axis, slab_ta, slab_tb, slab_t1, slab_t2.
  rewrite !get_splat. cbn [fst snd].
  destruct (gt _ zero && gt _ (tmin st)); cbn [tmin tmax];
    destruct (lt _ (tmax st)); reflexivity.
Qed.

Lemma bounding_fold_slab (q : Ray) (axes : list nat) : forall st : Slab,
  fold_left (bounding_axis q (splat (neg half)) (splat half)) axes
            (tmin st, tmax st) =
  (tmin (fold_left (box_axis q) axes st),
   tmax (fold_left (box_axis q) axes st)).
Proof.
  induction axes as [|xyz axes IH]; intros st; cbn [fold_left];
    [reflexivity|].
  rewrite bounding_axis_slab. apply IH.
Qed.

(** X6: on the corners [-0.5] and [+0.5] of the unit cube,
    [boundingIntersectionTest] decides exactly what [boxIntersectionTest]
    decides on its object-space ray: it answers [false] if and only if the
    box test returns [-1]. *)
Theorem bounding_test_of_unit_cube (box : Geom) (r : Ray) (ip0 n0 : vec3) :
  boundingIntersectionTest (box_ray box r) (splat (neg half)) (splat half) =
  box_accepts (box_slabs (box_ray box r)) /\
  (boundingIntersectionTest (box_ray box r) (splat (neg half)) (splat half)
   = false <->
   ret (boxIntersectionTest box r ip0 n0) = minus_one).
Proof.
  assert (E : boundingIntersectionTest (box_ray box r) (splat (neg half))
                                       (splat half) =
              box_accepts (box_slabs (box_ray box r))).
  { unfold boundingIntersectionTest, box_slabs, box_accepts.
    change (neg big, big) with (tmin slab_init, tmax slab_init).
    now rewrite bounding_fold_slab. }
  split; [exact E|]. rewrite E.
  unfold boxIntersectionTest, box_accepts.
  destruct (ge _ _ && gt _ zero); cbn [ret]; split; intros H;
    try reflexivity; try discriminate.
  exfalso. exact (sqrt_not_minus_one _ H).
Qed.

(** *** The mesh test: hit point and distance *)

(** X7: [meshIntersectionTest] either returns [-1] and leaves its outputs
    alone, or it found a triangle of the range whose output vector has a
    third component [t] with [0 < t < FLT_MAX]; the point it returns is then
    the object-space point of the ray at that [t], transformed to world space
    (and moved back when the mesh moves), and the value it returns is the
    distance from the ray origin to that point, which is never [-1].  An
    empty triangle range, and a ray the bounding test rejects when that test
    is compiled in, give [-1]. *)
Theorem meshIntersectionTest_hit (mesh : Geom) (r : Ray) (ip0 n0 : vec3)
    (triangles : list Triangle) :
  let rt := object_ray mesh r in
  let res := meshIntersectionTest mesh r ip0 n0 triangles in
  (res = mkResult minus_one ip0 n0 \/
   exists (k : nat) tvec,
     (k < mesh_count mesh)%nat /\
     tri_hit rt triangles (startIndex mesh + Z.of_nat k) = Some tvec /\
     gt (z tvec) zero = true /\
     gt FLT_MAX (z tvec) = true /\
     0 <= startIndex mesh + Z.of_nat k /\
     intersectionPoint res =
       (let ip := multiplyMV (transform mesh)
                    (to_vec4 (getPointOnRay rt (z tvec)) one) in
        if moving mesh then vadd ip (motion mesh r) else ip) /\
     ret res = length (vsub (origin r) (intersectionPoint res)) /\
     ret res <> minus_one) /\
  (endIndex mesh < startIndex mesh -> res = mkResult minus_one ip0 n0) /\
  (BOUNDING_BOX_ENABLE = true ->
   boundingIntersectionTest rt (leftBottom mesh) (rightTop mesh) = false ->
   res = mkResult minus_one ip0 n0).
Proof.
  intros rt res. subst res. unfold meshIntersectionTest. fold rt.
  split; [|split].
  - destruct (BOUNDING_BOX_ENABLE && negb _); [now left|].
    destruct (mesh_scan_spec rt triangles (mesh_count mesh) (startIndex mesh)
                             mesh_init)
      as [[-> _] | (k & tvec & Hk & Hh & -> & Hpos & Hlt & _)].
    + left. reflexivity.
    + cbn [minId t_min minBary].
      destruct (Z.ltb_spec (startIndex mesh + Z.of_nat k) 0) as [|Hge];
        [now left|].
      right. exists k, tvec. cbn [ret intersectionPoint].
      repeat (split; [assumption || reflexivity|]).
      apply sqrt_not_minus_one.
  - intros Hempty.
    destruct (BOUNDING_BOX_ENABLE && negb _); [reflexivity|].
    unfold mesh_count.
    replace (Z.to_nat (endIndex mesh - startIndex mesh + 1)) with 0%nat
      by lia.
    reflexivity.
  - intros -> ->. reflexivity.
Qed.


(** *** The two per-path kernels before shading *)

(** X8: with a positive resolution, [generateRayFromCamera] gives every
    slot below [pixelcount] the camera position, white, its own index as
    pixel index and [traceDepth] bounces, and leaves the slot's [ray.time]
    as it was; it leaves the slots behind alone; it ignores [iter]; and
    running it again on its own output changes nothing. *)
Theorem generateRayFromCamera_slots (cam : Camera) (iter iter' traceDepth : Z)
    (pathSegments : list PathSegment) :
  0 < ix (resolution cam) -> 0 < iy (resolution cam) ->
  let out := generateRayFromCamera cam iter traceDepth pathSegments in
  List.length out = List.length pathSegments /\
  (forall (i : nat) seg,
     pathSegments !! i = Some seg -> Z.of_nat i < pixelcount cam ->
     exists seg',
       out !! i = Some seg' /\
       origin (ray seg') = position cam /\
       color seg' = mk3 one one one /\
       pixelIndex seg' = Z.of_nat i /\
       remainingBounces seg' = traceDepth /\
       time (ray seg') = time (ray seg)) /\
  (forall i : nat, pixelcount cam <= Z.of_nat i ->
     out !! i = pathSegments !! i) /\
  generateRayFromCamera cam iter' traceDepth out = out.
Proof.
  intros Hx Hy out.
  assert (Hout : forall i : nat,
            out !! i =
            (fun seg => if Z.of_nat i <? pixelcount cam
                        then primary cam traceDepth i seg else seg)
              <$> pathSegments !! i).
  { intros i. subst out. unfold generateRayFromCamera.
    apply Z.ltb_lt in Hx, Hy. rewrite Hx, Hy. cbn [andb].
    apply kernel_lookup. }
  split; [apply generate_length|]. split; [|split].
  - intros i seg Hs Hi. exists (primary cam traceDepth i seg).
    rewrite Hout, Hs. apply Z.ltb_lt in Hi.
    cbn [fmap option_fmap option_map]. rewrite Hi.
    split; [reflexivity|]. split; [reflexivity|]. split; [reflexivity|].
    split; [now apply primary_pixelIndex|]. split; reflexivity.
  - intros i Hi. rewrite Hout.
    destruct (Z.ltb_spec (Z.of_nat i) (pixelcount cam)); [lia|].
    now destruct (pathSegments !! i).
  - apply list_eq. intros i.
    unfold generateRayFromCamera at 1.
    destruct (Z.ltb_spec 0 (ix (resolution cam))); [|lia].
    destruct (Z.ltb_spec 0 (iy (resolution cam))); [|lia].
    cbn [andb]. rewrite kernel_lookup, Hout.
    destruct (pathSegments !! i) as [seg|]; [|reflexivity].
    cbn [fmap option_fmap option_map].
    destruct (Z.of_nat i <? pixelcount cam); reflexivity.
Qed.

(** X9: [computeIntersections] writes, into the slot of every path below
    [num_paths], either the sentinel [t = -1] with the slot's other fields
    kept, or a [t] with [0 < t < FLT_MAX] that is the return value of one of
    the geometry records, together with that record's material id.  So the
    test [t > 0] of the shading kernels is false exactly on the sentinel,
    and the material id of a hit is one of the scene's.  The slots from
    [num_paths] on are kept, and [depth] is not used. *)
Theorem computeIntersections_slots (depth depth' num_paths : Z)
    (pathSegments : list PathSegment) (geoms : list Geom)
    (intersections : list ShadeableIntersection)
    (triangles : list Triangle) :
  let out := computeIntersections depth num_paths pathSegments geoms
                                  intersections triangles in
  List.length out = List.length intersections /\
  computeIntersections depth' num_paths pathSegments geoms intersections
                       triangles = out /\
  (forall (i : nat), num_paths <= Z.of_nat i ->
     out !! i = intersections !! i) /\
  (forall (i : nat) seg slot,
     pathSegments !! i = Some seg -> intersections !! i = Some slot ->
     Z.of_nat i < num_paths ->
     exists res,
       out !! i = Some res /\
       ((res = mkIsect minus_one (point slot) (surfaceNormal slot)
                       (materialId slot) /\
         gt (t res) zero = false)
        \/
        (gt (t res) zero = true /\ gt FLT_MAX (t res) = true /\
         exists (k : nat) geom,
           geoms !! k = Some geom /\
           materialId res = materialid geom /\
           t res = geom_t triangles (ray seg) geom))).
Proof.
  intros out. subst out. unfold computeIntersections.
  split; [apply kernel_length|]. split; [reflexivity|]. split.
  - intros i Hi. rewrite kernel_lookup.
    destruct (Z.ltb_spec (Z.of_nat i) num_paths); [lia|].
    now destruct (intersections !! i).
  - intros i seg slot Hs Hslot Hi.
    rewrite (kernel_lookup_Some _ _ _ _ _ Hslot).
    apply Z.ltb_lt in Hi. rewrite Hi, Hs.
    eexists. split; [reflexivity|].
    unfold intersect_thread.
    destruct (nearest_scan_spec triangles (ray seg) geoms 0 nearest_init)
      as [[_ (_ & Hidx & _ & _)]
         | (k & g & Hg & Hidx & Ht & _ & _ & Hpos & Hlt & _ & _)].
    + left. rewrite Hidx. cbn [hit_geom_index nearest_init Z.eqb t].
      split; reflexivity.
    + right. rewrite Hidx, Ht.
      destruct (Z.eqb_spec (0 + Z.of_nat k) (-1)) as [E|_]; [lia|].
      cbn [t materialId]. split; [exact Hpos|]. split; [exact Hlt|].
      exists k, g. split; [exact Hg|]. split; [|reflexivity].
      unfold geom_at. replace (0 + Z.of_nat k) with (Z.of_nat k) by lia.
      now rewrite at_index_of_nat, Hg.
Qed.


(** *** The depth loop ends with every path terminated *)

Lemma to_int_small (a : Z) : 0 <= a < 2 ^ 31 -> to_int a = a.
Proof.
  intros H. unfold to_int. rewrite Z.mod_small by lia.
  destruct (Z.ltb_spec a (2 ^ 31)); lia.
Qed.

Lemma trace_round_remaining scene iter depth remaining paths :
  let shaded :=
    shadeBSDFMaterial iter remaining
      (computeIntersections depth remaining paths (geoms scene)
         (replicate (Z.to_nat (pixelcount (camera scene))) zero_intersection)
         (triangles scene))
      paths (materials scene) in
  round_remaining (trace_round scene iter depth remaining paths) =
  if STREAM_COMPACTION then snd (compact remaining shaded) else remaining.
Proof.
  unfold trace_round, round_remaining. cbn zeta.
  destruct STREAM_COMPACTION; [|reflexivity].
  now destruct (compact _ _).
Qed.

Lemma trace_round_isects scene iter depth remaining paths :
  round_isects (trace_round scene iter depth remaining paths) =
  computeIntersections depth remaining paths (geoms scene)
    (replicate (Z.to_nat (pixelcount (camera scene))) zero_intersection)
    (triangles scene).
Proof.
  unfold trace_round, round_isects. cbn zeta.
  destruct STREAM_COMPACTION; [|reflexivity].
  now destruct (compact _ _).
Qed.

(** The loop stops for one of two reasons. *)
Lemma trace_round_complete_inv scene iter depth remaining paths :
  round_complete (trace_round scene iter depth remaining paths) = true ->
  traceDepth scene <= depth + 1 \/
  (STREAM_COMPACTION = true /\
   round_remaining (trace_round scene iter depth remaining paths) <= 0).
Proof.
  unfold trace_round, round_complete, round_remaining. cbn zeta.
  destruct STREAM_COMPACTION.
  - destruct (compact _ _) as [ps rem]. cbn [fst snd].
    intros H. apply orb_true_iff in H. destruct H as [H|H].
    + left. apply Z.geb_le in H. lia.
    + right. split; [reflexivity|]. now apply Z.leb_le in H.
  - cbn [snd]. intros H. left. apply Z.geb_le in H. lia.
Qed.

(** The loop ends within its fuel; an invariant of its three variables holds
    of the state it stops in. *)
Lemma trace_loop_invariant_at (Inv : Z -> Z -> list PathSegment -> Prop)
    scene iter :
  (forall depth remaining paths,
      Inv depth remaining paths ->
      Inv (depth + 1)
          (round_remaining (trace_round scene iter depth remaining paths))
          (round_paths (trace_round scene iter depth remaining paths))) ->
  forall fuel depth remaining paths,
    (0 < fuel)%nat -> traceDepth scene - depth <= Z.of_nat fuel ->
    Inv depth remaining paths ->
    exists paths' isects depth' remaining',
      trace_loop fuel scene iter depth remaining paths = Some (paths', isects)
      /\ List.length isects = Z.to_nat (pixelcount (camera scene))
      /\ Inv depth' remaining' paths'
      /\ (traceDepth scene <= depth' \/
          (STREAM_COMPACTION = true /\ remaining' <= 0)).
Proof.
  intros Hpres. induction fuel as [|fuel IH]; intros depth remaining paths
    Hfuel Hdepth Hinv; [lia|].
  rewrite trace_loop_step. cbn zeta.
  specialize (Hpres depth remaining paths Hinv).
  destruct (round_complete _) eqn:Hc.
  - exists (round_paths (trace_round scene iter depth remaining paths)),
           (round_isects (trace_round scene iter depth remaining paths)),
           (depth + 1),
           (round_remaining (trace_round scene iter depth remaining paths)).
    split; [reflexivity|]. split.
    { rewrite trace_round_isects. unfold computeIntersections.
      now rewrite kernel_length, length_replicate. }
    split; [exact Hpres|].
    now apply trace_round_complete_inv.
  - assert (Hlt : depth + 1 < traceDepth scene).
    { destruct (Z.lt_ge_cases (depth + 1) (traceDepth scene)) as [?|Hge];
        [assumption|].
      rewrite trace_round_complete in Hc by lia. discriminate. }
    apply IH; [lia | lia | assumption].
Qed.

Section Termination.

(** [scatterRay] samples the next ray and weights the colour; counting the
    bounces is left to the kernel that calls it. *)
Hypothesis scatterRay_remainingBounces : forall seg p n m rng,
  remainingBounces (scatterRay seg p n m rng) = remainingBounces seg.

#[local] Set Default Proof Using "Type scatterRay_remainingBounces".

(** One shading lowers a bound on the bounces left by one, down to zero. *)
Lemma shade_thread_bound iter materials idx isect seg (b : Z) :
  0 <= b < 2 ^ 31 ->
  remainingBounces seg <= b + 1 ->
  remainingBounces (shade_thread iter materials idx isect seg) <= b.
Proof.
  intros Hb Hrb. unfold shade_thread.
  destruct (Z.leb_spec (remainingBounces seg) 0) as [|Hpos]; [lia|].
  destruct (gt (t isect) zero); [|cbn [remainingBounces set_remainingBounces]; lia].
  destruct (gt (emittance _) zero).
  - destruct (Z.geb_spec (remainingBounces seg) 0);
      cbn [remainingBounces set_remainingBounces]; lia.
  - assert (E : remainingBounces
                  (set_remainingBounces
                     (scatterRay seg (point isect) (surfaceNormal isect)
                        (material_at materials (materialId isect))
                        (shade_rng iter idx seg))
                     (to_int
                        (remainingBounces
                           (scatterRay seg (point isect) (surfaceNormal isect)
                              (material_at materials (materialId isect))
                              (shade_rng iter idx seg)) - 1)))
                = remainingBounces seg - 1).
    { cbn [remainingBounces set_remainingBounces].
      rewrite scatterRay_remainingBounces. apply to_int_small. lia. }
    cbn zeta.
    match goal with |- context [if ?c then _ else _] => destruct c end;
      [unfold set_color; cbn [remainingBounces]|]; rewrite E; lia.
Qed.

(** What a turn of the loop keeps: the buffer has one slot per pixel, the
    slots from [remaining] on hold terminated paths, and no path has more
    than [traceDepth - depth] bounces left. *)
Lemma trace_round_bound scene iter depth remaining paths :
  let npix := Z.to_nat (pixelcount (camera scene)) in
  let Inv depth remaining paths :=
    0 <= depth /\
    List.length paths = npix /\
    Forall (fun p => remainingBounces p
                     <= Z.max 0 (traceDepth scene - depth)) paths /\
    Forall (fun p => remainingBounces p <= 0)
           (drop (Z.to_nat remaining) paths) in
  traceDepth scene < 2 ^ 31 ->
  Inv depth remaining paths ->
  Inv (depth + 1)
      (round_remaining (trace_round scene iter depth remaining paths))
      (round_paths (trace_round scene iter depth remaining paths)).
Proof.
  intros npix Inv Htd (Hd & Hlen & Hall & Htail). subst Inv. cbn beta.
  rewrite trace_round_paths, trace_round_remaining. cbn zeta.
  set (isects := computeIntersections _ _ _ _ _ _).
  set (shaded := shadeBSDFMaterial _ _ _ _ _).
  assert (Hslen : List.length shaded = npix)
    by (subst shaded; now rewrite shade_length).
  assert (Hsall : Forall (fun p => remainingBounces p
                            <= Z.max 0 (traceDepth scene - (depth + 1)))
                         shaded).
  { apply Forall_lookup_2. intros i seg' Hi.
    assert (Hlt : (i < List.length paths)%nat)
      by (rewrite Hlen, <- Hslen; now apply lookup_lt_Some in Hi).
    destruct (lookup_lt_is_Some_2 _ _ Hlt) as [seg Hseg].
    subst shaded. rewrite (shade_lookup _ _ _ _ _ _ _ Hseg) in Hi.
    injection Hi as <-.
    pose proof (Forall_lookup_1 _ _ _ _ Hall Hseg) as Hb. cbn beta in Hb.
    destruct (Z.ltb_spec (Z.of_nat i) remaining) as [Hin|Hout].
    - destruct (isects !! i) as [isect|] eqn:Hisect.
      + apply shade_thread_bound; lia.
      + exfalso. apply lookup_ge_None in Hisect. subst isects.
        unfold computeIntersections in Hisect.
        rewrite kernel_length, length_replicate in Hisect. lia.
    - assert (Hd' : drop (Z.to_nat remaining) paths
                      !! (i - Z.to_nat remaining)%nat = Some seg).
      { rewrite lookup_drop.
        now replace (Z.to_nat remaining + (i - Z.to_nat remaining))%nat
          with i by lia. }
      pose proof (Forall_lookup_1 _ _ _ _ Htail Hd') as H0. cbn beta in H0.
      lia. }
  assert (Hstail : Forall (fun p => remainingBounces p <= 0)
                          (drop (Z.to_nat remaining) shaded)).
  { apply Forall_lookup_2. intros j seg' Hj. rewrite lookup_drop in Hj.
    assert (Hlt : (Z.to_nat remaining + j < List.length paths)%nat)
      by (rewrite Hlen, <- Hslen; now apply lookup_lt_Some in Hj).
    destruct (lookup_lt_is_Some_2 _ _ Hlt) as [seg Hseg].
    subst shaded. rewrite (shade_lookup _ _ _ _ _ _ _ Hseg) in Hj.
    assert (Hd' : drop (Z.to_nat remaining) paths !! j = Some seg)
      by now rewrite lookup_drop.
    pose proof (Forall_lookup_1 _ _ _ _ Htail Hd') as H0. cbn beta in H0.
    destruct (Z.ltb_spec (Z.of_nat (Z.to_nat remaining + j)) remaining);
      [lia|].
    now injection Hj as <-. }
  split; [lia|].
  destruct STREAM_COMPACTION.
  - unfold compact, stable_partition. cbn [fst snd].
    set (n := Z.to_nat remaining) in *.
    set (act := List.filter is_zero (take n shaded)).
    set (ter := List.filter (fun p => negb (is_zero p)) (take n shaded)).
    assert (Hperm : (act ++ ter) ++ drop n shaded ≡ₚ shaded).
    { subst act ter. rewrite (filter_split_perm is_zero (take n shaded)).
      now rewrite take_drop. }
    split; [now rewrite Hperm|].
    split; [now rewrite Hperm|].
    rewrite Nat2Z.id, <- app_assoc, drop_app_length.
    apply Forall_app. split; [|exact Hstail].
    subst ter.
    eapply Forall_impl; [apply (filter_true (fun p => negb (is_zero p)))|].
    intros p Hp. cbn beta in Hp. apply negb_true_iff in Hp.
    now apply is_zero_false.
  - split; [exact Hslen|]. split; [exact Hsall | exact Hstail].
Qed.

(** X10: in a session with one path slot per pixel, and [scatterRay]
    leaving the bounce counter to its caller, a call of [pathtrace] returns
    and every path it leaves in [dev_paths] is terminated
    ([remainingBounces <= 0]), whether the loop stopped on the depth or on
    an empty compacted range; the three buffers keep one slot per pixel. *)
Theorem pathtrace_terminates_every_path (scene : Scene) (iter : Z)
    (s : Session) :
  session_ok scene s ->
  traceDepth scene < 2 ^ 31 ->
  exists s',
    pathtrace scene iter s = Some s' /\
    session_ok scene s' /\
    List.length (dev_intersections s') = Z.to_nat (pixelcount (camera scene)) /\
    Forall (fun p => remainingBounces p <= 0) (dev_paths s').
Proof.
  intros (Hx & Hy & Himg & Hpaths) Htd. unfold pathtrace.
  set (npix := Z.to_nat (pixelcount (camera scene))) in *.
  set (paths0 := generateRayFromCamera _ _ _ _).
  destruct (trace_loop_invariant_at
              (fun depth remaining paths =>
                 0 <= depth /\
                 List.length paths = npix /\
                 Forall (fun p => remainingBounces p
                                  <= Z.max 0 (traceDepth scene - depth))
                        paths /\
                 Forall (fun p => remainingBounces p <= 0)
                        (drop (Z.to_nat remaining) paths))
              scene iter)
    with (fuel := trace_fuel scene) (depth := 0)
         (remaining := pixelcount (camera scene)) (paths := paths0)
    as (paths' & isects & depth' & remaining' & -> & Hil
        & (Hd & Hlen & Hall & Htail) & Hstop).
  - intros depth remaining paths H.
    now apply (trace_round_bound scene iter depth remaining paths Htd).
  - unfold trace_fuel. lia.
  - unfold trace_fuel. lia.
  - assert (Hl0 : List.length paths0 = npix)
      by (subst paths0; now rewrite generate_length).
    split; [lia|]. split; [exact Hl0|]. split.
    + apply Forall_lookup_2. intros i seg' Hi.
      assert (Hlt : (i < List.length (dev_paths s))%nat)
        by (rewrite Hpaths; fold npix; rewrite <- Hl0;
            now apply lookup_lt_Some in Hi).
      destruct (lookup_lt_is_Some_2 _ _ Hlt) as [seg Hseg].
      subst paths0.
      rewrite (generate_lookup (camera scene) iter (traceDepth scene)
                 (dev_paths s) i seg Hx Hy) in Hi;
        [|rewrite Hpaths in Hlt; lia | exact Hseg].
      injection Hi as <-. cbn [remainingBounces primary generate_thread].
      lia.
    + fold npix. rewrite drop_ge by lia. constructor.
  - eexists. split; [reflexivity|]. cbn [dev_image dev_paths dev_intersections].
    split.
    { unfold session_ok. cbn [dev_image dev_paths].
      rewrite finalGather_length. fold npix.
      split; [exact Hx|]. split; [exact Hy|]. split; assumption. }
    split; [exact Hil|].
    destruct Hstop as [Hdepth | [_ Hrem]].
    + eapply Forall_impl; [exact Hall|]. intros p Hp. cbn beta in Hp. lia.
    + replace (Z.to_nat remaining') with 0%nat in Htail by lia.
      now rewrite drop_0 in Htail.
Qed.

End Termination.


(** *** The gather does not depend on the order of its threads *)

Lemma owner_perm (l l' : list PathSegment) (p : Z) :
  NoDup (map pixelIndex l) -> l' ≡ₚ l -> owner l' p = owner l p.
Proof.
  intros Hnd Hperm.
  assert (Hnd' : NoDup (map pixelIndex l')) by now rewrite Hperm.
  destruct (decide (p ∈ map pixelIndex l)) as [Hin|Hout].
  - destruct (owner_Some l p Hin) as (seg & -> & Hs & Hp).
    assert (Hin' : p ∈ map pixelIndex l') by now rewrite Hperm.
    destruct (owner_Some l' p Hin') as (seg' & -> & Hs' & Hp').
    f_equal. apply (NoDup_map_unique pixelIndex l); try assumption.
    + now rewrite <- Hperm.
    + congruence.
  - rewrite (owner_None l p Hout). apply owner_None. now rewrite Hperm.
Qed.

(** X11: when the first [nPaths] paths name pairwise distinct pixels,
    [finalGather] gives the same image in whatever order its threads run:
    each named pixel gains the colour of the one path naming it, and every
    other pixel, like the size of the image, stays as it was. *)
Theorem finalGather_thread_order (nPaths : Z) (image : list vec3)
    (iterationPaths order : list PathSegment) :
  let threads := take (Z.to_nat nPaths) iterationPaths in
  NoDup (map pixelIndex threads) ->
  order ≡ₚ threads ->
  fold_left gather_thread order image
    = finalGather nPaths image iterationPaths /\
  List.length (finalGather nPaths image iterationPaths)
    = List.length image /\
  (forall (p : nat) seg pix,
     seg ∈ threads -> pixelIndex seg = Z.of_nat p ->
     image !! p = Some pix ->
     finalGather nPaths image iterationPaths !! p
       = Some (vadd pix (color seg))) /\
  (forall p : nat,
     Z.of_nat p ∉ map pixelIndex threads ->
     finalGather nPaths image iterationPaths !! p = image !! p).
Proof.
  intros threads Hnd Hperm. unfold finalGather. fold threads.
  split; [|split; [|split]].
  - apply list_eq. intros p.
    rewrite !gather_fold by (assumption || now rewrite Hperm).
    now rewrite (owner_perm threads order).
  - apply (finalGather_length nPaths image iterationPaths).
  - intros p seg pix Hin Hp Hpix. rewrite gather_fold, Hpix by assumption.
    assert (Hel : Z.of_nat p ∈ map pixelIndex threads).
    { apply list_elem_of_fmap. exists seg. split; [now symmetry | assumption]. }
    destruct (owner_Some threads _ Hel) as (seg0 & -> & Hin0 & Hp0).
    assert (E : seg0 = seg).
    { apply (NoDup_map_unique pixelIndex threads); try assumption.
      congruence. }
    now rewrite E.
  - intros p Hp. rewrite gather_fold by assumption.
    rewrite (owner_None threads _ Hp). now destruct (image !! p).
Qed.


(** *** The copy to the display buffer *)

Lemma clamp_range (a lo hi : Z) : lo <= hi -> lo <= clamp a lo hi <= hi.
Proof. unfold clamp. lia. Qed.

Lemma pbo_channel_range (iter : Z) (c : float) :
  0 <= pbo_channel iter c <= 255.
Proof. unfold pbo_channel. apply clamp_range. lia. Qed.

Lemma to_uchar_channel (iter : Z) (c : float) :
  to_uchar (pbo_channel iter c) = pbo_channel iter c.
Proof.
  unfold to_uchar. apply Z.mod_small. pose proof (pbo_channel_range iter c).
  lia.
Qed.

(** X12: with a positive resolution, [sendImageToPBO] writes into every
    slot below [resolution.x * resolution.y] three channels within
    [[0, 255]], which the narrowing to [unsigned char] therefore leaves as
    the clamp made them, and [w = 0]; what the slot held does not matter;
    the slots behind, and the size of the buffer, stay. *)
Theorem sendImageToPBO_pixels (pbo : list uchar4) (resolution : ivec2)
    (iter : Z) (image : list vec3) :
  0 < ix resolution -> 0 < iy resolution ->
  let out := sendImageToPBO pbo resolution iter image in
  List.length out = List.length pbo /\
  (forall (i : nat) pix slot,
     image !! i = Some pix -> pbo !! i = Some slot ->
     Z.of_nat i < ix resolution * iy resolution ->
     out !! i = Some (mkuchar4 (pbo_channel iter (x pix))
                               (pbo_channel iter (y pix))
                               (pbo_channel iter (z pix)) 0) /\
     0 <= pbo_channel iter (x pix) <= 255 /\
     0 <= pbo_channel iter (y pix) <= 255 /\
     0 <= pbo_channel iter (z pix) <= 255) /\
  (forall i : nat, ix resolution * iy resolution <= Z.of_nat i ->
     out !! i = pbo !! i).
Proof.
  intros Hx Hy out. subst out. unfold sendImageToPBO.
  apply Z.ltb_lt in Hx, Hy. rewrite Hx, Hy. cbn [andb].
  split; [apply kernel_length|]. split.
  - intros i pix slot Hpix Hslot Hi.
    rewrite (kernel_lookup_Some _ _ _ _ _ Hslot).
    apply Z.ltb_lt in Hi. rewrite Hi, Hpix. unfold pbo_thread.
    rewrite !to_uchar_channel.
    split; [reflexivity|].
    split; [|split]; apply pbo_channel_range.
  - intros i Hi. rewrite kernel_lookup.
    destruct (Z.ltb_spec (Z.of_nat i) (ix resolution * iy resolution));
      [lia|].
    now destruct (pbo !! i).
Qed.

Lemma div_zero_num (a : float) :
  div zero a = S754_nan \/ exists s, div zero a = S754_zero s.
Proof.
  destruct a as [s|s| |s m e].
  - left. reflexivity.
  - right. exists s. destruct s; reflexivity.
  - left. reflexivity.
  - right. exists s. destruct s; reflexivity.
Qed.

(** X13: a cleared channel is shown as 0 whatever [iter] is, also when
    [iter] is 0 and the quotient is NaN; and for [iter = 0] every channel
    is shown as 255 when it is positive and as 0 otherwise. *)
Theorem pbo_channel_edges (iter : Z) (c : float) :
  pbo_channel iter zero = 0 /\
  pbo_channel iter S754_nan = 0 /\
  pbo_channel 0 c = if gt c zero then 255 else 0.
Proof.
  split; [|split].
  - unfold pbo_channel.
    destruct (div_zero_num (of_int iter)) as [-> | [[] ->]]; reflexivity.
  - unfold pbo_channel. rewrite div_nan_l. reflexivity.
  - unfold pbo_channel.
    destruct c as [[]|[]| |[] m e]; reflexivity.
Qed.

(** *** The fake shader *)

(** X14: [shadeFakeMaterial] never touches the bounce counter, the ray or
    the pixel index of a path it does not scatter; on an emissive hit it
    gives an active path the colour [shadeBSDFMaterial] gives it and differs
    only in leaving the path active, and on a miss it paints the path
    black, as [shadeBSDFMaterial] does without ambient light.  Its seed
    does not depend on the path's depth. *)
Theorem fake_shader_against_bsdf_shader (iter : Z)
    (materials : list Material) (idx : nat)
    (intersection : ShadeableIntersection) (seg : PathSegment) :
  let material := material_at materials (materialId intersection) in
  let fake := fake_thread iter materials idx intersection seg in
  (gt (t intersection) zero = false ->
   fake = set_color seg (splat zero) /\
   (0 < remainingBounces seg -> AMBIENT_LIGHT_ENABLE = false ->
    shade_thread iter materials idx intersection seg
    = set_remainingBounces fake 0)) /\
  (gt (t intersection) zero = true -> gt (emittance material) zero = true ->
   fake = set_color seg (vmul (color seg)
                              (vscale (mcolor material) (emittance material)))
   /\
   (0 < remainingBounces seg ->
    shade_thread iter materials idx intersection seg
    = set_remainingBounces fake (-1))) /\
  (gt (t intersection) zero = true -> gt (emittance material) zero = false ->
   fake = scatterRay seg (point intersection) (surfaceNormal intersection)
                     material (makeSeededRandomEngine iter (Z.of_nat idx) 0)).
Proof.
  intros material fake. subst fake material. unfold fake_thread.
  split; [|split].
  - intros Ht. rewrite Ht. split; [reflexivity|].
    intros Hrb Hamb. unfold shade_thread, ambient.
    destruct (Z.leb_spec (remainingBounces seg) 0); [lia|].
    rewrite Ht, Hamb. reflexivity.
  - intros Ht He. rewrite Ht, He. split; [reflexivity|].
    intros Hrb. unfold shade_thread.
    destruct (Z.leb_spec (remainingBounces seg) 0); [lia|].
    rewrite Ht, He.
    destruct (Z.geb_spec (remainingBounces seg) 0); [|lia].
    reflexivity.
  - intros Ht He. rewrite Ht, He. reflexivity.
Qed.


(** *** The sphere test on a ray it cannot place *)

Lemma add_nan_l (a : float) : add S754_nan a = S754_nan.
Proof. destruct a as [[]|[]| |[] ? ?]; reflexivity. Qed.

Lemma sub_nan_r (a : float) : sub a S754_nan = S754_nan.
Proof. destruct a as [[]|[]| |[] ? ?]; reflexivity. Qed.

Lemma getPointOnRay_nan (rt : Ray) :
  getPointOnRay rt S754_nan = splat S754_nan.
Proof.
  unfold getPointOnRay, vadd, scalev, splat. cbn [x y z].
  now rewrite sub_nan_l, !mul_nan_l, !add_nan_r.
Qed.

Lemma multiplyMV_nan (m : mat4) (w : float) :
  multiplyMV m (to_vec4 (splat S754_nan) w) = splat S754_nan.
Proof.
  unfold multiplyMV, mulMV, v4add, v4scale, to_vec4, to_vec3, splat.
  cbn [x y z x4 y4 z4 w4].
  now rewrite !mul_nan_r, !add_nan_l.
Qed.

Lemma vadd_nan_l (v : vec3) : vadd (splat S754_nan) v = splat S754_nan.
Proof. unfold vadd, splat. cbn [x y z]. now rewrite !add_nan_l. Qed.

Lemma length_to_nan (o : vec3) :
  length (vsub o (splat S754_nan)) = S754_nan.
Proof.
  unfold length, dot, vsub, splat. cbn [x y z].
  now rewrite !sub_nan_r, !mul_nan_l, !add_nan_l.
Qed.

Lemma normalize_nan : normalize (splat S754_nan) = splat S754_nan.
Proof.
  unfold normalize, vscale, splat. cbn [x y z]. now rewrite !mul_nan_l.
Qed.

(** X15: when the radicand of the sphere test is NaN (the ray could not be
    placed in object space), the test does not report [-1]: it returns NaN
    and writes NaN into the hit point and the normal.  The nearest-hit
    loop then keeps what it had, since NaN is not above 0. *)
Theorem sphere_nan_radicand (sphere : Geom) (r : Ray) (ip0 n0 : vec3) :
  is_nan (sphere_radicand (object_ray sphere r)) = true ->
  sphereIntersectionTest sphere r ip0 n0
    = mkResult S754_nan (splat S754_nan) (splat S754_nan) /\
  (type sphere = SPHERE ->
   forall triangles st i,
     kept st (nearest_step triangles r st i sphere)).
Proof.
  intros Hnan. apply is_nan_true in Hnan.
  assert (E : forall a b, sphereIntersectionTest sphere r a b
                = mkResult S754_nan (splat S754_nan) (splat S754_nan)).
  { intros a b. unfold sphereIntersectionTest, sphere_t1, sphere_t2.
    rewrite Hnan. rewrite lt_nan_l.
    change (sqrt S754_nan) with S754_nan.
    rewrite add_nan_r, sub_nan_r, lt_nan_l. cbn [andb].
    unfold gt. rewrite lt_nan_r. cbn [andb].
    change (fmaxf S754_nan S754_nan) with S754_nan.
    unfold sphere_hit.
    rewrite getPointOnRay_nan, !multiplyMV_nan, normalize_nan.
    destruct (moving sphere); rewrite ?vadd_nan_l, length_to_nan;
      reflexivity. }
  split; [apply E|].
  intros Hty triangles st i. apply nearest_step_skip.
  unfold geom_t, geom_hit, geom_test. rewrite Hty, E. cbn [ret].
  unfold gt at 1. now rewrite lt_nan_r.
Qed.


(** *** The hash is one-to-one on 32-bit words *)

(** Two numbers agree modulo [2^n] exactly when their low [n] bits agree. *)
Lemma mod_eq_bits (a b n : Z) :
  0 <= n ->
  (a mod 2 ^ n = b mod 2 ^ n <->
   forall i, 0 <= i < n -> Z.testbit a i = Z.testbit b i).
Proof.
  intros Hn. split.
  - intros E i Hi.
    rewrite <- (Z.mod_pow2_bits_low a n i), <- (Z.mod_pow2_bits_low b n i)
      by lia.
    now rewrite E.
  - intros H. apply Z.bits_inj'. intros i Hi.
    destruct (Z.lt_ge_cases i n).
    + rewrite !Z.mod_pow2_bits_low by lia. apply H. lia.
    + now rewrite !Z.mod_pow2_bits_high by lia.
Qed.

Lemma word_eq (a b : Z) :
  0 <= a < 2 ^ 32 -> 0 <= b < 2 ^ 32 ->
  a mod 2 ^ 32 = b mod 2 ^ 32 -> a = b.
Proof. intros Ha Hb. now rewrite !Z.mod_small by lia. Qed.

(** [a + c + (a << s)] is [a * (1 + 2^s) + c]: an odd multiple. *)
Lemma mul_odd_inj (k c a b : Z) :
  Z.gcd (2 ^ 32) k = 1 ->
  0 <= a < 2 ^ 32 -> 0 <= b < 2 ^ 32 ->
  (a * k + c) mod 2 ^ 32 = (b * k + c) mod 2 ^ 32 -> a = b.
Proof.
  intros Hk Ha Hb E.
  assert (Hd : (2 ^ 32 | k * (a - b))).
  { apply Z.mod_divide; [lia|].
    replace (k * (a - b)) with ((a * k + c) - (b * k + c)) by ring.
    rewrite Zminus_mod, E, Z.sub_diag. reflexivity. }
  apply Z.gauss in Hd; [|exact Hk].
  destruct Hd as [q Hq]. 
  assert (q = 0) by nia. lia.
Qed.

Lemma shl_add_inj (s c a b : Z) :
  0 <= s -> Z.gcd (2 ^ 32) (1 + 2 ^ s) = 1 ->
  0 <= a < 2 ^ 32 -> 0 <= b < 2 ^ 32 ->
  to_uint (to_uint (a + c) + to_uint (Z.shiftl a s)) =
  to_uint (to_uint (b + c) + to_uint (Z.shiftl b s)) -> a = b.
Proof.
  intros Hs Hk Ha Hb. unfold to_uint.
  rewrite <- !Z.add_mod, !Z.shiftl_mul_pow2 by lia.
  intros E. apply (mul_odd_inj (1 + 2 ^ s) c); try assumption.
  replace (a * (1 + 2 ^ s) + c) with (a + c + a * 2 ^ s) by ring.
  replace (b * (1 + 2 ^ s) + c) with (b + c + b * 2 ^ s) by ring.
  exact E.
Qed.

(** [a ^ c ^ (a >> s)] with [2 s >= 32]: the high bits are those of
    [a ^ c], and they fix the low ones. *)
Lemma shr_xor_inj (s c a b : Z) :
  16 <= s ->
  0 <= a < 2 ^ 32 -> 0 <= b < 2 ^ 32 ->
  Z.lxor (Z.lxor a c) (Z.shiftr a s) = Z.lxor (Z.lxor b c) (Z.shiftr b s) ->
  a = b.
Proof.
  intros Hs Ha Hb E.
  assert (Hbit : forall n, 0 <= n ->
            xorb (xorb (Z.testbit a n) (Z.testbit c n)) (Z.testbit a (n + s))
            = xorb (xorb (Z.testbit b n) (Z.testbit c n))
                   (Z.testbit b (n + s))).
  { intros n Hn. rewrite <- !Z.shiftr_spec, <- !Z.lxor_spec by lia.
    now rewrite E. }
  assert (Hhigh : forall n, 16 <= n -> Z.testbit a n = Z.testbit b n).
  { intros n Hn. specialize (Hbit n ltac:(lia)).
    rewrite (small_bits a 32 (n + s)), (small_bits b 32 (n + s)) in Hbit
      by lia.
    destruct (Z.testbit a n), (Z.testbit b n), (Z.testbit c n);
      (reflexivity || discriminate Hbit). }
  apply Z.bits_inj'. intros n Hn.
  destruct (Z.lt_ge_cases n 16); [|now apply Hhigh].
  specialize (Hbit n Hn). rewrite (Hhigh (n + s)) in Hbit by lia.
  destruct (Z.testbit a n), (Z.testbit b n), (Z.testbit c n),
    (Z.testbit b (n + s)); (reflexivity || discriminate Hbit).
Qed.

(** [(a + c) ^ (a << 9)]: bit by bit from the lowest, the shifted operand
    is already known. *)
Lemma add_xor_shl_inj (c a b : Z) :
  0 <= a < 2 ^ 32 -> 0 <= b < 2 ^ 32 ->
  Z.lxor (to_uint (a + c)) (to_uint (Z.shiftl a 9)) =
  Z.lxor (to_uint (b + c)) (to_uint (Z.shiftl b 9)) -> a = b.
Proof.
  intros Ha Hb E.
  assert (Hk : forall k : nat, (k <= 32)%nat ->
            a mod 2 ^ Z.of_nat k = b mod 2 ^ Z.of_nat k).
  { induction k as [|k IH]; intros Hle.
    - change (2 ^ Z.of_nat 0) with 1. now rewrite !Z.mod_1_r.
    - specialize (IH ltac:(lia)).
      set (n := Z.of_nat k) in *.
      replace (Z.of_nat (S k)) with (n + 1) by lia.
      assert (Hn : 0 <= n < 32) by lia.
      pose proof (proj1 (mod_eq_bits a b n ltac:(lia)) IH) as Hlow.
      (* the sums agree on the low n + 1 bits *)
      assert (Hsum : (a + c) mod 2 ^ (n + 1) = (b + c) mod 2 ^ (n + 1)).
      { apply mod_eq_bits; [lia|]. intros i Hi.
        assert (Ei : Z.testbit (Z.lxor (to_uint (a + c))
                                       (to_uint (Z.shiftl a 9))) i
                     = Z.testbit (Z.lxor (to_uint (b + c))
                                         (to_uint (Z.shiftl b 9))) i)
          by now rewrite E.
        unfold to_uint in Ei.
        rewrite !Z.lxor_spec, !Z.mod_pow2_bits_low, !Z.shiftl_spec in Ei
          by lia.
        assert (Hsh : Z.testbit a (i - 9) = Z.testbit b (i - 9)).
        { destruct (Z.lt_ge_cases i 9).
          - now rewrite !Z.testbit_neg_r by lia.
          - apply Hlow. lia. }
        rewrite Hsh in Ei.
        destruct (Z.testbit (a + c) i), (Z.testbit (b + c) i),
          (Z.testbit b (i - 9)); (reflexivity || discriminate Ei). }
      assert (Hd : (2 ^ (n + 1) | a - b)).
      { apply Z.mod_divide; [lia|].
        replace (a - b) with ((a + c) - (b + c)) by ring.
        rewrite Zminus_mod, Hsum, Z.sub_diag. reflexivity. }
      destruct Hd as [q Hq].
      replace a with (b + q * 2 ^ (n + 1)) by lia.
      now rewrite Z.mod_add by lia. }
  apply word_eq; try assumption. exact (Hk 32%nat ltac:(lia)).
Qed.

Lemma utilhash_word (a : Z) : 0 <= utilhash a < 2 ^ 32.
Proof.
  unfold utilhash.
  repeat first [ apply lxor_word | apply to_uint_word
               | apply shiftr_word; [lia|] | lia ].
Qed.

Lemma utilhash_inj_word (a b : Z) :
  0 <= a < 2 ^ 32 -> 0 <= b < 2 ^ 32 -> utilhash a = utilhash b -> a = b.
Proof.
  intros Ha Hb. unfold utilhash.
  assert (Ea : to_uint a = a) by (apply Z.mod_small; lia).
  assert (Eb : to_uint b = b) by (apply Z.mod_small; lia).
  rewrite Ea, Eb. cbv zeta. intros E.
  apply shr_xor_inj in E; [|lia| |].
  2,3: apply to_uint_word.
  apply shl_add_inj in E; [|lia|reflexivity| |].
  2,3: apply lxor_word; apply to_uint_word.
  apply add_xor_shl_inj in E.
  2,3: apply to_uint_word.
  apply shl_add_inj in E; [|lia|reflexivity| |].
  2,3: apply lxor_word;
       [apply lxor_word; [apply to_uint_word | lia]
       |apply shiftr_word; [lia | apply to_uint_word]].
  apply shr_xor_inj in E; [|lia| |].
  2,3: apply to_uint_word.
  apply shl_add_inj in E; [|lia|reflexivity| |]; assumption.
Qed.

Lemma utilhash_inj (u v : Z) : utilhash u = utilhash v -> to_uint u = to_uint v.
Proof.
  intros E. apply utilhash_inj_word; try apply to_uint_word.
  now rewrite !utilhash_to_uint.
Qed.

Lemma seed_is_word (u w : Z) :
  to_uint (Z.lxor (utilhash u) (utilhash w))
  = Z.lxor (utilhash u) (utilhash w).
Proof. apply Z.mod_small. apply lxor_word; apply utilhash_word. Qed.

Lemma lxor_cancel_r (a b c : Z) : Z.lxor a c = Z.lxor b c -> a = b.
Proof.
  intros E.
  rewrite <- (Z.lxor_0_r a), <- (Z.lxor_0_r b), <- (Z.lxor_nilpotent c),
    <- !Z.lxor_assoc.
  now rewrite E.
Qed.

Lemma seed_cancel (u v w : Z) :
  to_uint (Z.lxor (utilhash u) (utilhash w))
  = to_uint (Z.lxor (utilhash v) (utilhash w)) ->
  utilhash u = utilhash v.
Proof.
  rewrite !seed_is_word. apply lxor_cancel_r.
Qed.

Lemma mk_engine_inj (a b : Z) : mk_engine a = mk_engine b -> a = b.
Proof. intros E. exact (f_equal engine_seed E). Qed.

Lemma engine_seed_eq (iter iter' index index' depth depth' : Z) :
  makeSeededRandomEngine iter index depth
  = makeSeededRandomEngine iter' index' depth' ->
  to_uint (Z.lxor (utilhash (seed_word iter depth)) (utilhash index))
  = to_uint (Z.lxor (utilhash (seed_word iter' depth')) (utilhash index')).
Proof.
  rewrite !makeSeededRandomEngine_word. apply mk_engine_inj.
Qed.

(** X16: [utilhash] is one-to-one on 32-bit words.  So, within [2^22]
    iterations and 512 depths, the engines of one path at two different
    (iteration, depth) pairs have different seeds, and so have the engines
    of two different paths at the same iteration and depth. *)
Theorem distinct_bounces_distinct_seeds (a b : Z) :
  (utilhash a = utilhash b -> to_uint a = to_uint b) /\
  (forall iter iter' depth depth' index,
      0 <= iter < 2 ^ 22 -> 0 <= iter' < 2 ^ 22 ->
      0 <= depth < 512 -> 0 <= depth' < 512 ->
      makeSeededRandomEngine iter index depth
      = makeSeededRandomEngine iter' index depth' ->
      iter = iter' /\ depth = depth') /\
  (forall iter depth index index',
      0 <= index < 2 ^ 32 -> 0 <= index' < 2 ^ 32 ->
      makeSeededRandomEngine iter index depth
      = makeSeededRandomEngine iter index' depth ->
      index = index').
Proof.
  split; [apply utilhash_inj|]. split.
  - intros iter iter' depth depth' index Hi Hi' Hd Hd' E.
    apply engine_seed_eq, seed_cancel, utilhash_inj in E.
    rewrite !seed_word_value in E by lia.
    unfold to_uint in E. rewrite !Z.mod_small in E by lia. lia.
  - intros iter depth index index' Hi Hi' E.
    apply engine_seed_eq in E.
    rewrite (Z.lxor_comm _ (utilhash index)),
            (Z.lxor_comm _ (utilhash index')) in E.
    apply seed_cancel, utilhash_inj in E.
    unfold to_uint in E. now rewrite !Z.mod_small in E by lia.
Qed.


(** *** The seed of a shading thread, turn by turn *)

(** An active path that is shaded stays active only by scattering, which
    takes one bounce off its counter. *)
Lemma shade_thread_countdown iter materials idx isect seg (k : Z) :
  (forall seg p n m rng,
      remainingBounces (scatterRay seg p n m rng) = remainingBounces seg) ->
  k < 2 ^ 31 ->
  (0 < remainingBounces seg -> remainingBounces seg = k) ->
  0 < remainingBounces (shade_thread iter materials idx isect seg) ->
  remainingBounces (shade_thread iter materials idx isect seg) = k - 1.
Proof.
  intros Hsc Hk Hseg. unfold shade_thread.
  destruct (Z.leb_spec (remainingBounces seg) 0) as [|Hpos]; [lia|].
  specialize (Hseg Hpos).
  destruct (gt (t isect) zero);
    [|cbn [remainingBounces set_remainingBounces]; lia].
  destruct (gt (emittance _) zero).
  - destruct (Z.geb_spec (remainingBounces seg) 0);
      cbn [remainingBounces set_remainingBounces]; lia.
  - assert (E : remainingBounces
                  (set_remainingBounces
                     (scatterRay seg (point isect) (surfaceNormal isect)
                        (material_at materials (materialId isect))
                        (shade_rng iter idx seg))
                     (to_int
                        (remainingBounces
                           (scatterRay seg (point isect) (surfaceNormal isect)
                              (material_at materials (materialId isect))
                              (shade_rng iter idx seg)) - 1)))
                = k - 1).
    { cbn [remainingBounces set_remainingBounces].
      rewrite Hsc, Hseg. apply to_int_small. lia. }
    cbn zeta.
    match goal with |- context [if ?c then _ else _] => destruct c end;
      [unfold set_color; cbn [remainingBounces]|]; rewrite E; lia.
Qed.

(** Without compaction [remaining_paths] never changes, and the loop goes
    on exactly while [depth < traceDepth]. *)
Lemma turn_state_remaining scene iter (d : nat) paths remaining :
  STREAM_COMPACTION = false ->
  snd (turn_state scene iter d paths remaining) = remaining.
Proof.
  intros Hc. induction d as [|d IH]; [reflexivity|].
  cbn [turn_state snd]. rewrite trace_round_remaining. cbn zeta.
  now rewrite Hc.
Qed.

Lemma trace_round_incomplete scene iter depth remaining paths :
  STREAM_COMPACTION = false ->
  depth + 1 < traceDepth scene ->
  round_complete (trace_round scene iter depth remaining paths) = false.
Proof.
  intros Hc Hd. unfold trace_round, round_complete. cbn zeta.
  rewrite Hc. cbn [snd].
  destruct (Z.geb_spec (depth + 1) (traceDepth scene)); [lia | reflexivity].
Qed.

(** The loop reaches turn [d] in the state [turn_state] describes. *)
Lemma trace_loop_reaches scene iter paths remaining (d : nat) :
  STREAM_COMPACTION = false ->
  Z.of_nat d < Z.max 1 (traceDepth scene) ->
  forall fuel : nat,
    trace_loop (d + fuel) scene iter 0 remaining paths =
    trace_loop fuel scene iter (Z.of_nat d)
               (snd (turn_state scene iter d paths remaining))
               (fst (turn_state scene iter d paths remaining)).
Proof.
  intros Hc. induction d as [|d IH]; intros Hd fuel; [reflexivity|].
  replace (S d + fuel)%nat with (d + S fuel)%nat by lia.
  rewrite IH by lia. rewrite trace_loop_step. cbn zeta.
  rewrite trace_round_incomplete by (assumption || lia).
  cbn [turn_state fst snd].
  now replace (Z.of_nat (S d)) with (Z.of_nat d + 1) by lia.
Qed.

(** Without compaction, and with [scatterRay] leaving the pixel index and
    the bounce counter to its caller, every path stays in the slot of its
    pixel, and a path still active at turn [d] has [traceDepth - d] bounces
    left. *)
Lemma turn_paths_countdown scene iter s (d : nat) :
  STREAM_COMPACTION = false ->
  (forall seg p n m rng,
      remainingBounces (scatterRay seg p n m rng) = remainingBounces seg) ->
  (forall seg p n m rng,
      pixelIndex (scatterRay seg p n m rng) = pixelIndex seg) ->
  session_ok scene s ->
  traceDepth scene < 2 ^ 31 ->
  List.length (turn_paths scene iter s d)
    = Z.to_nat (pixelcount (camera scene)) /\
  forall (i : nat) sg,
    turn_paths scene iter s d !! i = Some sg ->
    pixelIndex sg = Z.of_nat i /\
    (0 < remainingBounces sg ->
     remainingBounces sg = traceDepth scene - Z.of_nat d).
Proof.
  intros Hc Hrb Hpx Hok Htd. pose proof Hok as (Hx & Hy & _ & Hlen).
  unfold turn_paths. induction d as [|d [IHlen IH]].
  - cbn [turn_state fst]. split; [now rewrite generate_length|].
    intros i sg Hi.
    assert (Hlt : (i < List.length (dev_paths s))%nat).
    { apply lookup_lt_Some in Hi. now rewrite generate_length in Hi. }
    destruct (lookup_lt_is_Some_2 _ _ Hlt) as [seg Hseg].
    rewrite (generate_lookup (camera scene) iter (traceDepth scene)
               (dev_paths s) i seg Hx Hy) in Hi by (lia || assumption).
    injection Hi as <-. split; [now apply primary_pixelIndex|].
    intros _. cbn [remainingBounces primary generate_thread]. lia.
  - cbn [turn_state fst]. rewrite trace_round_paths. cbn zeta.
    rewrite Hc, turn_state_remaining by assumption.
    set (ps := fst (turn_state _ _ _ _ _)) in *.
    set (isects := computeIntersections _ _ _ _ _ _).
    split; [now rewrite shade_length|].
    intros i sg Hi.
    assert (Hlt : (i < List.length ps)%nat).
    { apply lookup_lt_Some in Hi. now rewrite shade_length in Hi. }
    destruct (lookup_lt_is_Some_2 _ _ Hlt) as [seg Hseg].
    rewrite (shade_lookup _ _ _ _ _ _ _ Hseg) in Hi.
    destruct (IH i seg Hseg) as [Hpi Hcount].
    destruct (Z.ltb_spec (Z.of_nat i) (pixelcount (camera scene)));
      [|lia].
    destruct (isects !! i) as [isect|] eqn:Hisect.
    + injection Hi as <-. split.
      * now rewrite (shade_thread_pixelIndex Hpx).
      * intros Hact.
        rewrite (shade_thread_countdown iter (materials scene) i isect seg
                   (traceDepth scene - Z.of_nat d) Hrb) by (lia || assumption).
        lia.
    + exfalso. apply lookup_ge_None in Hisect. subst isects.
      unfold computeIntersections in Hisect.
      rewrite kernel_length, length_replicate in Hisect. lia.
Qed.

(** C2, as amended: the engine of a shading thread is seeded with a fixed
    integer hash of three numbers and nothing else: the iteration, the
    index of the thread's slot in the path array, and the path's
    remaining-bounce counter; two invocations that agree on these get the
    same seed, whatever else differs, and the engine built from it is the
    one [scatterRay] receives.  With compaction off (and [scatterRay]
    leaving the pixel index and the counter alone) the depth loop reaches
    turn [d] with every path in the slot of its pixel and every active path
    at [traceDepth - d] bounces, so that the seed is the hash of the
    iteration, the pixel index and [traceDepth - d]: equal (iteration,
    pixel, depth) give equal seeds between runs of the same trace depth. *)
Theorem seed_of_shading_thread (iter : Z) (idx : nat) (seg : PathSegment) :
  shade_rng iter idx seg =
  mk_engine
    (to_uint
       (to_int
          (Z.lxor
             (utilhash
                (to_int (Z.lor (Z.lor (to_int (Z.shiftl 1 31))
                                      (to_int (Z.shiftl (remainingBounces seg)
                                                        22)))
                               iter)))
             (utilhash (Z.of_nat idx))))) /\
  (forall iter' idx' seg',
      iter = iter' -> idx = idx' ->
      remainingBounces seg = remainingBounces seg' ->
      shade_rng iter idx seg = shade_rng iter' idx' seg') /\
  (forall materials isect,
      0 < remainingBounces seg ->
      gt (t isect) zero = true ->
      gt (emittance (material_at materials (materialId isect))) zero = false ->
      shade_thread iter materials idx isect seg =
      after_scatter
        (scatterRay seg (point isect) (surfaceNormal isect)
                    (material_at materials (materialId isect))
                    (shade_rng iter idx seg))) /\
  (forall (scene : Scene) (s : Session) (d fuel : nat),
      STREAM_COMPACTION = false ->
      Z.of_nat d < Z.max 1 (traceDepth scene) ->
      trace_loop (d + fuel) scene iter 0 (pixelcount (camera scene))
                 (turn_paths scene iter s 0) =
      trace_loop fuel scene iter (Z.of_nat d) (pixelcount (camera scene))
                 (turn_paths scene iter s d)) /\
  (forall (scene : Scene) (s : Session) (d : nat) (sg : PathSegment),
      STREAM_COMPACTION = false ->
      (forall seg p n m rng,
          remainingBounces (scatterRay seg p n m rng)
          = remainingBounces seg) ->
      (forall seg p n m rng,
          pixelIndex (scatterRay seg p n m rng) = pixelIndex seg) ->
      session_ok scene s ->
      traceDepth scene < 2 ^ 31 ->
      turn_paths scene iter s d !! idx = Some sg ->
      0 < remainingBounces sg ->
      pixelIndex sg = Z.of_nat idx /\
      remainingBounces sg = traceDepth scene - Z.of_nat d /\
      shade_rng iter idx sg =
      makeSeededRandomEngine iter (pixelIndex sg)
                             (traceDepth scene - Z.of_nat d)).
Proof.
  split; [reflexivity|]. split; [|split; [|split]].
  - intros iter' idx' seg' <- <- Hrb. unfold shade_rng. now rewrite Hrb.
  - intros. now apply shade_thread_scatter.
  - intros scene s d fuel Hc Hd. unfold turn_paths.
    rewrite (trace_loop_reaches scene iter _ _ d Hc Hd fuel).
    now rewrite turn_state_remaining.
  - intros scene s d sg Hc Hrb Hpx Hok Htd Hsg Hact.
    destruct (turn_paths_countdown scene iter s d Hc Hrb Hpx Hok Htd)
      as [_ Hslots].
    destruct (Hslots idx sg Hsg) as [Hpi Hcount].
    specialize (Hcount Hact).
    split; [exact Hpi|]. split; [exact Hcount|].
    unfold shade_rng. now rewrite Hpi, Hcount.
Qed.

End PathTracer.

(* ------------------------------------------------------------------ *)
(** ** The statements on concrete input *)

Section Runs.

(** The parameters of the development, fixed: GLM's triangle test, the
    bounding box and ambient light on, compaction off as in the sources. *)
#[local] Abbreviation shade := (shade_thread Demo.scatter true Demo.grey).
#[local] Abbreviation loop :=
  (trace_loop Demo.scatter glm.intersectRayTriangle true true false
              Demo.grey Demo.triangle (Demo.unit_geom CUBE)).
#[local] Abbreviation run :=
  (pathtrace Demo.scatter glm.intersectRayTriangle true true false
             Demo.grey Demo.triangle (Demo.unit_geom CUBE)).
#[local] Abbreviation runs :=
  (render Demo.scatter glm.intersectRayTriangle true true false
          Demo.grey Demo.triangle (Demo.unit_geom CUBE)).
#[local] Abbreviation mesh_test :=
  (meshIntersectionTest glm.intersectRayTriangle true Demo.triangle).
#[local] Abbreviation nearest :=
  (intersect_thread glm.intersectRayTriangle true Demo.triangle
                    (Demo.unit_geom CUBE)).
#[local] Abbreviation init := (pathtraceInit (BSDF := unit) Demo.blank_path).
#[local] Abbreviation turn :=
  (turn_paths Demo.scatter glm.intersectRayTriangle true true false
              Demo.grey Demo.triangle (Demo.unit_geom CUBE)).
#[local] Abbreviation intersections :=
  (computeIntersections glm.intersectRayTriangle true Demo.triangle
                        (Demo.unit_geom CUBE)).

(** C1, at a failing input: one triangle with the axes as vertex normals,
    hit straight from above at the point with barycentric weights
    (1/4, 1/4, 1/2).  The triangle test reports (1/4, 1/2, 5), 5 being the
    ray parameter; the normal returned is the normalised (1/4, 1/2, 5), the
    three weights do not sum to 1, and the normal is not the normalised
    barycentric combination (1/4, 1/4, 1/2). *)
Theorem mesh_normal_weights_include_ray_parameter :
  let res := mesh_test (Demo.unit_geom MESH) Demo.down_ray vec3_0 vec3_0
                       [Demo.triangle] in
  tri_hit glm.intersectRayTriangle Demo.triangle
          (object_ray (Demo.unit_geom MESH) Demo.down_ray) [Demo.triangle] 0
    = Some (mk3 Demo.quarter half (Demo.f 5)) /\
  gt (ret res) zero = true /\
  normal res = normalize (mk3 Demo.quarter half (Demo.f 5)) /\
  add (add Demo.quarter half) (Demo.f 5) <> one /\
  normal res <> normalize (mk3 Demo.quarter Demo.quarter half).
Proof.
  vm_compute. repeat split; discriminate.
Qed.

(** C2, as amended, in the grey sphere with trace depth 3: the path of
    pixel 3 is still active at turn 1, with 2 bounces left, and its thread
    seeds the engine with the hash of (1, 3, 2). *)
Lemma seed_of_shading_thread_witness :
  let sc := Demo.matte_scene 3 in
  ((forall seg p n m rng,
       remainingBounces (Demo.scatter seg p n m rng) = remainingBounces seg) /\
   (forall seg p n m rng,
       pixelIndex (Demo.scatter seg p n m rng) = pixelIndex seg) /\
   session_ok sc (init sc) /\
   traceDepth sc < 2 ^ 31) /\
  exists sg,
    turn sc 1 (init sc) 1 !! 3%nat = Some sg /\
    0 < remainingBounces sg /\
    shade_rng 1 3 sg = makeSeededRandomEngine 1 3 2.
Proof.
  intros sc.
  assert (Hrb : forall seg p n m rng,
             remainingBounces (Demo.scatter seg p n m rng)
             = remainingBounces seg) by reflexivity.
  assert (Hpx : forall seg p n m rng,
             pixelIndex (Demo.scatter seg p n m rng) = pixelIndex seg)
    by reflexivity.
  assert (Hok : session_ok sc (init sc)) by (repeat split; reflexivity).
  assert (Htd : traceDepth sc < 2 ^ 31) by (cbn; lia).
  split; [repeat split; (exact Hrb || exact Hpx || exact Htd || reflexivity)|].
  assert (Hq : remainingBounces <$> turn sc 1 (init sc) 1 !! 3%nat = Some 2)
    by (vm_compute; reflexivity).
  destruct (turn sc 1 (init sc) 1 !! 3%nat) as [sg|] eqn:E;
    [|discriminate Hq].
  injection Hq as Hq.
  assert (Hact : 0 < remainingBounces sg) by (rewrite Hq; lia).
  exists sg. split; [reflexivity|]. split; [exact Hact|].
  destruct (proj2 (proj2 (proj2 (proj2
              (seed_of_shading_thread Demo.scatter glm.intersectRayTriangle
                 true true false Demo.grey Demo.triangle
                 (Demo.unit_geom CUBE) 1 3%nat sg))))
              sc (init sc) 1%nat sg eq_refl Hrb Hpx Hok Htd E Hact)
    as (Hpi & _ & Hseed).
  rewrite Hpi in Hseed. exact Hseed.
Defined.

(** C2, as stated, fails: two runs of the same scene, one with trace depth
    3 and one with trace depth 2.  In both, the path of pixel 3 is shaded at
    depth 0 of iteration 1 in slot 3 and hits the grey sphere, so its thread
    seeds an engine; the triple (1, 3, 0) is the same, the seeds are not. *)
Lemma same_triple_counterexample :
  let paths (depth : Z) :=
    turn (Demo.matte_scene depth) 1 (init (Demo.matte_scene depth)) 0 in
  let hit (depth : Z) :=
    (fun i => gt (t i) zero)
      <$> intersections 0 4 (paths depth) (geoms (Demo.matte_scene depth))
                        (replicate 4 zero_intersection) [] !! 3%nat in
  pixelIndex <$> paths 3 !! 3%nat = Some 3 /\
  pixelIndex <$> paths 2 !! 3%nat = Some 3 /\
  hit 3 = Some true /\ hit 2 = Some true /\
  shade_rng 1 3 <$> paths 3 !! 3%nat = Some (mk_engine 1515164261) /\
  shade_rng 1 3 <$> paths 2 !! 3%nat = Some (mk_engine 1193050894) /\
  shade_rng 1 3 <$> paths 3 !! 3%nat <> shade_rng 1 3 <$> paths 2 !! 3%nat.
Proof. vm_compute. repeat split; discriminate. Qed.

(** C6, as stated, fails: the camera sits inside a sphere scaled by [2^66];
    the sphere test returns a positive [t] (the distance overflows to
    [+inf]), yet the thread records the miss sentinel. *)
Lemma nearest_hit_counterexample :
  let seg := mkPath Demo.up_ray vec3_0 0 1 in
  gt (ret (sphereIntersectionTest Demo.huge_sphere (ray seg) vec3_0 vec3_0))
     zero = true /\
  t (nearest [Demo.huge_sphere] [] seg zero_intersection) = minus_one.
Proof. vm_compute. split; reflexivity. Qed.

(** C10 on a two-slot array whose first path is terminated. *)
Lemma terminated_segment_is_frozen_witness :
  ([Demo.dead_path; Demo.live_path] !! 0%nat = Some Demo.dead_path /\
   remainingBounces Demo.dead_path <= 0 /\
   (0 < 4)%nat /\
   traceDepth Demo.empty_scene - 0 <= Z.of_nat 4) /\
  exists paths' isects,
    loop 4%nat Demo.empty_scene 1 0 2 [Demo.dead_path; Demo.live_path]
      = Some (paths', isects) /\
    paths' !! 0%nat = Some Demo.dead_path.
Proof.
  assert (H1 : [Demo.dead_path; Demo.live_path] !! 0%nat = Some Demo.dead_path)
    by reflexivity.
  assert (H2 : remainingBounces Demo.dead_path <= 0) by (cbn; lia).
  assert (H3 : (0 < 4)%nat) by lia.
  assert (H4 : traceDepth Demo.empty_scene - 0 <= Z.of_nat 4) by (cbn; lia).
  split; [repeat split; assumption|].
  destruct (terminated_segment_is_frozen Demo.scatter glm.intersectRayTriangle
              true true false Demo.grey Demo.triangle (Demo.unit_geom CUBE)
              Demo.empty_scene 1 0 2 4%nat
              [Demo.dead_path; Demo.live_path] 0%nat Demo.dead_path
              H1 H2 H3 H4) as (_ & paths' & isects & Hl & _ & Hpos).
  exists paths', isects. split; [exact Hl | exact (Hpos eq_refl)].
Defined.

(** C3 on the lamp scene: a 2x2 camera inside a white sphere of emittance 5,
    trace depth 1, a freshly initialised session. *)
Lemma emissive_hit_ends_path_witness :
  (session_ok Demo.lamp_scene (init Demo.lamp_scene) /\
   geoms Demo.lamp_scene = [Demo.unit_geom SPHERE] /\
   type (Demo.unit_geom SPHERE) = SPHERE /\
   0 < traceDepth Demo.lamp_scene) /\
  exists s',
    run Demo.lamp_scene 1 (init Demo.lamp_scene) = Some s' /\
    forall p : nat, (p < 4)%nat ->
      dev_image s' !! p = Some (splat (of_int 5)).
Proof.
  assert (Hok : session_ok Demo.lamp_scene (init Demo.lamp_scene))
    by (repeat split; reflexivity).
  assert (Hfill : forall (i : nat) seg,
             dev_paths (init Demo.lamp_scene) !! i = Some seg ->
             candidate
               (ret (sphereIntersectionTest (Demo.unit_geom SPHERE)
                       (ray (primary (camera Demo.lamp_scene)
                                     (traceDepth Demo.lamp_scene) i seg))
                       vec3_0 vec3_0)) = true).
  { intros i seg H.
    destruct i as [|[|[|[|i]]]]; try discriminate H;
      injection H as <-; vm_compute; reflexivity. }
  split; [repeat split; (exact Hok || reflexivity)|].
  destruct (emissive_hit_ends_path Demo.scatter glm.intersectRayTriangle
              true true false Demo.grey Demo.triangle (Demo.unit_geom CUBE)
              Demo.lamp_scene (Demo.unit_geom SPHERE) (init Demo.lamp_scene)
              Hok eq_refl eq_refl eq_refl eq_refl eq_refl Hfill)
    as [_ Hrun].
  destruct (Hrun 1) as (s' & Hs' & Hpix).
  exists s'. split; [exact Hs'|].
  intros p Hp. destruct (Hpix p Hp) as (seg & _ & _ & _ & _ & Himg).
  apply Himg.
  destruct p as [|[|[|[|p]]]]; try reflexivity. exfalso. lia.
Defined.

(** C4 on the unit cube: a ray from above is accepted; a slab value that
    is NaN (direction component 0, origin on the slab plane) leaves the
    entry as it was. *)
Lemma box_accept_rule_witness :
  ret (boxIntersectionTest (Demo.unit_geom CUBE) Demo.down_ray vec3_0 vec3_0)
    <> minus_one /\
  (is_nan (slab_ta (mkRay (mk3 half zero (Demo.f (-2))) (Demo.v 0 0 1)
                          zero) 0) = true /\
   tmin (box_axis (mkRay (mk3 half zero (Demo.f (-2))) (Demo.v 0 0 1)
                         zero) slab_init 0) = tmin slab_init).
Proof.
  pose proof (box_accept_rule (Demo.unit_geom CUBE) Demo.down_ray
                vec3_0 vec3_0) as (_ & Hiff & Hnan & _).
  split.
  - intros H. apply Hiff in H. vm_compute in H. discriminate H.
  - assert (E : is_nan (slab_ta (mkRay (mk3 half zero (Demo.f (-2)))
                                       (Demo.v 0 0 1) zero) 0) = true)
      by (vm_compute; reflexivity).
    split; [exact E|].
    exact (proj1 (proj1 (Hnan _ slab_init 0%nat) E)).
Defined.

(** C5 on the unit sphere seen from [z = 5]: both roots are positive and the
    smaller one is taken. *)
Lemma sphere_root_rule_witness :
  let rt := object_ray (Demo.unit_geom SPHERE) Demo.down_ray in
  (lt (sphere_radicand rt) zero = false /\
   gt (sphere_t1 rt) zero && gt (sphere_t2 rt) zero = true) /\
  le (fminf (sphere_t1 rt) (sphere_t2 rt)) (sphere_t1 rt) = true /\
  ret (sphereIntersectionTest (Demo.unit_geom SPHERE) Demo.down_ray
                              vec3_0 vec3_0)
  = length (vsub (origin Demo.down_ray)
              (sphere_hit_point (Demo.unit_geom SPHERE) Demo.down_ray
                 (fminf (sphere_t1 rt) (sphere_t2 rt)))).
Proof.
  intros rt.
  assert (H1 : lt (sphere_radicand rt) zero = false) by (vm_compute; reflexivity).
  assert (H2 : gt (sphere_t1 rt) zero && gt (sphere_t2 rt) zero = true)
    by (vm_compute; reflexivity).
  split; [split; assumption|].
  pose proof (sphere_root_rule (Demo.unit_geom SPHERE) Demo.down_ray
                vec3_0 vec3_0) as (_ & _ & Hpos & _).
  destruct (Hpos H1 H2) as (Hres & Hle & _).
  split; [exact Hle|].
  fold rt in Hres. rewrite Hres. reflexivity.
Defined.

(** C7 on the empty scene with trace depth 3. *)
Lemma miss_takes_sky_witness :
  (session_ok Demo.empty_scene (init Demo.empty_scene) /\
   geoms Demo.empty_scene = [] /\
   0 < traceDepth Demo.empty_scene) /\
  exists s',
    run Demo.empty_scene 1 (init Demo.empty_scene) = Some s' /\
    forall p : nat, (p < 4)%nat ->
      dev_image s' !! p =
      Some (vadd vec3_0
              (vmul (mk3 one one one)
                    (sky (primary_direction Demo.cam p)))).
Proof.
  assert (Hok : session_ok Demo.empty_scene (init Demo.empty_scene))
    by (repeat split; reflexivity).
  split; [repeat split; (exact Hok || reflexivity)|].
  destruct (miss_takes_sky Demo.scatter glm.intersectRayTriangle
              true true false Demo.grey Demo.triangle (Demo.unit_geom CUBE))
    as (_ & _ & Hrun & _).
  destruct (Hrun Demo.empty_scene (init Demo.empty_scene) Hok eq_refl
                 eq_refl 1) as (s' & Hs' & Hpix).
  exists s'. split; [exact Hs'|].
  intros p Hp.
  destruct (Hpix p Hp) as (seg & pix & _ & Hc & _ & H0 & H1).
  rewrite H1, Hc.
  assert (pix = vec3_0) as ->; [|reflexivity].
  destruct p as [|[|[|[|p]]]]; try (injection H0 as <-; reflexivity).
  exfalso. lia.
Defined.

(** C7, as stated, fails for a trace depth of 0: the scene is empty and
    ambient lighting is on, yet no path is shaded, and a call turns the
    cleared image white at every pixel, where the gradient is not white. *)
Lemma miss_takes_sky_counterexample :
  geoms Demo.depthless_scene = [] /\
  option_map dev_image
             (run Demo.depthless_scene 1 (init Demo.depthless_scene))
  = Some (replicate 4 (mk3 one one one)) /\
  Forall (fun p : nat =>
            vadd vec3_0
                 (vmul (mk3 one one one) (sky (primary_direction Demo.cam p)))
            <> mk3 one one one)
         [0; 1; 2; 3]%nat.
Proof.
  split; [reflexivity|]. split; [vm_compute; reflexivity|].
  repeat constructor; vm_compute; discriminate.
Qed.

(** C8 on an array that is already all active. *)
Lemma compaction_partitions_witness :
  Forall (fun p => 0 < remainingBounces p)
         (take (Z.to_nat 2) [Demo.live_path; Demo.live_path]) /\
  fst (compact 2 [Demo.live_path; Demo.live_path])
  = [Demo.live_path; Demo.live_path] /\
  snd (compact 2 [Demo.live_path; Demo.live_path]) = 2.
Proof.
  assert (H : Forall (fun p => 0 < remainingBounces p)
                     (take (Z.to_nat 2) [Demo.live_path; Demo.live_path]))
    by (repeat constructor).
  split; [exact H|].
  pose proof (compaction_partitions 2 [Demo.live_path; Demo.live_path])
    as (_ & _ & _ & _ & _ & _ & _ & Hcount & Hact & _).
  split; [exact (proj1 (Hact H)) | exact Hcount].
Defined.



(** X3 at iteration 3, depth 2, path 7. *)
Lemma seed_word_is_injective_witness :
  (0 <= 3 < 2 ^ 22 /\ 0 <= 2 < 512) /\
  makeSeededRandomEngine 3 7 2 =
  mk_engine (to_uint (Z.lxor (utilhash (2 ^ 31 + 2 * 2 ^ 22 + 3))
                             (utilhash 7))).
Proof.
  assert (H1 : 0 <= 3 < 2 ^ 22) by lia.
  assert (H2 : 0 <= 2 < 512) by lia.
  split; [split; assumption|].
  exact (proj1 (seed_word_is_injective 3 3 2 2 7 H1 H1 H2 H2)).
Defined.

(** X5 on a triangle shrunk to a point. *)
Lemma triangleIntersect_degenerate_witness :
  tri_S Demo.point_triangle = S754_zero false /\
  triangleIntersect Demo.down_ray Demo.point_triangle vec3_0
  = (minus_one, vec3_0).
Proof.
  assert (H : tri_S Demo.point_triangle = S754_zero false)
    by (vm_compute; reflexivity).
  split; [exact H|].
  exact (triangleIntersect_degenerate Demo.down_ray Demo.point_triangle
           vec3_0 false H).
Defined.

(** X6 on the unit cube seen from above: both tests accept. *)
Lemma bounding_test_of_unit_cube_witness :
  boundingIntersectionTest (box_ray (Demo.unit_geom CUBE) Demo.down_ray)
                           (splat (neg half)) (splat half) = true /\
  ret (boxIntersectionTest (Demo.unit_geom CUBE) Demo.down_ray vec3_0 vec3_0)
    <> minus_one.
Proof.
  assert (H : boundingIntersectionTest
                (box_ray (Demo.unit_geom CUBE) Demo.down_ray)
                (splat (neg half)) (splat half) = true)
    by (vm_compute; reflexivity).
  split; [exact H|].
  intros Hret.
  apply (proj2 (bounding_test_of_unit_cube (Demo.unit_geom CUBE)
                  Demo.down_ray vec3_0 vec3_0)) in Hret.
  rewrite H in Hret. discriminate Hret.
Defined.

(** X7 on the one-triangle mesh seen from above, and on a mesh record with
    an empty range. *)
Lemma meshIntersectionTest_hit_witness :
  let res := mesh_test (Demo.unit_geom MESH) Demo.down_ray vec3_0 vec3_0
                       [Demo.triangle] in
  (res <> mkResult minus_one vec3_0 vec3_0 /\
   endIndex Demo.empty_mesh < startIndex Demo.empty_mesh) /\
  ret res = length (vsub (origin Demo.down_ray) (intersectionPoint res)) /\
  mesh_test Demo.empty_mesh Demo.down_ray vec3_0 vec3_0 [Demo.triangle]
  = mkResult minus_one vec3_0 vec3_0.
Proof.
  intros res.
  assert (Hhit : res <> mkResult minus_one vec3_0 vec3_0)
    by (vm_compute; discriminate).
  assert (Hempty : endIndex Demo.empty_mesh < startIndex Demo.empty_mesh)
    by (cbn; lia).
  split; [split; assumption|]. split.
  - destruct (proj1 (meshIntersectionTest_hit glm.intersectRayTriangle true
                       Demo.triangle (Demo.unit_geom MESH) Demo.down_ray
                       vec3_0 vec3_0 [Demo.triangle]))
      as [Hmiss | (k & tvec & _ & _ & _ & _ & _ & _ & Hret & _)].
    + exfalso. exact (Hhit Hmiss).
    + exact Hret.
  - exact (proj1 (proj2 (meshIntersectionTest_hit glm.intersectRayTriangle
                           true Demo.triangle Demo.empty_mesh Demo.down_ray
                           vec3_0 vec3_0 [Demo.triangle])) Hempty).
Defined.

(** X8 on the 2x2 camera and a buffer of five slots. *)
Lemma generateRayFromCamera_slots_witness :
  let paths := [Demo.blank_path; Demo.blank_path; Demo.blank_path;
                Demo.blank_path; Demo.live_path] in
  let out := generateRayFromCamera Demo.cam 1 3 paths in
  (0 < ix (resolution Demo.cam) /\ 0 < iy (resolution Demo.cam)) /\
  out !! 4%nat = Some Demo.live_path /\
  generateRayFromCamera Demo.cam 2 3 out = out.
Proof.
  intros paths out.
  assert (Hx : 0 < ix (resolution Demo.cam)) by (cbn; lia).
  assert (Hy : 0 < iy (resolution Demo.cam)) by (cbn; lia).
  split; [split; assumption|].
  destruct (generateRayFromCamera_slots Demo.cam 1 2 3 paths Hx Hy)
    as (_ & _ & Hframe & Hidem).
  split; [|exact Hidem].
  assert (Hi : pixelcount Demo.cam <= Z.of_nat 4)
    by (unfold pixelcount; cbn; lia).
  exact (Hframe 4%nat Hi).
Defined.

(** X9 on one path looking down at the unit sphere. *)
Lemma computeIntersections_slots_witness :
  let out := computeIntersections glm.intersectRayTriangle true Demo.triangle
               (Demo.unit_geom CUBE) 0 1 [Demo.live_path]
               [Demo.unit_geom SPHERE] [zero_intersection] [] in
  ([Demo.live_path] !! 0%nat = Some Demo.live_path /\
   [zero_intersection] !! 0%nat = Some zero_intersection /\
   Z.of_nat 0 < 1) /\
  exists res,
    out !! 0%nat = Some res /\
    (t res = minus_one \/ gt (t res) zero = true).
Proof.
  intros out.
  assert (H1 : [Demo.live_path] !! 0%nat = Some Demo.live_path)
    by reflexivity.
  assert (H2 : [zero_intersection] !! 0%nat = Some zero_intersection)
    by reflexivity.
  assert (H3 : Z.of_nat 0 < 1) by (cbn; lia).
  split; [repeat split; assumption|].
  destruct (computeIntersections_slots glm.intersectRayTriangle true
              Demo.triangle (Demo.unit_geom CUBE) 0 0 1 [Demo.live_path]
              [Demo.unit_geom SPHERE] [zero_intersection] [])
    as (_ & _ & _ & Hslot).
  destruct (Hslot 0%nat Demo.live_path zero_intersection H1 H2 H3)
    as (res & Hres & [[-> _] | [Hpos _]]).
  - exists (mkIsect minus_one (point zero_intersection)
                    (surfaceNormal zero_intersection)
                    (materialId zero_intersection)).
    split; [exact Hres | left; reflexivity].
  - exists res. split; [exact Hres | right; exact Hpos].
Defined.

(** X10 on the lamp scene, from a freshly initialised session. *)
Lemma pathtrace_terminates_every_path_witness :
  ((forall seg p n m rng,
       remainingBounces (Demo.scatter seg p n m rng) = remainingBounces seg) /\
   session_ok Demo.lamp_scene (init Demo.lamp_scene) /\
   traceDepth Demo.lamp_scene < 2 ^ 31) /\
  exists s',
    run Demo.lamp_scene 1 (init Demo.lamp_scene) = Some s' /\
    Forall (fun p => remainingBounces p <= 0) (dev_paths s').
Proof.
  assert (Hs : forall seg p n m rng,
             remainingBounces (Demo.scatter seg p n m rng)
             = remainingBounces seg)
    by reflexivity.
  assert (Hok : session_ok Demo.lamp_scene (init Demo.lamp_scene))
    by (repeat split; reflexivity).
  assert (Htd : traceDepth Demo.lamp_scene < 2 ^ 31) by (cbn; lia).
  split; [repeat split; (exact Hs || exact Hok || exact Htd || reflexivity)|].
  destruct (pathtrace_terminates_every_path Demo.scatter
              glm.intersectRayTriangle true true false Demo.grey
              Demo.triangle (Demo.unit_geom CUBE) Hs Demo.lamp_scene 1
              (init Demo.lamp_scene) Hok Htd)
    as (s' & Hrun & _ & _ & Hall).
  exists s'. split; [exact Hrun | exact Hall].
Defined.

(** X11 on two paths naming the two pixels of an image, gathered in
    reverse order. *)
Lemma finalGather_thread_order_witness :
  let image := [vec3_0; vec3_0] in
  let paths := [Demo.dead_path; Demo.live_path] in
  (NoDup (map pixelIndex (take (Z.to_nat 2) paths)) /\
   [Demo.live_path; Demo.dead_path] ≡ₚ take (Z.to_nat 2) paths) /\
  fold_left gather_thread [Demo.live_path; Demo.dead_path] image
  = finalGather 2 image paths.
Proof.
  intros image paths.
  assert (Hnd : NoDup (map pixelIndex (take (Z.to_nat 2) paths))).
  { apply NoDup_cons. split; [|apply NoDup_singleton].
    intros H. apply elem_of_cons in H. destruct H as [H|H];
      [discriminate H | inversion H]. }
  assert (Hperm : [Demo.live_path; Demo.dead_path]
                    ≡ₚ take (Z.to_nat 2) paths)
    by apply perm_swap.
  split; [split; assumption|].
  exact (proj1 (finalGather_thread_order 2 image paths
                  [Demo.live_path; Demo.dead_path] Hnd Hperm)).
Defined.

(** X12 on a one-pixel image in a display buffer of two slots. *)
Lemma sendImageToPBO_pixels_witness :
  let pbo := [mkuchar4 9 9 9 9; mkuchar4 9 9 9 9] in
  let out := sendImageToPBO pbo (mki2 1 1) 2 [Demo.v 1 3 0] in
  (0 < ix (mki2 1 1) /\ 0 < iy (mki2 1 1)) /\
  List.length out = 2%nat /\
  out !! 1%nat = Some (mkuchar4 9 9 9 9).
Proof.
  intros pbo out.
  assert (Hx : 0 < ix (mki2 1 1)) by (cbn; lia).
  assert (Hy : 0 < iy (mki2 1 1)) by (cbn; lia).
  split; [split; assumption|].
  destruct (sendImageToPBO_pixels pbo (mki2 1 1) 2 [Demo.v 1 3 0] Hx Hy)
    as (Hlen & _ & Hframe).
  split; [exact Hlen|].
  assert (Hi : ix (mki2 1 1) * iy (mki2 1 1) <= Z.of_nat 1) by (cbn; lia).
  exact (Hframe 1%nat Hi).
Defined.

(** X14 on an active path: a miss, and a hit on the lamp material. *)
Lemma fake_shader_against_bsdf_shader_witness :
  let hit := mkIsect one vec3_0 vec3_0 0 in
  (gt (t zero_intersection) zero = false /\
   gt (t hit) zero = true /\
   gt (emittance (material_at Demo.grey [Demo.light] (materialId hit))) zero
   = true /\
   0 < remainingBounces Demo.live_path) /\
  fake_thread Demo.scatter Demo.grey 1 [Demo.light] 0 zero_intersection
              Demo.live_path
  = set_color Demo.live_path (splat zero) /\
  shade_thread Demo.scatter true Demo.grey 1 [Demo.light] 0 hit Demo.live_path
  = set_remainingBounces
      (fake_thread Demo.scatter Demo.grey 1 [Demo.light] 0 hit Demo.live_path)
      (-1).
Proof.
  intros hit.
  assert (H0 : gt (t zero_intersection) zero = false) by reflexivity.
  assert (H1 : gt (t hit) zero = true) by reflexivity.
  assert (H2 : gt (emittance (material_at Demo.grey [Demo.light]
                                          (materialId hit))) zero = true)
    by reflexivity.
  assert (H3 : 0 < remainingBounces Demo.live_path) by (cbn; lia).
  split; [repeat split; assumption|]. split.
  - exact (proj1 (proj1 (fake_shader_against_bsdf_shader Demo.scatter true
                           Demo.grey 1 [Demo.light] 0%nat zero_intersection
                           Demo.live_path) H0)).
  - exact (proj2 (proj1 (proj2 (fake_shader_against_bsdf_shader Demo.scatter
                                  true Demo.grey 1 [Demo.light] 0%nat hit
                                  Demo.live_path)) H1 H2) H3).
Defined.

(** X15 on a ray without a direction, aimed at the unit sphere. *)
Lemma sphere_nan_radicand_witness :
  is_nan (sphere_radicand (object_ray (Demo.unit_geom SPHERE) Demo.still_ray))
  = true /\
  sphereIntersectionTest (Demo.unit_geom SPHERE) Demo.still_ray vec3_0 vec3_0
  = mkResult S754_nan (splat S754_nan) (splat S754_nan).
Proof.
  assert (H : is_nan (sphere_radicand
                        (object_ray (Demo.unit_geom SPHERE) Demo.still_ray))
              = true)
    by (vm_compute; reflexivity).
  split; [exact H|].
  exact (proj1 (sphere_nan_radicand glm.intersectRayTriangle true
                  Demo.triangle (Demo.unit_geom SPHERE) Demo.still_ray
                  vec3_0 vec3_0 H)).
Defined.


(** X16 on two integers that are the same 32-bit word. *)
Lemma distinct_bounces_distinct_seeds_witness :
  utilhash 5 = utilhash (5 + 2 ^ 32) /\
  to_uint 5 = to_uint (5 + 2 ^ 32).
Proof.
  assert (H : utilhash 5 = utilhash (5 + 2 ^ 32)) by (vm_compute; reflexivity).
  split; [exact H|].
  exact (proj1 (distinct_bounces_distinct_seeds 5 (5 + 2 ^ 32)) H).
Defined.

End Runs.
